(** * The service-NAT dataplane syncer of felix/bpf/proxy/syncer.go

    A shallow embedding of the reconciler that programs the frontend,
    backend and affinity maps, followed by the properties of the
    specification that it satisfies (or does not).

    Conventions of the embedding.
    - Go's [int] is an unbounded [Z]; the fixed-width conversions
      [uint8], [uint16], [uint32] and the 64-bit [time.Duration]
      arithmetic are written with their wrap-around.
    - A [net.IP] is kept up to [net.IP.Equal]: the 4-byte and the
      IPv4-in-IPv6 forms of one address are the same [IPv4] value, so that
      [Equal], and equality of the [String()] forms, are Rocq's [=].
      Endpoint addresses, which the Go code carries as strings, are the
      addresses those strings denote.
    - Go maps are [gmap]s.  Where the Go code ranges over a map, the
      embedding ranges over a list that enumerates it; input maps are given
      as such lists. *)

From Stdlib Require Import ZArith Lia.
From stdpp Require Import base option list gmap sets strings.

Local Open Scope Z_scope.

(** ** Machine integers *)

Definition uint8 (z : Z) : Z := z mod 2 ^ 8.
Definition uint16 (z : Z) : Z := z mod 2 ^ 16.
Definition uint32 (z : Z) : Z := z mod 2 ^ 32.

(** Two's complement reduction to 64 bits, for [time.Duration]. *)
Definition int64 (z : Z) : Z := (z + 2 ^ 63) mod 2 ^ 64 - 2 ^ 63.

(** ** Addresses ([net], [felix/ip]) *)

Inductive IP : Type :=
| IPnil
| IPv4 (a : Z)
| IPv6 (a : Z).

#[global] Instance IP_eq_dec : EqDecision IP.
Proof. solve_decision. Defined.

Definition IP_enc (i : IP) : unit + (Z + Z) :=
  match i with
  | IPnil => inl tt
  | IPv4 a => inr (inl a)
  | IPv6 a => inr (inr a)
  end.

Definition IP_dec (x : unit + (Z + Z)) : IP :=
  match x with
  | inl _ => IPnil
  | inr (inl a) => IPv4 a
  | inr (inr a) => IPv6 a
  end.

#[global] Instance IP_countable : Countable IP.
Proof. by apply (inj_countable' IP_enc IP_dec); intros []. Defined.

(** [len(ip)] of the byte slice: only its being zero is ever tested. *)
Definition IP_len (i : IP) : Z :=
  match i with
  | IPnil => 0
  | IPv4 _ => 4
  | IPv6 _ => 16
  end.

(** [ip.To4() != nil]. *)
Definition IP_is4 (i : IP) : bool :=
  match i with
  | IPv4 _ => true
  | _ => false
  end.

(** A [*net.IPNet] as [net.ParseCIDR] builds it: an address of one of the
    two families and the number of leading ones of the mask. *)
Inductive IPNet : Type :=
| IPNet4 (a : Z) (ones : Z)
| IPNet6 (a : Z) (ones : Z).

#[global] Instance IPNet_eq_dec : EqDecision IPNet.
Proof. solve_decision. Defined.

(** [src.IP.To4() == nil] *)
Definition IPNet_isV6 (n : IPNet) : bool :=
  match n with
  | IPNet4 _ _ => false
  | IPNet6 _ _ => true
  end.

(** [ip.CIDR]: an interface with the two implementations [ip.V4CIDR] and
    [ip.V6CIDR]; interface equality compares the dynamic type first. *)
Inductive CIDR : Type :=
| V4CIDR (addr : Z) (prefix : Z)
| V6CIDR (addr : Z) (prefix : Z).

#[global] Instance CIDR_eq_dec : EqDecision CIDR.
Proof. solve_decision. Defined.

Definition CIDR_enc (c : CIDR) : (Z * Z) + (Z * Z) :=
  match c with
  | V4CIDR a p => inl (a, p)
  | V6CIDR a p => inr (a, p)
  end.

Definition CIDR_dec (x : (Z * Z) + (Z * Z)) : CIDR :=
  match x with
  | inl (a, p) => V4CIDR a p
  | inr (a, p) => V6CIDR a p
  end.

#[global] Instance CIDR_countable : Countable CIDR.
Proof. by apply (inj_countable' CIDR_enc CIDR_dec); intros []. Defined.

(** Keep the [ones] leading bits of a [bits]-bit address. *)
Definition maskAddr (bits a ones : Z) : Z :=
  Z.shiftl (Z.shiftr a (bits - ones)) (bits - ones).

(** [ip.CIDRFromIPNet] (package felix/ip): the masked address with the
    prefix length, in the family of the network. *)
Definition CIDRFromIPNet (n : IPNet) : CIDR :=
  match n with
  | IPNet4 a ones => V4CIDR (maskAddr 32 a ones) ones
  | IPNet6 a ones => V6CIDR (maskAddr 128 a ones) ones
  end.

(** [ip.CIDRFromNetIP] (package felix/ip): the host CIDR of an address.
    The nil address has no CIDR; it is kept apart from every CIDR. *)
Definition CIDRFromNetIP (i : IP) : option CIDR :=
  match i with
  | IPnil => None
  | IPv4 a => Some (V4CIDR a 32)
  | IPv6 a => Some (V6CIDR a 128)
  end.

(** Does the CIDR cover the address? *)
Definition CIDR_covers (c : CIDR) (i : IP) : bool :=
  match c, i with
  | V4CIDR a p, IPv4 x => bool_decide (maskAddr 32 x p = a)
  | V6CIDR a p, IPv6 x => bool_decide (maskAddr 128 x p = a)
  | _, _ => false
  end.

(** ** Kubernetes service ports and endpoints ([k8s.io/api/core/v1],
    [k8s.io/kubernetes/pkg/proxy]) *)

(** [v1.Protocol] is a string; three values are known to the syncer. *)
Inductive Protocol : Type :=
| ProtocolTCP
| ProtocolUDP
| ProtocolSCTP
| ProtocolOther (name : string).

#[global] Instance Protocol_eq_dec : EqDecision Protocol.
Proof. solve_decision. Defined.

Inductive ServiceAffinity : Type :=
| ServiceAffinityNone
| ServiceAffinityClientIP.

#[global] Instance ServiceAffinity_eq_dec : EqDecision ServiceAffinity.
Proof. solve_decision. Defined.

(** [k8sp.ServicePortName] *)
Record ServicePortName : Type := mkServicePortName {
  spn_Namespace : string;
  spn_Name : string;
  spn_Port : string
}.

#[global] Instance ServicePortName_eq_dec : EqDecision ServicePortName.
Proof. solve_decision. Defined.

#[global] Instance ServicePortName_countable : Countable ServicePortName.
Proof.
  by apply (inj_countable'
    (λ n, (spn_Namespace n, spn_Name n, spn_Port n))
    (λ t, mkServicePortName t.1.1 t.1.2 t.2)); intros [].
Defined.

(** [k8sp.Endpoint], through the methods the syncer calls. *)
Record Endpoint : Type := mkEndpoint {
  ep_IP : IP;
  ep_Port : Z;
  ep_IsLocal : bool;
  ep_IsReady : bool;
  ep_IsTerminating : bool;
  ep_ZoneHints : list string
}.

#[global] Instance Endpoint_eq_dec : EqDecision Endpoint.
Proof. solve_decision. Defined.

(** [NewEndpointInfo(ip, port)]: an endpoint learnt from the dataplane. *)
Definition NewEndpointInfo (i : IP) (port : Z) : Endpoint :=
  mkEndpoint i port false true false [].

(** [Service]: a [k8sp.ServicePort] with the service annotations.  The
    record is [serviceInfo] (with its embedded [servicePortAnnotations]);
    the methods of the interface are its projections. *)
Record Service : Type := mkService {
  clusterIP : IP;
  port : Z;
  protocol : Protocol;
  nodePort : Z;
  sessionAffinityType : ServiceAffinity;
  stickyMaxAgeSeconds : Z;
  externalIPs : list IP;
  loadBalancerSourceRanges : list IPNet;
  loadBalancerVIPs : list IP;
  healthCheckNodePort : Z;
  nodeLocalExternal : bool;
  nodeLocalInternal : bool;
  hintsAnnotation : string;
  excludeService : bool;
  reapTerminatingUDP : bool
}.

#[global] Instance Service_eq_dec : EqDecision Service.
Proof. solve_decision. Defined.

(** [serviceInfoFromK8sServicePort] copies every field of the service
    port; on the record it is the identity.  The two updates that follow
    it in the syncer are these. *)
Definition serviceInfoFromK8sServicePort (sport : Service) : Service := sport.

Definition withClusterIP (i : IP) (s : Service) : Service :=
  mkService i (port s) (protocol s) (nodePort s) (sessionAffinityType s)
    (stickyMaxAgeSeconds s) (externalIPs s) (loadBalancerSourceRanges s)
    (loadBalancerVIPs s) (healthCheckNodePort s) (nodeLocalExternal s)
    (nodeLocalInternal s) (hintsAnnotation s) (excludeService s)
    (reapTerminatingUDP s).

Definition withPort (p : Z) (s : Service) : Service :=
  mkService (clusterIP s) p (protocol s) (nodePort s) (sessionAffinityType s)
    (stickyMaxAgeSeconds s) (externalIPs s) (loadBalancerSourceRanges s)
    (loadBalancerVIPs s) (healthCheckNodePort s) (nodeLocalExternal s)
    (nodeLocalInternal s) (hintsAnnotation s) (excludeService s)
    (reapTerminatingUDP s).

Definition ExternallyAccessible (info : Service) : bool :=
  negb (nodePort info =? 0)
  || negb (Nat.eqb (length (loadBalancerVIPs info)) 0)
  || negb (Nat.eqb (length (externalIPs info)) 0).

Definition UsesClusterEndpoints (info : Service) : bool :=
  negb (nodeLocalInternal info) || ExternallyAccessible info.

Definition UsesLocalEndpoints (info : Service) : bool :=
  nodeLocalInternal info || (nodeLocalExternal info && ExternallyAccessible info).

(** [cidrEqual]: equal lengths, the one-element case compared directly,
    otherwise every element of [b] is among those of [a]. *)
Definition cidrEqual {T C : Type} `{EqDecision C} (toCIDR : T → C) (a b : list T) : bool :=
  if negb (Nat.eqb (length a) (length b)) then false
  else match a, b with
       | [x], [y] => bool_decide (toCIDR x = toCIDR y)
       | _, _ => forallb (λ s, bool_decide (toCIDR s ∈ (toCIDR <$> a))) b
       end.

Definition ServicePortEqual (a b : Service) : bool :=
  bool_decide (clusterIP a = clusterIP b)
  && (port a =? port b)
  && bool_decide (sessionAffinityType a = sessionAffinityType b)
  && (stickyMaxAgeSeconds a =? stickyMaxAgeSeconds b)
  && cidrEqual CIDRFromNetIP (externalIPs a) (externalIPs b)
  && cidrEqual CIDRFromNetIP (loadBalancerVIPs a) (loadBalancerVIPs b)
  && bool_decide (protocol a = protocol b)
  && cidrEqual CIDRFromIPNet (loadBalancerSourceRanges a) (loadBalancerSourceRanges b)
  && (healthCheckNodePort a =? healthCheckNodePort b)
  && (nodePort a =? nodePort b)
  && eqb (nodeLocalExternal a) (nodeLocalExternal b)
  && eqb (nodeLocalInternal a) (nodeLocalInternal b)
  && bool_decide (hintsAnnotation a = hintsAnnotation b)
  && eqb (ExternallyAccessible a) (ExternallyAccessible b)
  && eqb (UsesClusterEndpoints a) (UsesClusterEndpoints b)
  && eqb (UsesLocalEndpoints a) (UsesLocalEndpoints b).

(** Errors of the syncer and of the kernel maps it drives. *)
Inductive error : Type :=
| ErrUnknownProtocol (p : Protocol)
| ErrNoClusterIP
| ErrNodePortRemote
| ErrInconsistent
| ErrKernel (code : Z)
| ErrAffinityIter (cause : error)
| ErrStartupSync (cause : error).

#[global] Instance error_eq_dec : EqDecision error.
Proof. solve_decision. Defined.

(** [ProtoV1ToInt]: the IANA number, or an error. *)
Definition ProtoV1ToInt (p : Protocol) : Z * option error :=
  match p with
  | ProtocolTCP => (6, None)
  | ProtocolUDP => (17, None)
  | ProtocolSCTP => (132, None)
  | ProtocolOther _ => (0, Some (ErrUnknownProtocol p))
  end.

(** [ProtoV1ToIntPanic]: [None] stands for the panic. *)
Definition ProtoV1ToIntPanic (p : Protocol) : option Z :=
  match ProtoV1ToInt p with
  | (pn, None) => Some pn
  | (_, Some _) => None
  end.

(** ** The NAT map schema (package felix/bpf/nat)

    The keys and values of the three kernel maps, with the fields the
    syncer reads and writes; the byte layout plays no part here. *)

Record FrontendKey : Type := mkFrontendKey {
  fk_Addr : IP;
  fk_Port : Z;
  fk_Proto : Z;
  fk_SrcCIDR : CIDR
}.

#[global] Instance FrontendKey_eq_dec : EqDecision FrontendKey.
Proof. solve_decision. Defined.

#[global] Instance FrontendKey_countable : Countable FrontendKey.
Proof.
  by apply (inj_countable'
    (λ k, (fk_Addr k, fk_Port k, fk_Proto k, fk_SrcCIDR k))
    (λ t, mkFrontendKey t.1.1.1 t.1.1.2 t.1.2 t.2)); intros [].
Defined.

Record FrontendValue : Type := mkFrontendValue {
  fv_ID : Z;
  fv_Count : Z;
  fv_LocalCount : Z;
  fv_AffinityTimeo : Z;
  fv_Flags : Z
}.

#[global] Instance FrontendValue_eq_dec : EqDecision FrontendValue.
Proof. solve_decision. Defined.

Record BackendKey : Type := mkBackendKey {
  bk_ID : Z;
  bk_Ordinal : Z
}.

#[global] Instance BackendKey_eq_dec : EqDecision BackendKey.
Proof. solve_decision. Defined.

#[global] Instance BackendKey_countable : Countable BackendKey.
Proof.
  by apply (inj_countable' (λ k, (bk_ID k, bk_Ordinal k))
    (λ t, mkBackendKey t.1 t.2)); intros [].
Defined.

Record BackendValue : Type := mkBackendValue {
  bv_Addr : IP;
  bv_Port : Z
}.

#[global] Instance BackendValue_eq_dec : EqDecision BackendValue.
Proof. solve_decision. Defined.

#[global] Instance BackendValue_countable : Countable BackendValue.
Proof.
  by apply (inj_countable' (λ v, (bv_Addr v, bv_Port v))
    (λ t, mkBackendValue t.1 t.2)); intros [].
Defined.

(** The projection of a frontend key that keys the affinity table. *)
Record FrontEndAffinityKey : Type := mkFrontEndAffinityKey {
  fak_Addr : IP;
  fak_Port : Z;
  fak_Proto : Z
}.

#[global] Instance FrontEndAffinityKey_eq_dec : EqDecision FrontEndAffinityKey.
Proof. solve_decision. Defined.

#[global] Instance FrontEndAffinityKey_countable : Countable FrontEndAffinityKey.
Proof.
  by apply (inj_countable' (λ k, (fak_Addr k, fak_Port k, fak_Proto k))
    (λ t, mkFrontEndAffinityKey t.1.1 t.1.2 t.2)); intros [].
Defined.

(** An affinity record, as the two codecs [affinityKeyFromBytes] and
    [affinityValueFromBytes] present it. *)
Record AffinityKey : Type := mkAffinityKey {
  ak_FrontendAffinityKey : FrontEndAffinityKey;
  ak_ClientIP : IP
}.

Record AffinityValue : Type := mkAffinityValue {
  av_Timestamp : Z;
  av_Backend : BackendValue
}.

#[global] Instance AffinityKey_eq_dec : EqDecision AffinityKey.
Proof. solve_decision. Defined.

#[global] Instance AffinityValue_eq_dec : EqDecision AffinityValue.
Proof. solve_decision. Defined.

(** [nat.ZeroCIDR] and [nat.ZeroCIDRV6]: the any-source CIDR of each
    family. *)
Definition ZeroCIDR : CIDR := V4CIDR 0 0.
Definition ZeroCIDRV6 : CIDR := V6CIDR 0 0.

(** [nat.BlackHoleCount]: the reserved value of the count field. *)
Definition BlackHoleCount : Z := 4294967295.

Definition NATFlgExternalLocal : Z := 1.
Definition NATFlgInternalLocal : Z := 2.
Definition NATFlgExclude : Z := 4.

Definition NewNATValueWithFlags (id count local affinityTimeo flags : Z) : FrontendValue :=
  mkFrontendValue id count local affinityTimeo flags.

Definition NewNATValue (id count local affinityTimeo : Z) : FrontendValue :=
  mkFrontendValue id count local affinityTimeo 0.

Definition NewNATBackendKey (id ordinal : Z) : BackendKey :=
  mkBackendKey id ordinal.

Definition AffinityKeyCopy (k : FrontendKey) : FrontEndAffinityKey :=
  mkFrontEndAffinityKey (fk_Addr k) (fk_Port k) (fk_Proto k).

(** ** Routes (package felix/bpf/routes) *)

Record RouteValue : Type := mkRouteValue {
  rv_Flags : Z;
  rv_NextHop : IP
}.

#[global] Instance RouteValue_eq_dec : EqDecision RouteValue.
Proof. solve_decision. Defined.

Definition FlagWorkload : Z := 4.
Definition FlagLocal : Z := 8.

(** ** The kernel maps and the typed caching map *)

(** One write to a kernel map. *)
Inductive kwrite (K V : Type) : Type :=
| KUpdate (k : K) (v : V)
| KDelete (k : K).

Arguments KUpdate {K V} k v.
Arguments KDelete {K V} k.

Section caching_map.
Context {K V : Type} `{Countable K} `{EqDecision V}.

(** A kernel table: its contents, and which writes the kernel refuses
    (with the error it gives). *)
Record KMap : Type := mkKMap {
  km_data : gmap K V;
  km_refuse : kwrite K V → option error;
  km_loadError : option error
}.

(** Modelled from the spec: the typed caching map of felix/cachingmap,
    whose code is not at hand.  Section 4.1: two in-memory views of a
    kernel table, the dataplane view (last observed kernel state) and the
    desired view. *)
Record CachingMap : Type := mkCachingMap {
  cm_dataplane : gmap K V;
  cm_desired : gmap K V
}.

(** Modelled from the spec: [LoadCacheFromDataplane], a full scan of the
    kernel table into the dataplane view. *)
Definition LoadCacheFromDataplane (c : CachingMap) (k : KMap) : CachingMap * option error :=
  match km_loadError k with
  | Some e => (c, Some e)
  | None => (mkCachingMap (km_data k) (cm_desired c), None)
  end.

Definition Desired_Set (key : K) (v : V) (c : CachingMap) : CachingMap :=
  mkCachingMap (cm_dataplane c) (<[key := v]> (cm_desired c)).

Definition Desired_DeleteAll (c : CachingMap) : CachingMap :=
  mkCachingMap (cm_dataplane c) ∅.

(** The state threaded through one partial-apply operation: the cache, the
    kernel table, the writes that reached the kernel, the first error. *)
Record applyState : Type := mkApplyState {
  as_cache : CachingMap;
  as_kernel : KMap;
  as_writes : list (kwrite K V);
  as_err : option error
}.

Definition firstError (old new : option error) : option error :=
  match old with
  | Some e => Some e
  | None => new
  end.

(** Modelled from the spec: one write of a partial-apply operation.  "A
    successful write updates the dataplane cache to match desired; a failed
    write leaves dataplane untouched and surfaces the error." *)
Definition applyWrite (st : applyState) (w : kwrite K V) : applyState :=
  match km_refuse (as_kernel st) w with
  | Some e => mkApplyState (as_cache st) (as_kernel st) (as_writes st)
                (firstError (as_err st) (Some e))
  | None =>
      let upd (m : gmap K V) : gmap K V :=
        match w with
        | KUpdate k v => <[k := v]> m
        | KDelete k => delete k m
        end in
      mkApplyState
        (mkCachingMap (upd (cm_dataplane (as_cache st))) (cm_desired (as_cache st)))
        (mkKMap (upd (km_data (as_kernel st))) (km_refuse (as_kernel st))
           (km_loadError (as_kernel st)))
        (as_writes st ++ [w])
        (as_err st)
  end.

(** The keys in the dataplane view that the desired view does not hold. *)
Definition pendingDeletions (c : CachingMap) : list (kwrite K V) :=
  (λ kv, KDelete kv.1) <$>
    filter (λ kv, cm_desired c !! kv.1 = None) (map_to_list (cm_dataplane c)).

(** The desired entries that are new or changed. *)
Definition pendingUpdates (c : CachingMap) : list (kwrite K V) :=
  (λ kv, KUpdate kv.1 kv.2) <$>
    filter (λ kv, cm_dataplane c !! kv.1 ≠ Some kv.2) (map_to_list (cm_desired c)).

(** Modelled from the spec: [ApplyDeletionsOnly] and [ApplyUpdatesOnly],
    with the equality skip for unchanged keys. *)
Definition ApplyDeletionsOnly (c : CachingMap) (k : KMap) : applyState :=
  foldl applyWrite (mkApplyState c k [] None) (pendingDeletions c).

Definition ApplyUpdatesOnly (c : CachingMap) (k : KMap) : applyState :=
  foldl applyWrite (mkApplyState c k [] None) (pendingUpdates c).

End caching_map.

Arguments KMap K V {_ _}.
Arguments CachingMap K V {_ _}.
Arguments applyState K V {_ _}.

(** ** The syncer: keys, service records, state *)

Inductive svcType : Type :=
| svcTypeExternalIP
| svcTypeNodePort
| svcTypeNodePortRemote
| svcTypeLoadBalancer.

#[global] Instance svcType_eq_dec : EqDecision svcType.
Proof. solve_decision. Defined.

Definition svcType_enc (t : svcType) : nat :=
  match t with
  | svcTypeExternalIP => 0
  | svcTypeNodePort => 1
  | svcTypeNodePortRemote => 2
  | svcTypeLoadBalancer => 3
  end%nat.

Definition svcType_dec (n : nat) : svcType :=
  match n with
  | 0 => svcTypeExternalIP
  | 1 => svcTypeNodePort
  | 2 => svcTypeNodePortRemote
  | _ => svcTypeLoadBalancer
  end%nat.

#[global] Instance svcType_countable : Countable svcType.
Proof. by apply (inj_countable' svcType_enc svcType_dec); intros []. Defined.

(** [svcKey].  The Go field [extra] is the string [""] for the primary
    entry and [svcType2String[t] + ":" + ip.String()] otherwise; the four
    type names are distinct and none is a prefix of another one followed by
    a colon, so the string is kept as the pair it is built from. *)
Record svcKey : Type := mkSvcKey {
  sname : ServicePortName;
  extra : option (svcType * IP)
}.

#[global] Instance svcKey_eq_dec : EqDecision svcKey.
Proof. solve_decision. Defined.

#[global] Instance svcKey_countable : Countable svcKey.
Proof.
  by apply (inj_countable' (λ k, (sname k, extra k))
    (λ t, mkSvcKey t.1 t.2)); intros [].
Defined.

Definition getSvcKey (sn : ServicePortName) (ex : option (svcType * IP)) : svcKey :=
  mkSvcKey sn ex.

Definition getSvcKeyExtra (t : svcType) (i : IP) : option (svcType * IP) :=
  Some (t, i).

(** [strings.HasPrefix(skey.extra, svcType2String[t]+":")] *)
Definition hasSvcKeyExtra (skey : svcKey) (t : svcType) : bool :=
  match extra skey with
  | Some (t', _) => bool_decide (t' = t)
  | None => false
  end.

Definition isSvcKeyDerived (skey : svcKey) : bool :=
  hasSvcKeyExtra skey svcTypeExternalIP
  || hasSvcKeyExtra skey svcTypeNodePort
  || hasSvcKeyExtra skey svcTypeLoadBalancer.

Record svcInfo : Type := mkSvcInfo {
  si_id : Z;
  si_count : Z;
  si_localCount : Z;
  si_svc : Service
}.

#[global] Instance svcInfo_eq_dec : EqDecision svcInfo.
Proof. solve_decision. Defined.

(** [stickyFrontend]; [sf_timeo] is a [time.Duration], in nanoseconds. *)
Record stickyFrontend : Type := mkStickyFrontend {
  sf_id : Z;
  sf_timeo : Z
}.

Record ipPort : Type := mkIpPort {
  ipp_ip : IP;
  ipp_port : Z
}.

#[global] Instance ipPort_eq_dec : EqDecision ipPort.
Proof. solve_decision. Defined.

#[global] Instance ipPort_countable : Countable ipPort.
Proof.
  by apply (inj_countable' (λ k, (ipp_ip k, ipp_port k))
    (λ t, mkIpPort t.1 t.2)); intros [].
Defined.

Record ipPortProto : Type := mkIpPortProto {
  ippp_ipPort : ipPort;
  ippp_proto : Z
}.

#[global] Instance ipPortProto_eq_dec : EqDecision ipPortProto.
Proof. solve_decision. Defined.

#[global] Instance ipPortProto_countable : Countable ipPortProto.
Proof.
  by apply (inj_countable' (λ k, (ippp_ipPort k, ippp_proto k))
    (λ t, mkIpPortProto t.1 t.2)); intros [].
Defined.

Record expandMiss : Type := mkExpandMiss {
  em_sname : ServicePortName;
  em_sinfo : Service;
  em_eps : list Endpoint;
  em_nport : Z
}.

(** [DPSyncerState].  [SvcMap] is given by an enumeration of the Go map,
    in the order in which [apply] ranges over it. *)
Record DPSyncerState : Type := mkDPSyncerState {
  SvcMap : list (ServicePortName * Service);
  EpsMap : gmap ServicePortName (list Endpoint);
  NodeZone : string
}.

(** [Syncer].  The lock, the wait group and the stop channels are left
    out; [expFixupStop] holds the misses the running fix-up task was
    launched with, [triggerFn] whether a callback is registered,
    [excludedCIDRs] the entries of the trie, and [rt] is [rt.Lookup]. *)
Record Syncer : Type := mkSyncer {
  ipFamily : Z;
  bpfSvcs : CachingMap FrontendKey FrontendValue;
  bpfEps : CachingMap BackendKey BackendValue;
  nextSvcID : Z;
  nodePortIPs : list IP;
  rt : IP → option RouteValue;
  newSvcMap : gmap svcKey svcInfo;
  newEpsMap : gmap ServicePortName (list Endpoint);
  prevSvcMap : gmap svcKey svcInfo;
  prevEpsMap : gmap ServicePortName (list Endpoint);
  activeSvcsMap : gmap ipPortProto Z;
  activeEpsMap : gmap Z (gset ipPort);
  synced : bool;
  expFixupStop : option (list expandMiss);
  stickySvcs : gmap FrontEndAffinityKey stickyFrontend;
  stickyEps : gmap Z (gset BackendValue);
  triggerFn : bool;
  excludedCIDRs : option (list CIDR)
}.

(** Field updates. *)
Definition set_bpfSvcs (v : CachingMap FrontendKey FrontendValue) (s : Syncer) : Syncer :=
  mkSyncer (ipFamily s) v (bpfEps s) (nextSvcID s) (nodePortIPs s) (rt s)
    (newSvcMap s) (newEpsMap s) (prevSvcMap s) (prevEpsMap s) (activeSvcsMap
    s) (activeEpsMap s) (synced s) (expFixupStop s) (stickySvcs s)
    (stickyEps s) (triggerFn s) (excludedCIDRs s).

Definition set_bpfEps (v : CachingMap BackendKey BackendValue) (s : Syncer) : Syncer :=
  mkSyncer (ipFamily s) (bpfSvcs s) v (nextSvcID s) (nodePortIPs s) (rt s)
    (newSvcMap s) (newEpsMap s) (prevSvcMap s) (prevEpsMap s) (activeSvcsMap
    s) (activeEpsMap s) (synced s) (expFixupStop s) (stickySvcs s)
    (stickyEps s) (triggerFn s) (excludedCIDRs s).

Definition set_nextSvcID (v : Z) (s : Syncer) : Syncer :=
  mkSyncer (ipFamily s) (bpfSvcs s) (bpfEps s) v (nodePortIPs s) (rt s)
    (newSvcMap s) (newEpsMap s) (prevSvcMap s) (prevEpsMap s) (activeSvcsMap
    s) (activeEpsMap s) (synced s) (expFixupStop s) (stickySvcs s)
    (stickyEps s) (triggerFn s) (excludedCIDRs s).

Definition set_newSvcMap (v : gmap svcKey svcInfo) (s : Syncer) : Syncer :=
  mkSyncer (ipFamily s) (bpfSvcs s) (bpfEps s) (nextSvcID s) (nodePortIPs s)
    (rt s) v (newEpsMap s) (prevSvcMap s) (prevEpsMap s) (activeSvcsMap s)
    (activeEpsMap s) (synced s) (expFixupStop s) (stickySvcs s) (stickyEps
    s) (triggerFn s) (excludedCIDRs s).

Definition set_newEpsMap (v : gmap ServicePortName (list Endpoint)) (s : Syncer) : Syncer :=
  mkSyncer (ipFamily s) (bpfSvcs s) (bpfEps s) (nextSvcID s) (nodePortIPs s)
    (rt s) (newSvcMap s) v (prevSvcMap s) (prevEpsMap s) (activeSvcsMap s)
    (activeEpsMap s) (synced s) (expFixupStop s) (stickySvcs s) (stickyEps
    s) (triggerFn s) (excludedCIDRs s).

Definition set_prevSvcMap (v : gmap svcKey svcInfo) (s : Syncer) : Syncer :=
  mkSyncer (ipFamily s) (bpfSvcs s) (bpfEps s) (nextSvcID s) (nodePortIPs s)
    (rt s) (newSvcMap s) (newEpsMap s) v (prevEpsMap s) (activeSvcsMap s)
    (activeEpsMap s) (synced s) (expFixupStop s) (stickySvcs s) (stickyEps
    s) (triggerFn s) (excludedCIDRs s).

Definition set_prevEpsMap (v : gmap ServicePortName (list Endpoint)) (s : Syncer) : Syncer :=
  mkSyncer (ipFamily s) (bpfSvcs s) (bpfEps s) (nextSvcID s) (nodePortIPs s)
    (rt s) (newSvcMap s) (newEpsMap s) (prevSvcMap s) v (activeSvcsMap s)
    (activeEpsMap s) (synced s) (expFixupStop s) (stickySvcs s) (stickyEps
    s) (triggerFn s) (excludedCIDRs s).

Definition set_activeSvcsMap (v : gmap ipPortProto Z) (s : Syncer) : Syncer :=
  mkSyncer (ipFamily s) (bpfSvcs s) (bpfEps s) (nextSvcID s) (nodePortIPs s)
    (rt s) (newSvcMap s) (newEpsMap s) (prevSvcMap s) (prevEpsMap s) v
    (activeEpsMap s) (synced s) (expFixupStop s) (stickySvcs s) (stickyEps
    s) (triggerFn s) (excludedCIDRs s).

Definition set_activeEpsMap (v : gmap Z (gset ipPort)) (s : Syncer) : Syncer :=
  mkSyncer (ipFamily s) (bpfSvcs s) (bpfEps s) (nextSvcID s) (nodePortIPs s)
    (rt s) (newSvcMap s) (newEpsMap s) (prevSvcMap s) (prevEpsMap s)
    (activeSvcsMap s) v (synced s) (expFixupStop s) (stickySvcs s)
    (stickyEps s) (triggerFn s) (excludedCIDRs s).

Definition set_synced (v : bool) (s : Syncer) : Syncer :=
  mkSyncer (ipFamily s) (bpfSvcs s) (bpfEps s) (nextSvcID s) (nodePortIPs s)
    (rt s) (newSvcMap s) (newEpsMap s) (prevSvcMap s) (prevEpsMap s)
    (activeSvcsMap s) (activeEpsMap s) v (expFixupStop s) (stickySvcs s)
    (stickyEps s) (triggerFn s) (excludedCIDRs s).

Definition set_expFixupStop (v : option (list expandMiss)) (s : Syncer) : Syncer :=
  mkSyncer (ipFamily s) (bpfSvcs s) (bpfEps s) (nextSvcID s) (nodePortIPs s)
    (rt s) (newSvcMap s) (newEpsMap s) (prevSvcMap s) (prevEpsMap s)
    (activeSvcsMap s) (activeEpsMap s) (synced s) v (stickySvcs s)
    (stickyEps s) (triggerFn s) (excludedCIDRs s).

Definition set_stickySvcs (v : gmap FrontEndAffinityKey stickyFrontend) (s : Syncer) : Syncer :=
  mkSyncer (ipFamily s) (bpfSvcs s) (bpfEps s) (nextSvcID s) (nodePortIPs s)
    (rt s) (newSvcMap s) (newEpsMap s) (prevSvcMap s) (prevEpsMap s)
    (activeSvcsMap s) (activeEpsMap s) (synced s) (expFixupStop s) v
    (stickyEps s) (triggerFn s) (excludedCIDRs s).

Definition set_stickyEps (v : gmap Z (gset BackendValue)) (s : Syncer) : Syncer :=
  mkSyncer (ipFamily s) (bpfSvcs s) (bpfEps s) (nextSvcID s) (nodePortIPs s)
    (rt s) (newSvcMap s) (newEpsMap s) (prevSvcMap s) (prevEpsMap s)
    (activeSvcsMap s) (activeEpsMap s) (synced s) (expFixupStop s)
    (stickySvcs s) v (triggerFn s) (excludedCIDRs s).

(** [podNPIP] and [podNPIPV6]: the sentinel node-port addresses. *)
Definition podNPIP : IP := IPv4 4294967295.
Definition podNPIPV6 : IP := IPv6 (2 ^ 128 - 1).

(** The per-family constructors that [NewSyncer] installs. *)
Definition newFrontendKey (s : Syncer) (addr : IP) (port proto : Z) : FrontendKey :=
  mkFrontendKey addr port proto (if ipFamily s =? 6 then ZeroCIDRV6 else ZeroCIDR).

Definition newFrontendKeySrc (s : Syncer) (addr : IP) (port proto : Z) (cidr : CIDR) : FrontendKey :=
  mkFrontendKey addr port proto cidr.

Definition newBackendValue (s : Syncer) (addr : IP) (port : Z) : BackendValue :=
  mkBackendValue addr port.

Definition servicePortToIPPortProto (sp : Service) : option ipPortProto :=
  pn ← ProtoV1ToIntPanic (protocol sp);
  Some (mkIpPortProto (mkIpPort (clusterIP sp) (port sp)) pn).

Definition newSvcID (s : Syncer) : Z * Syncer :=
  (nextSvcID s, set_nextSvcID (uint32 (nextSvcID s + 1)) s).

Definition getSvcNATKey (s : Syncer) (svc : Service) : FrontendKey * option error :=
  let '(proto, err) := ProtoV1ToInt (protocol svc) in
  (newFrontendKey s (clusterIP svc) (uint16 (port svc)) proto, err).

(** The body of the loop of [getSvcNATKeyLBSrcRange]: the key of one
    source range, or nothing when the range is of the other family. *)
Definition lbSrcRangeKey (s : Syncer) (ipaddr : IP) (port proto : Z) (src : IPNet) : option FrontendKey :=
  if IPNet_isV6 src then
    if negb (ipFamily s =? 6) then None
    else Some (newFrontendKeySrc s ipaddr (uint16 port) proto (CIDRFromIPNet src))
  else if ipFamily s =? 6 then None
  else Some (newFrontendKeySrc s ipaddr (uint16 port) proto (CIDRFromIPNet src)).

Definition getSvcNATKeyLBSrcRange (s : Syncer) (svc : Service) : list FrontendKey * option error :=
  match ProtoV1ToInt (protocol svc) with
  | (_, Some err) => ([], Some err)
  | (proto, None) =>
      (omap (lbSrcRangeKey s (clusterIP svc) (port svc) proto)
         (loadBalancerSourceRanges svc), None)
  end.

Definition writeSvcBackend (s : Syncer) (svcID idx : Z) (ep : Endpoint) : Syncer :=
  let key := NewNATBackendKey svcID (uint32 idx) in
  let val := newBackendValue s (ep_IP ep) (uint16 (ep_Port ep)) in
  let s := set_bpfEps (Desired_Set key val (bpfEps s)) s in
  match stickyEps s !! svcID with
  | Some vals => set_stickyEps (<[svcID := {[val]} ∪ vals]> (stickyEps s)) s
  | None => s
  end.

(** [affinityTimeo] as [writeSvc] and [writeLBSrcRangeSvcNATKeys] compute it. *)
Definition affinityTimeoOf (svc : Service) : Z :=
  if bool_decide (sessionAffinityType svc = ServiceAffinityClientIP)
  then uint32 (stickyMaxAgeSeconds svc) else 0.

(** The longest-prefix match of [writeSvc] finds an entry exactly when some
    excluded CIDR covers the cluster address. *)
Definition inExcludedCIDRs (s : Syncer) (i : IP) : bool :=
  match excludedCIDRs s with
  | Some cidrs => existsb (λ c, CIDR_covers c i) cidrs
  | None => false
  end.

Definition writeSvc (s : Syncer) (svc : Service) (svcID count local flags : Z) : Syncer * option error :=
  match getSvcNATKey s svc with
  | (_, Some err) => (s, Some err)
  | (key, None) =>
      let flags := if inExcludedCIDRs s (clusterIP svc) then Z.lor flags NATFlgExclude else flags in
      let flags := if excludeService svc then Z.lor flags NATFlgExclude else flags in
      let affinityTimeo := affinityTimeoOf svc in
      let val := NewNATValueWithFlags svcID (uint32 count) (uint32 local) affinityTimeo flags in
      let s := set_bpfSvcs (Desired_Set key val (bpfSvcs s)) s in
      match stickyEps s !! svcID with
      | Some _ =>
          (set_stickySvcs
             (<[AffinityKeyCopy key :=
                  mkStickyFrontend svcID (int64 (affinityTimeo * 1000000000))]>
                (stickySvcs s)) s, None)
      | None => (s, None)
      end
  end.

Definition writeLBSrcRangeSvcNATKeys (s : Syncer) (svc : Service) (svcID count local flags : Z) : Syncer * option error :=
  let affinityTimeo := affinityTimeoOf svc in
  if Nat.eqb (length (loadBalancerSourceRanges svc)) 0 then (s, None)
  else
    match getSvcNATKeyLBSrcRange s svc with
    | (_, Some err) => (s, Some err)
    | (keys, None) =>
        let val := NewNATValueWithFlags svcID (uint32 count) (uint32 local) affinityTimeo flags in
        let s := foldl (λ s key, set_bpfSvcs (Desired_Set key val (bpfSvcs s)) s) s keys in
        match getSvcNATKey s svc with
        | (_, Some err) => (s, Some err)
        | (key, None) =>
            let val := NewNATValue svcID BlackHoleCount 0 0 in
            (set_bpfSvcs (Desired_Set key val (bpfSvcs s)) s, None)
        end
    end.

(** The locals of the two loops of [updateService]. *)
Record updateLoop : Type := mkUpdateLoop {
  ul_s : Syncer;
  ul_cnt : Z;
  ul_local : Z;
  ul_cpEps : list Endpoint
}.

(** First loop: the local endpoints. *)
Definition updateLocalStep (id : Z) (u : updateLoop) (ep : Endpoint) : updateLoop :=
  if negb (ep_IsLocal ep) then u
  else if ep_IsReady ep then
    mkUpdateLoop (writeSvcBackend (ul_s u) id (uint32 (ul_cnt u)) ep)
      (ul_cnt u + 1) (ul_local u + 1) (ul_cpEps u ++ [ep])
  else mkUpdateLoop (ul_s u) (ul_cnt u) (ul_local u) (ul_cpEps u ++ [ep]).

(** Second loop: the others. *)
Definition updateRemoteStep (id : Z) (u : updateLoop) (ep : Endpoint) : updateLoop :=
  if ep_IsLocal ep then u
  else if ep_IsReady ep then
    mkUpdateLoop (writeSvcBackend (ul_s u) id (uint32 (ul_cnt u)) ep)
      (ul_cnt u + 1) (ul_local u) (ul_cpEps u ++ [ep])
  else mkUpdateLoop (ul_s u) (ul_cnt u) (ul_local u) (ul_cpEps u ++ [ep]).

(** [updateService] returns [(cnt, local, err)]; the state it leaves is
    returned with them. *)
Definition updateService (s : Syncer) (skey : svcKey) (sinfo : Service) (id : Z) (eps : list Endpoint) : Syncer * (Z * Z * option error) :=
  let s :=
    if bool_decide (sessionAffinityType sinfo = ServiceAffinityClientIP)
    then set_stickyEps (<[id := ∅]> (stickyEps s)) s else s in
  let u := foldl (updateLocalStep id) (mkUpdateLoop s 0 0 []) eps in
  let u := foldl (updateRemoteStep id) u eps in
  let flags := if nodeLocalInternal sinfo then Z.lor 0 NATFlgInternalLocal else 0 in
  match writeSvc (ul_s u) sinfo id (ul_cnt u) (ul_local u) flags with
  | (s, Some err) => (s, (0, 0, Some err))
  | (s, None) =>
      let s :=
        if negb (hasSvcKeyExtra skey svcTypeNodePortRemote)
        then set_newEpsMap (<[sname skey := ul_cpEps u]> (newEpsMap s)) s else s in
      (s, (ul_cnt u, ul_local u, None))
  end.

Definition applySvc (s : Syncer) (skey : svcKey) (sinfo : Service) (eps : list Endpoint) : Syncer * option error :=
  let '(id, s) :=
    match prevSvcMap s !! skey with
    | Some old =>
        if ServicePortEqual (si_svc old) sinfo then (si_id old, s) else newSvcID s
    | None => newSvcID s
    end in
  match updateService s skey sinfo id eps with
  | (s, (_, _, Some err)) => (s, Some err)
  | (s, (count, local, None)) =>
      (set_newSvcMap (<[skey := mkSvcInfo id count local sinfo]> (newSvcMap s)) s, None)
  end.

Definition applyExpandedNP (s : Syncer) (sn : ServicePortName) (sinfo : Service) (eps : list Endpoint) (node : IP) (nport : Z) : Syncer * option error :=
  let skey := getSvcKey sn (getSvcKeyExtra svcTypeNodePortRemote node) in
  let si := withPort nport (withClusterIP node (serviceInfoFromK8sServicePort sinfo)) in
  match applySvc s skey si eps with
  | (s, Some _) => (s, Some ErrNodePortRemote)
  | (s, None) => (s, None)
  end.

(** The locals of the loop of [expandNodePorts]. *)
Record expandLoop : Type := mkExpandLoop {
  el_ipToEp : gmap IP (list Endpoint);
  el_miss : option expandMiss
}.

Definition expandStep (sn : ServicePortName) (sinfo : Service) (nport : Z) (rtLookup : IP → option RouteValue) (l : expandLoop) (ep : Endpoint) : expandLoop :=
  match rtLookup (ep_IP ep) with
  | None =>
      let miss :=
        match el_miss l with
        | None => mkExpandMiss sn sinfo [] nport
        | Some m => m
        end in
      mkExpandLoop (el_ipToEp l)
        (Some (mkExpandMiss (em_sname miss) (em_sinfo miss) (em_eps miss ++ [ep]) (em_nport miss)))
  | Some rt =>
      let flags := rv_Flags rt in
      if negb (Z.land flags FlagWorkload =? 0) && (Z.land flags FlagLocal =? 0) then
        let nodeIP := rv_NextHop rt in
        mkExpandLoop
          (<[nodeIP := default [] (el_ipToEp l !! nodeIP) ++ [ep]]> (el_ipToEp l))
          (el_miss l)
      else l
  end.

Definition expandNodePorts (s : Syncer) (sn : ServicePortName) (sinfo : Service) (eps : list Endpoint) (nport : Z) (rtLookup : IP → option RouteValue) : gmap IP (list Endpoint) * option expandMiss :=
  let l := foldl (expandStep sn sinfo nport rtLookup) (mkExpandLoop ∅ None) eps in
  (el_ipToEp l, el_miss l).

(** [expandAndApplyNodePorts]; a failure of [applyExpandedNP] is logged
    and the loop goes on. *)
Definition expandAndApplyNodePorts (s : Syncer) (sn : ServicePortName) (sinfo : Service) (eps : list Endpoint) (nport : Z) (rtLookup : IP → option RouteValue) : Syncer * option expandMiss :=
  let '(ipToEp, miss) := expandNodePorts s sn sinfo eps nport rtLookup in
  (foldl (λ s nodeEps, (applyExpandedNP s sn sinfo nodeEps.2 nodeEps.1 nport).1)
     s (map_to_list ipToEp),
   miss).

Definition derivedFlags (t : svcType) (sinfo : Service) : Z :=
  match t with
  | svcTypeNodePort | svcTypeLoadBalancer | svcTypeNodePortRemote =>
      let flags := 0 in
      let flags := if nodeLocalExternal sinfo then Z.lor flags NATFlgExternalLocal else flags in
      if nodeLocalInternal sinfo then Z.lor flags NATFlgInternalLocal else flags
  | svcTypeExternalIP => 0
  end.

Definition applyDerived (s : Syncer) (sn : ServicePortName) (t : svcType) (sinfo : Service) : Syncer * option error :=
  match newSvcMap s !! getSvcKey sn None with
  | None => (s, Some ErrNoClusterIP)
  | Some svc =>
      let count := si_count svc in
      let local := si_localCount svc in
      let skey := getSvcKey sn (getSvcKeyExtra t (clusterIP sinfo)) in
      let flags := derivedFlags t sinfo in
      let newInfo := mkSvcInfo (si_id svc) count local sinfo in
      match writeSvc s sinfo (si_id svc) count local flags with
      | (s, Some err) => (s, Some err)
      | (s, None) =>
          let s :=
            if bool_decide (t = svcTypeLoadBalancer) || bool_decide (t = svcTypeExternalIP)
            then (writeLBSrcRangeSvcNATKeys s sinfo (si_id svc) count local flags).1
            else s in
          (set_newSvcMap (<[skey := newInfo]> (newSvcMap s)) s, None)
      end
  end.

(** Injected by the topology-aware-hints code, which is not part of the
    syncer; a parameter of the sync pass. *)
Section sync_pass.
Variable ShouldAppendTopologyAwareEndpoint : string → string → list string → bool.

(** The endpoint filter at the head of the service loop of [apply]. *)
Definition eligibleEps (nodeZone : string) (svc : Service) (eps : list Endpoint) : list Endpoint :=
  filter (λ ep,
      (ep_IsReady ep || ep_IsTerminating ep)
      && ShouldAppendTopologyAwareEndpoint nodeZone (hintsAnnotation svc) (ep_ZoneHints ep) = true)
    eps.

(** Is [npip] the sentinel address of the family of the syncer? *)
Definition isPodNPIP (s : Syncer) (npip : IP) : bool :=
  ((ipFamily s =? 4) && bool_decide (npip = podNPIP))
  || ((ipFamily s =? 6) && bool_decide (npip = podNPIPV6)).

(** The three loops over the derived addresses of one service; a failure
    of [applyDerived] is logged and the loop goes on. *)
Definition applyLBVIPs (s : Syncer) (sn : ServicePortName) (svc : Service) : Syncer :=
  foldl (λ s lbIP,
      if negb (IP_len lbIP =? 0) then
        (applyDerived s sn svcTypeLoadBalancer
           (withClusterIP lbIP (serviceInfoFromK8sServicePort svc))).1
      else s)
    s (loadBalancerVIPs svc).

Definition applyExternalIPs (s : Syncer) (sn : ServicePortName) (svc : Service) : Syncer :=
  foldl (λ s extIP,
      (applyDerived s sn svcTypeExternalIP
         (withClusterIP extIP (serviceInfoFromK8sServicePort svc))).1)
    s (externalIPs svc).

Definition applyNodePortIPs (s : Syncer) (sn : ServicePortName) (svc : Service) (nport : Z) : Syncer :=
  foldl (λ s npip,
      let npInfo := withPort nport (withClusterIP npip (serviceInfoFromK8sServicePort svc)) in
      if nodeLocalInternal svc && isPodNPIP s npip then s
      else (applyDerived s sn svcTypeNodePort npInfo).1)
    s (nodePortIPs s).

(** The locals of the service loop of [apply]: the syncer, the misses
    gathered so far, and the error that ended the loop, if any. *)
Record passLoop : Type := mkPassLoop {
  pl_s : Syncer;
  pl_expNPMisses : list expandMiss;
  pl_err : option error
}.

(** The body of the service loop of [apply]. *)
Definition applyService (state : DPSyncerState) (p : passLoop) (entry : ServicePortName * Service) : passLoop :=
  match pl_err p with
  | Some _ => p
  | None =>
      let '(sn, svc) := entry in
      let s := pl_s p in
      let skey := getSvcKey sn None in
      let eps := eligibleEps (NodeZone state) svc (default [] (EpsMap state !! sn)) in
      match applySvc s skey svc eps with
      | (s, Some err) => mkPassLoop s (pl_expNPMisses p) (Some err)
      | (s, None) =>
          let s := applyLBVIPs s sn svc in
          let s := applyExternalIPs s sn svc in
          let nport := nodePort svc in
          if negb (nport =? 0) then
            let s := applyNodePortIPs s sn svc nport in
            if nodeLocalInternal svc then
              match expandAndApplyNodePorts s sn svc eps nport (rt s) with
              | (s, Some miss) => mkPassLoop s (pl_expNPMisses p ++ [miss]) None
              | (s, None) => mkPassLoop s (pl_expNPMisses p) None
              end
            else mkPassLoop s (pl_expNPMisses p) None
          else mkPassLoop s (pl_expNPMisses p) None
      end
  end.

(** The first part of [apply]: the desired views are emptied and filled
    again from the state. *)
Definition syncPass (s : Syncer) (state : DPSyncerState) : passLoop :=
  let s := set_newSvcMap ∅ s in
  let s := set_newEpsMap ∅ s in
  let s := set_bpfSvcs (Desired_DeleteAll (bpfSvcs s)) s in
  let s := set_bpfEps (Desired_DeleteAll (bpfEps s)) s in
  foldl (applyService state) (mkPassLoop s [] None) (SvcMap state).

End sync_pass.

(** ** The kernel, as the syncer sees it *)

(** The three kernel maps, the clock, and the point at which an iteration
    over the affinity map fails, if it does. *)
Record Kernel : Type := mkKernel {
  k_frontend : KMap FrontendKey FrontendValue;
  k_backend : KMap BackendKey BackendValue;
  k_affinity : list (AffinityKey * AffinityValue);
  k_affinityIterError : option (nat * error);
  k_KTimeNanos : Z
}.

(** One write to the kernel, by map. *)
Inductive kevent : Type :=
| FrontendWrite (w : kwrite FrontendKey FrontendValue)
| BackendWrite (w : kwrite BackendKey BackendValue).

Inductive IteratorAction : Type :=
| IterNone
| IterDelete.

#[global] Instance IteratorAction_eq_dec : EqDecision IteratorAction.
Proof. solve_decision. Defined.

(** Modelled from the spec: [Iter(fn(k,v) → iter-action)] of the kernel map
    surface of section 6, on the affinity map.  The entries are visited in
    turn; one for which [fn] answers [IterDelete] is removed; a failing
    iteration stops after the entries it has visited and gives its error. *)
Definition affinityIter (fn : AffinityKey → AffinityValue → IteratorAction) (k : Kernel) : Kernel * option error :=
  let sweep (l : list (AffinityKey * AffinityValue)) :=
    filter (λ kv, fn kv.1 kv.2 ≠ IterDelete) l in
  match k_affinityIterError k with
  | None =>
      (mkKernel (k_frontend k) (k_backend k) (sweep (k_affinity k)) None
         (k_KTimeNanos k), None)
  | Some (n, e) =>
      (mkKernel (k_frontend k) (k_backend k)
         (sweep (take n (k_affinity k)) ++ drop n (k_affinity k))
         (Some (n, e)) (k_KTimeNanos k), Some e)
  end.

(** The callback of [cleanupSticky]. *)
Definition stickyAction (s : Syncer) (now : Z) (key : AffinityKey) (val : AffinityValue) : IteratorAction :=
  match stickySvcs s !! ak_FrontendAffinityKey key with
  | None => IterDelete
  | Some fend =>
      match stickyEps s !! sf_id fend with
      | None => IterDelete
      | Some backends =>
          if negb (bool_decide (av_Backend val ∈ backends)) then IterDelete
          else if int64 (now - av_Timestamp val) >? sf_timeo fend then IterDelete
          else IterNone
      end
  end.

Definition cleanupSticky (s : Syncer) (k : Kernel) : Kernel * option error :=
  let now := int64 (k_KTimeNanos k) in
  match affinityIter (stickyAction s now) k with
  | (k, Some err) => (k, Some (ErrAffinityIter err))
  | (k, None) => (k, None)
  end.

(** ** [apply]: the sync pass, then the four writes to the kernel *)

Definition runExpandNPFixup (s : Syncer) (misses : list expandMiss) : Syncer :=
  if Nat.eqb (length misses) 0 then s
  else set_expFixupStop (Some misses) s.

Definition StopExpandNPFixup (s : Syncer) : Syncer :=
  match expFixupStop s with
  | Some _ => set_expFixupStop None s
  | None => s
  end.

(** What [apply] and [Apply] leave behind: the syncer, the kernel, the
    writes that reached the kernel in the order they were made, and the
    error returned. *)
Record applied : Type := mkApplied {
  ap_s : Syncer;
  ap_k : Kernel;
  ap_writes : list kevent;
  ap_err : option error
}.

Definition withFrontend (km : KMap FrontendKey FrontendValue) (k : Kernel) : Kernel :=
  mkKernel km (k_backend k) (k_affinity k) (k_affinityIterError k) (k_KTimeNanos k).

Definition withBackend (km : KMap BackendKey BackendValue) (k : Kernel) : Kernel :=
  mkKernel (k_frontend k) km (k_affinity k) (k_affinityIterError k) (k_KTimeNanos k).

(** The four calls at the end of [apply], each with the state it leaves. *)
Definition svcsDeletions (a : applied) : applied :=
  let r := ApplyDeletionsOnly (bpfSvcs (ap_s a)) (k_frontend (ap_k a)) in
  mkApplied (set_bpfSvcs (as_cache r) (ap_s a)) (withFrontend (as_kernel r) (ap_k a))
    (ap_writes a ++ (FrontendWrite <$> as_writes r)) (as_err r).

Definition epsUpdates (a : applied) : applied :=
  let r := ApplyUpdatesOnly (bpfEps (ap_s a)) (k_backend (ap_k a)) in
  mkApplied (set_bpfEps (as_cache r) (ap_s a)) (withBackend (as_kernel r) (ap_k a))
    (ap_writes a ++ (BackendWrite <$> as_writes r)) (as_err r).

Definition svcsUpdates (a : applied) : applied :=
  let r := ApplyUpdatesOnly (bpfSvcs (ap_s a)) (k_frontend (ap_k a)) in
  mkApplied (set_bpfSvcs (as_cache r) (ap_s a)) (withFrontend (as_kernel r) (ap_k a))
    (ap_writes a ++ (FrontendWrite <$> as_writes r)) (as_err r).

Definition epsDeletions (a : applied) : applied :=
  let r := ApplyDeletionsOnly (bpfEps (ap_s a)) (k_backend (ap_k a)) in
  mkApplied (set_bpfEps (as_cache r) (ap_s a)) (withBackend (as_kernel r) (ap_k a))
    (ap_writes a ++ (BackendWrite <$> as_writes r)) (as_err r).

(** Run [f] unless an error has been returned already. *)
Definition andThen (a : applied) (f : applied → applied) : applied :=
  match ap_err a with
  | Some _ => a
  | None => f a
  end.

Section apply.
Variable ShouldAppendTopologyAwareEndpoint : string → string → list string → bool.

Definition apply (s : Syncer) (k : Kernel) (state : DPSyncerState) : applied :=
  let p := syncPass ShouldAppendTopologyAwareEndpoint s state in
  match pl_err p with
  | Some err => mkApplied (pl_s p) k [] (Some err)
  | None =>
      (* Delete any front-ends first so the backends become unreachable. *)
      let a := svcsDeletions (mkApplied (pl_s p) k [] None) in
      (* Update the backend maps. *)
      let a := andThen a epsUpdates in
      (* Update the frontends. *)
      let a := andThen a svcsUpdates in
      (* Remove any unused backends. *)
      let a := andThen a epsDeletions in
      andThen a (λ a,
        mkApplied (runExpandNPFixup (ap_s a) (pl_expNPMisses p)) (ap_k a)
          (ap_writes a) None)
  end.

End apply.

(** ** Cold start: rebuilding the previous maps from the kernel *)

Definition loadOrigs (s : Syncer) (k : Kernel) : Syncer * option error :=
  match LoadCacheFromDataplane (bpfEps s) (k_backend k) with
  | (_, Some err) => (s, Some err)
  | (eps, None) =>
      let s := set_bpfEps eps s in
      match LoadCacheFromDataplane (bpfSvcs s) (k_frontend k) with
      | (_, Some err) => (s, Some err)
      | (svcs, None) => (set_bpfSvcs svcs s, None)
      end
  end.

Record syncRef : Type := mkSyncRef {
  sr_svc : ServicePortName;
  sr_info : Service
}.

(** The body of the loop of [svcMapToIPPortProtoMap]; [None] is the panic
    of [ProtoV1ToIntPanic]. *)
Definition svcRefStep (s : Syncer) (ref : option (gmap FrontendKey syncRef)) (entry : ServicePortName * Service) : option (gmap FrontendKey syncRef) :=
  ref ← ref;
  let '(key, svc) := entry in
  pn ← ProtoV1ToIntPanic (protocol svc);
  let proto := uint8 pn in
  let port := uint16 (port svc) in
  let xref := mkSyncRef key svc in
  let ref := <[newFrontendKey s (clusterIP svc) port proto := xref]> ref in
  let ref :=
    if negb (nodePort svc =? 0) then
      let np := uint16 (nodePort svc) in
      let ref := <[newFrontendKey s (clusterIP svc) np proto := xref]> ref in
      foldl (λ ref npIP, <[newFrontendKey s npIP np proto := xref]> ref) ref (nodePortIPs s)
    else ref in
  Some (foldl (λ ref extIP, <[newFrontendKey s extIP port proto := xref]> ref) ref (externalIPs svc)).

Definition svcMapToIPPortProtoMap (s : Syncer) (svcs : list (ServicePortName * Service)) : option (gmap FrontendKey syncRef) :=
  foldl (svcRefStep s) (Some ∅) svcs.

(** The closure [matchNP] of [matchBpfSvc]. *)
Definition matchNP (s : Syncer) (bpfSvc : FrontendKey) (k8sSvc : ServicePortName) (k8sInfo : Service) : option svcKey :=
  if fk_Port bpfSvc =? uint16 (nodePort k8sInfo) then
    (λ nip, mkSvcKey k8sSvc (getSvcKeyExtra svcTypeNodePort nip))
      <$> List.find (λ nip, bool_decide (fk_Addr bpfSvc = nip)) (nodePortIPs s)
  else None.

(** The closure [matchLBSrcIP] of [matchBpfSvc].  A source range is either
    skipped (its address is not IPv4) or converted to an [ip.V4CIDR] and
    compared with the source CIDR of the key. *)
Definition matchLBSrcIP (bpfSvc : FrontendKey) (k8sInfo : Service) : bool :=
  if bool_decide (fk_SrcCIDR bpfSvc = ZeroCIDR) then true
  else if Nat.eqb (length (loadBalancerSourceRanges k8sInfo)) 0 then false
  else
    existsb (λ srcip,
        if IPNet_isV6 srcip then false
        else bool_decide (CIDRFromIPNet srcip = fk_SrcCIDR bpfSvc))
      (loadBalancerSourceRanges k8sInfo).

Definition matchBpfSvc (s : Syncer) (bpfSvc : FrontendKey) (k8sSvc : ServicePortName) (k8sInfo : Service) : option svcKey :=
  if negb (fk_Port bpfSvc =? uint16 (port k8sInfo)) then
    matchNP s bpfSvc k8sSvc k8sInfo
  else if bool_decide (fk_Addr bpfSvc = clusterIP k8sInfo)
          && bool_decide (fk_SrcCIDR bpfSvc = ZeroCIDR) then
    Some (mkSvcKey k8sSvc None)
  else
    match List.find (λ eip, bool_decide (fk_Addr bpfSvc = eip) && matchLBSrcIP bpfSvc k8sInfo)
            (externalIPs k8sInfo) with
    | Some eip => Some (mkSvcKey k8sSvc (getSvcKeyExtra svcTypeExternalIP eip))
    | None =>
        match List.find (λ lbip, negb (IP_len lbip =? 0)
                              && bool_decide (fk_Addr bpfSvc = lbip)
                              && matchLBSrcIP bpfSvc k8sInfo)
                (loadBalancerVIPs k8sInfo) with
        | Some lbip => Some (mkSvcKey k8sSvc (getSvcKeyExtra svcTypeLoadBalancer lbip))
        | None => matchNP s bpfSvc k8sSvc k8sInfo
        end
    end.

(** [state.SvcMap[name]] *)
Definition lookupSvc (svcs : list (ServicePortName * Service)) (name : ServicePortName) : option Service :=
  snd <$> List.find (λ e, bool_decide (e.1 = name)) svcs.

(** The loop of [startupBuildPrev] that reads the backends [(id, i)],
    [i < count], of a primary frontend; the boolean tells that one of them
    was missing.  [n] counts the iterations that are left. *)
Fixpoint readBackends (n : nat) (i : Z) (id : Z) (sn : ServicePortName) (s : Syncer) : Syncer * bool :=
  match n with
  | O => (s, false)
  | S n' =>
      let epk := NewNATBackendKey id (uint32 i) in
      match cm_dataplane (bpfEps s) !! epk with
      | None => (s, true)
      | Some ep =>
          let s :=
            set_prevEpsMap
              (<[sn := default [] (prevEpsMap s !! sn)
                         ++ [NewEndpointInfo (bv_Addr ep) (bv_Port ep)]]> (prevEpsMap s)) s in
          readBackends n' (i + 1) id sn s
      end
  end.

(** The callback that [startupBuildPrev] runs over the frontends read from
    the kernel; it carries the syncer and the flag [inconsistent].  [None]
    is a panic. *)
Definition buildPrevStep (state : DPSyncerState) (svcRef : gmap FrontendKey syncRef) (acc : option (Syncer * bool)) (kv : FrontendKey * FrontendValue) : option (Syncer * bool) :=
  '(s, inconsistent) ← acc;
  let '(svck, svcv) := kv in
  match svcRef !! svck with
  | None => Some (s, inconsistent)
  | Some xref =>
      match matchBpfSvc s svck (sr_svc xref) (sr_info xref) with
      | None => Some (s, inconsistent)
      | Some svckey =>
          let id := fv_ID svcv in
          let count := fv_Count svcv in
          svc ← lookupSvc (SvcMap state) (sname svckey);
          let s :=
            set_prevSvcMap
              (<[svckey := mkSvcInfo id count (fv_LocalCount svcv) svc]> (prevSvcMap s)) s in
          let s := if id >=? nextSvcID s then set_nextSvcID (uint32 (id + 1)) s else s in
          match extra svckey with
          | Some _ => Some (s, inconsistent)
          | None =>
              let s :=
                if count >? 0 then set_prevEpsMap (<[sname svckey := []]> (prevEpsMap s)) s
                else s in
              let '(s, missing) := readBackends (Z.to_nat count) 0 id (sname svckey) s in
              Some (s, inconsistent || missing)
          end
      end
  end.

Definition startupBuildPrev (s : Syncer) (state : DPSyncerState) : option (Syncer * option error) :=
  svcRef ← svcMapToIPPortProtoMap s (SvcMap state);
  '(s, inconsistent) ←
    foldl (buildPrevStep state svcRef) (Some (s, false))
      (map_to_list (cm_dataplane (bpfSvcs s)));
  Some (s, if inconsistent : bool then Some ErrInconsistent else None).

(** [startupSync]: the error of [startupBuildPrev] is logged, not returned. *)
Definition startupSync (s : Syncer) (k : Kernel) (state : DPSyncerState) : option (Syncer * option error) :=
  match loadOrigs s k with
  | (s, Some err) => Some (s, Some err)
  | (s, None) =>
      '(s, _) ← startupBuildPrev s state;
      Some (s, None)
  end.

(** ** [Apply] *)

Section Apply.
Variable ShouldAppendTopologyAwareEndpoint : string → string → list string → bool.

(** The deferred reset of the sticky maps. *)
Definition dropSticky (a : applied) : applied :=
  mkApplied (set_stickyEps ∅ (set_stickySvcs ∅ (ap_s a))) (ap_k a) (ap_writes a) (ap_err a).

(** [Apply], from the moment the previous maps are in place. *)
Definition applyAndCleanup (s : Syncer) (k : Kernel) (state : DPSyncerState) : applied :=
  let s := set_stickyEps ∅ (set_stickySvcs ∅ s) in
  let a := apply ShouldAppendTopologyAwareEndpoint s k state in
  match ap_err a with
  | Some _ => dropSticky a
  | None =>
      let s := if negb (synced (ap_s a)) then set_synced true (ap_s a) else ap_s a in
      let '(k, err) := cleanupSticky s (ap_k a) in
      dropSticky (mkApplied s k (ap_writes a) err)
  end.

(** The head of [Apply]: on the first call the cold-start reconstruction,
    afterwards the fix-up task is stopped and the new maps become the
    previous ones.  [None] is a panic; an error is that of [startupSync]. *)
Definition enterApply (s : Syncer) (k : Kernel) (state : DPSyncerState) : option (Syncer * option error) :=
  if negb (synced s) then startupSync s k state
  else
    let s := StopExpandNPFixup s in
    Some (set_prevEpsMap (newEpsMap s) (set_prevSvcMap (newSvcMap s) s), None).

(** [Apply]; [None] is a panic. *)
Definition Apply (s : Syncer) (k : Kernel) (state : DPSyncerState) : option applied :=
  r ← enterApply s k state;
  match r with
  | (s, Some err) => Some (mkApplied s k [] (Some (ErrStartupSync err)))
  | (s, None) => Some (applyAndCleanup s k state)
  end.

End Apply.

(** ** The conntrack query surface *)

(** [addActiveEps]; [None] is the panic of [ProtoV1ToIntPanic]. *)
Definition addActiveEps (s : Syncer) (id : Z) (svc : Service) (eps : list Endpoint) : option Syncer :=
  svcKey ← servicePortToIPPortProto svc;
  let s := set_activeSvcsMap (<[svcKey := id]> (activeSvcsMap s)) s in
  if Nat.eqb (length eps) 0 then Some s
  else
    let epsmap : gset ipPort :=
      foldl (λ epsmap ep,
          if ep_IsTerminating ep
             && bool_decide (protocol svc = ProtocolUDP)
             && reapTerminatingUDP svc
          then epsmap
          else {[mkIpPort (ep_IP ep) (ep_Port ep)]} ∪ epsmap)
        ∅ eps in
    Some (set_activeEpsMap (<[id := epsmap]> (activeEpsMap s)) s).

(** The body of the loop of [ConntrackScanStart]. *)
Definition scanStep (acc : option Syncer) (entry : svcKey * svcInfo) : option Syncer :=
  s ← acc;
  let '(skey, sinfo) := entry in
  if si_count sinfo =? 0 then Some s
  else if isSvcKeyDerived skey then addActiveEps s (si_id sinfo) (si_svc sinfo) []
  else addActiveEps s (si_id sinfo) (si_svc sinfo) (default [] (newEpsMap s !! sname skey)).

(** [ConntrackScanStart], ranging over [newSvcMap] in the order [order]. *)
Definition ConntrackScanStartIn (order : list (svcKey * svcInfo)) (s : Syncer) : option Syncer :=
  let s := set_activeEpsMap ∅ (set_activeSvcsMap ∅ s) in
  foldl scanStep (Some s) order.

Definition ConntrackScanStart (s : Syncer) : option Syncer :=
  ConntrackScanStartIn (map_to_list (newSvcMap s)) s.

Definition ConntrackScanEnd (s : Syncer) : Syncer :=
  set_activeEpsMap ∅ (set_activeSvcsMap ∅ s).

Definition conntrackGetSvcID (s : Syncer) (ip : IP) (port proto : Z) : Z * bool :=
  match activeSvcsMap s !! mkIpPortProto (mkIpPort ip port) proto with
  | Some id => (id, true)
  | None =>
      let npIP := if ipFamily s =? 6 then podNPIPV6 else podNPIP in
      match activeSvcsMap s !! mkIpPortProto (mkIpPort npIP port) proto with
      | Some id => (id, true)
      | None => (0, false)
      end
  end.

Definition ConntrackDestIsService (s : Syncer) (ip : IP) (port proto : Z) : bool :=
  (conntrackGetSvcID s ip port proto).2.

Definition ConntrackFrontendHasBackend (s : Syncer) (ip : IP) (port : Z) (backendIP : IP) (backendPort proto : Z) : bool :=
  match conntrackGetSvcID s ip port proto with
  | (_, false) => false
  | (id, true) =>
      match activeEpsMap s !! id with
      | None => false
      | Some backends => bool_decide (mkIpPort backendIP backendPort ∈ backends)
      end
  end.

(** ** The node-port fix-up task *)

(** The locals of the callback handed to [WaitAfter]. *)
Record fixupPass : Type := mkFixupPass {
  fp_missesChanged : bool;
  fp_again : list expandMiss
}.

Definition fixupMissStep (s : Syncer) (lookup : IP → option RouteValue) (f : fixupPass) (m : expandMiss) : fixupPass :=
  match (expandNodePorts s (em_sname m) (em_sinfo m) (em_eps m) (em_nport m) lookup).2 with
  | Some miss =>
      mkFixupPass
        (if negb (bool_decide (em_eps m = em_eps miss)) then true else fp_missesChanged f)
        (fp_again f ++ [miss])
  | None => mkFixupPass true (fp_again f)
  end.

Definition fixupCallbackPass (s : Syncer) (lookup : IP → option RouteValue) (misses : list expandMiss) : fixupPass :=
  foldl (fixupMissStep s lookup) (mkFixupPass false []) misses.

(** What the task hears while it runs: the route table changed (and the
    callback is invoked with a fresh lookup), or its context was cancelled
    through one of the two stop channels. *)
Inductive fixupEvent : Type :=
| RouteChange (lookup : IP → option RouteValue)
| ContextCancelled.

Inductive fixupStatus : Type :=
| FixupWaiting
| FixupExited.

(** The task, with the misses it holds, the number of times it has invoked
    the trigger callback, and whether it has returned. *)
Record fixupTask : Type := mkFixupTask {
  ft_misses : list expandMiss;
  ft_triggered : nat;
  ft_status : fixupStatus
}.

(** Modelled from the spec: [WaitAfter] of the routes surface of section 6,
    which "blocks until the route table next changes or ctx is cancelled,
    then invokes fn with a fresh lookup; loops until fn returns true".  The
    goroutine of [runExpandNPFixup] runs its callback at each change; it
    returns when the callback has left no miss (the callback answers true,
    [WaitAfter] returns and [len(misses) == 0]) or when the context is
    cancelled, and otherwise stays in [WaitAfter]. *)
Fixpoint fixupRun (s : Syncer) (evs : list fixupEvent) (misses : list expandMiss) (triggered : nat) : fixupTask :=
  match evs with
  | [] => mkFixupTask misses triggered FixupWaiting
  | ContextCancelled :: _ => mkFixupTask misses triggered FixupExited
  | RouteChange lookup :: evs =>
      let f := fixupCallbackPass s lookup misses in
      let triggered :=
        if fp_missesChanged f && triggerFn s then S triggered else triggered in
      let misses := fp_again f in
      if Nat.eqb (length misses) 0 then mkFixupTask misses triggered FixupExited
      else fixupRun s evs misses triggered
  end.

(** ** [NewSyncer] *)

(** The state of the first loop of [uniqueIPs]: the map [m], keyed by the
    [String()] form of an address (here the address itself), and the flag
    [unique]. *)
Record uniqueLoop : Type := mkUniqueLoop {
  ul_m : gmap IP IP;
  ul_unique : bool;
}.

Definition uniqueStep (l : uniqueLoop) (ip : IP) : uniqueLoop :=
  match ul_m l !! ip with
  | Some _ => mkUniqueLoop (ul_m l) false
  | None => mkUniqueLoop (<[ip := ip]> (ul_m l)) (ul_unique l)
  end.

(** When an address repeats, the result is read off the map [m], in the
    order of its enumeration. *)
Definition uniqueIPs (ips : list IP) : list IP :=
  let l := foldl uniqueStep (mkUniqueLoop ∅ true) ips in
  if ul_unique l then ips else (map_to_list (ul_m l)).*2.

(** The struct that [NewSyncer] fills in. *)
Definition newSyncerState (family : Z) (nodePortIPs : list IP) (rt : IP → option RouteValue) (excludedCIDRs : option (list CIDR)) : Syncer :=
  mkSyncer family (mkCachingMap ∅ ∅) (mkCachingMap ∅ ∅) 0 (uniqueIPs nodePortIPs) rt
    ∅ ∅ ∅ ∅ ∅ ∅ false None ∅ ∅ false excludedCIDRs.

Definition NewSyncer (family : Z) (nodePortIPs : list IP) (rt : IP → option RouteValue) (excludedCIDRs : option (list CIDR)) : option Syncer :=
  if (family =? 4) || (family =? 6)
  then Some (newSyncerState family nodePortIPs rt excludedCIDRs)
  else None.

Definition SetTriggerFn (s : Syncer) : Syncer :=
  mkSyncer (ipFamily s) (bpfSvcs s) (bpfEps s) (nextSvcID s) (nodePortIPs s) (rt s)
    (newSvcMap s) (newEpsMap s) (prevSvcMap s) (prevEpsMap s) (activeSvcsMap s)
    (activeEpsMap s) (synced s) (expFixupStop s) (stickySvcs s) (stickyEps s)
    true (excludedCIDRs s).

Definition HasSynced (s : Syncer) : bool := synced s.

(** ** Notions of the specification *)

(** Section 4.4.1, in its words: an affinity record is stale when its
    frontend-affinity projection is unknown among the services of this
    pass, or its backend is unknown for that id, or [now] minus its
    timestamp exceeds the affinity timeout of the service. *)
Definition staleAffinity (s : Syncer) (now : Z) (key : AffinityKey) (val : AffinityValue) : Prop :=
  stickySvcs s !! ak_FrontendAffinityKey key = None
  ∨ (∃ fend, stickySvcs s !! ak_FrontendAffinityKey key = Some fend
             ∧ ∀ backends, stickyEps s !! sf_id fend = Some backends →
                           av_Backend val ∉ backends)
  ∨ (∃ fend, stickySvcs s !! ak_FrontendAffinityKey key = Some fend
             ∧ int64 (now - av_Timestamp val) > sf_timeo fend).

(** Section 4.5: the endpoints of a miss that still have no route, the
    miss that is left of it (none when it is resolved), and whether the
    miss is resolved or its endpoint set has changed. *)
Definition unrouted (lookup : IP → option RouteValue) (eps : list Endpoint) : list Endpoint :=
  filter (λ ep, lookup (ep_IP ep) = None) eps.

Definition stillMissing (lookup : IP → option RouteValue) (m : expandMiss) : option expandMiss :=
  match unrouted lookup (em_eps m) with
  | [] => None
  | un => Some (mkExpandMiss (em_sname m) (em_sinfo m) un (em_nport m))
  end.

Definition missResolved (lookup : IP → option RouteValue) (m : expandMiss) : bool :=
  bool_decide (unrouted lookup (em_eps m) = []).

Definition missChanged (lookup : IP → option RouteValue) (m : expandMiss) : bool :=
  bool_decide (unrouted lookup (em_eps m) ≠ em_eps m).

(** Section 4.6: the view of the endpoints of a service.  A terminating
    endpoint of a UDP service that asks for it is left out. *)
Definition reapedUDP (svc : Service) (ep : Endpoint) : bool :=
  ep_IsTerminating ep && bool_decide (protocol svc = ProtocolUDP) && reapTerminatingUDP svc.

Definition ipPortOf (ep : Endpoint) : ipPort := mkIpPort (ep_IP ep) (ep_Port ep).

Definition activeEpsOf (svc : Service) (eps : list Endpoint) : gset ipPort :=
  list_to_set (ipPortOf <$> filter (λ ep, reapedUDP svc ep = false) eps).

(** Does an entry of [newSvcMap] bring endpoints to the active view? *)
Definition bringsEps (s : Syncer) (skey : svcKey) (info : svcInfo) : Prop :=
  si_count info ≠ 0 ∧ isSvcKeyDerived skey = false
  ∧ default [] (newEpsMap s !! sname skey) ≠ [].

(** The sentinel node-port address of a family. *)
Definition sentinelIP (family : Z) : IP :=
  if family =? 6 then podNPIPV6 else podNPIP.

(** ** The sync pass as a sequence of operations

    Every change that the service loop of [apply] makes to the syncer is
    made by a call of [applySvc] (for a primary entry or, through
    [applyExpandedNP], for a remote node port) or by a call of
    [applyDerived]. *)
Inductive passOp : Type :=
| OpSvc (skey : svcKey) (sinfo : Service) (eps : list Endpoint)
| OpDerived (sn : ServicePortName) (t : svcType) (sinfo : Service).

Definition runOp (s : Syncer) (op : passOp) : Syncer :=
  match op with
  | OpSvc skey sinfo eps => (applySvc s skey sinfo eps).1
  | OpDerived sn t sinfo => (applyDerived s sn t sinfo).1
  end.

(** The successive backends of one service, from slot [start] on: what
    the calls of [writeSvcBackend] in a loop of [updateService] do. *)
Fixpoint writeBackends (id start : Z) (eps : list Endpoint) (s : Syncer) : Syncer :=
  match eps with
  | [] => s
  | ep :: eps => writeBackends id (start + 1) eps (writeSvcBackend s id (uint32 start) ep)
  end.

(** The endpoints that [updateService] records: the local ones, then the
    others. *)
Definition localsFirst (eps : list Endpoint) : list Endpoint :=
  filter (λ ep, ep_IsLocal ep = true) eps ++ filter (λ ep, ep_IsLocal ep = false) eps.

Definition localReady (eps : list Endpoint) : list Endpoint :=
  filter (λ ep, ep_IsReady ep = true) (filter (λ ep, ep_IsLocal ep = true) eps).

Definition remoteReady (eps : list Endpoint) : list Endpoint :=
  filter (λ ep, ep_IsReady ep = true) (filter (λ ep, ep_IsLocal ep = false) eps).

Definition backendValueOf (ep : Endpoint) : BackendValue :=
  mkBackendValue (ep_IP ep) (uint16 (ep_Port ep)).

(** The desired backends after [writeBackends]. *)
Fixpoint insertSlots (id start : Z) (eps : list Endpoint) (m : gmap BackendKey BackendValue) : gmap BackendKey BackendValue :=
  match eps with
  | [] => m
  | ep :: eps =>
      insertSlots id (start + 1) eps
        (<[NewNATBackendKey id (uint32 start) := backendValueOf ep]> m)
  end.

(** What the sync pass never touches: the configuration, the previous
    maps, the active views and the dataplane side of the two caches. *)
Definition sameConfig (s s' : Syncer) : Prop :=
  ipFamily s' = ipFamily s
  ∧ nodePortIPs s' = nodePortIPs s
  ∧ rt s' = rt s
  ∧ excludedCIDRs s' = excludedCIDRs s
  ∧ prevSvcMap s' = prevSvcMap s
  ∧ prevEpsMap s' = prevEpsMap s
  ∧ synced s' = synced s
  ∧ expFixupStop s' = expFixupStop s
  ∧ triggerFn s' = triggerFn s
  ∧ activeSvcsMap s' = activeSvcsMap s
  ∧ activeEpsMap s' = activeEpsMap s
  ∧ cm_dataplane (bpfSvcs s') = cm_dataplane (bpfSvcs s)
  ∧ cm_dataplane (bpfEps s') = cm_dataplane (bpfEps s).

(** The flags that [writeSvc] adds for an excluded service. *)
Definition withExclude (s : Syncer) (svc : Service) (flags : Z) : Z :=
  let flags := if inExcludedCIDRs s (clusterIP svc) then Z.lor flags NATFlgExclude else flags in
  if excludeService svc then Z.lor flags NATFlgExclude else flags.

(** One value under each of a list of keys, in order. *)
Definition setFrontends (keys : list FrontendKey) (val : FrontendValue) (m : gmap FrontendKey FrontendValue) : gmap FrontendKey FrontendValue :=
  foldl (λ m key, <[key := val]> m) m keys.

(** The frontend keys of the source ranges of a service that are of the
    family of the syncer. *)
Definition srcRangeKeys (s : Syncer) (svc : Service) (pn : Z) : list FrontendKey :=
  omap (lbSrcRangeKey s (clusterIP svc) (port svc) pn) (loadBalancerSourceRanges svc).

(** Is the entry of a kind that is filtered by source ranges? *)
Definition srcRangeFiltered (t : svcType) : bool :=
  bool_decide (t = svcTypeLoadBalancer) || bool_decide (t = svcTypeExternalIP).

(** Does [applySvc] reuse the id of the previous pass, and the id it
    gives to a service. *)
Definition reusesID (s : Syncer) (skey : svcKey) (sinfo : Service) : bool :=
  match prevSvcMap s !! skey with
  | Some old => ServicePortEqual (si_svc old) sinfo
  | None => false
  end.

Definition svcIDOf (s : Syncer) (skey : svcKey) (sinfo : Service) : Z :=
  match prevSvcMap s !! skey with
  | Some old => if ServicePortEqual (si_svc old) sinfo then si_id old else nextSvcID s
  | None => nextSvcID s
  end.

(** The counter of ids is ahead of every id that the syncer remembers, in
    the previous and in the new map. *)
Definition idsBelow (s : Syncer) : Prop :=
  0 ≤ nextSvcID s
  ∧ map_Forall (λ _ info, si_id info < nextSvcID s) (prevSvcMap s)
  ∧ map_Forall (λ _ info, si_id info < nextSvcID s) (newSvcMap s).

(** The desired frontends after [applyDerived] has written a derived
    entry of type [t] for the service [sinfo], which shares the id and the
    counts of its primary entry: the base frontend with the value of the
    service; and then, for a load-balancer or external address whose
    service has source ranges, that value under the key of each source
    range of the family, and the blackhole value under the base key. *)
Definition derivedFrontends (s : Syncer) (t : svcType) (sinfo : Service) (id count local pn : Z) (m : gmap FrontendKey FrontendValue) : gmap FrontendKey FrontendValue :=
  let flags := derivedFlags t sinfo in
  let base := newFrontendKey s (clusterIP sinfo) (uint16 (port sinfo)) pn in
  let m :=
    <[base := NewNATValueWithFlags id (uint32 count) (uint32 local)
                (affinityTimeoOf sinfo) (withExclude s sinfo flags)]> m in
  if srcRangeFiltered t && negb (Nat.eqb (length (loadBalancerSourceRanges sinfo)) 0) then
    <[base := NewNATValue id BlackHoleCount 0 0]>
      (setFrontends (srcRangeKeys s sinfo pn)
         (NewNATValueWithFlags id (uint32 count) (uint32 local)
            (affinityTimeoOf sinfo) flags) m)
  else m.

Section pass_ops.
Variable ShouldAppendTopologyAwareEndpoint : string → string → list string → bool.

(** The endpoints of service [sn] that the sync pass works with. *)
Definition passEps (state : DPSyncerState) (sn : ServicePortName) (svc : Service) : list Endpoint :=
  eligibleEps ShouldAppendTopologyAwareEndpoint (NodeZone state) svc
    (default [] (EpsMap state !! sn)).

(** The operations that the sync pass of [state] performs: a primary entry
    for a service of the state, with its eligible endpoints; a remote
    node-port entry for such a service whose primary entry is written,
    with some of those endpoints; a derived entry for such a service. *)
Definition passOpOk (state : DPSyncerState) (s : Syncer) (op : passOp) : Prop :=
  match op with
  | OpSvc skey sinfo eps =>
      ∃ svc, (sname skey, svc) ∈ SvcMap state
        ∧ ((extra skey = None ∧ sinfo = svc ∧ eps = passEps state (sname skey) svc)
           ∨ (∃ node, extra skey = getSvcKeyExtra svcTypeNodePortRemote node
                ∧ sinfo = withPort (nodePort svc) (withClusterIP node svc)
                ∧ eps `sublist_of` passEps state (sname skey) svc
                ∧ is_Some (newSvcMap s !! getSvcKey (sname skey) None)))
  | OpDerived sn t sinfo =>
      t ≠ svcTypeNodePortRemote
      ∧ ∃ svc ip, (sn, svc) ∈ SvcMap state
          ∧ (sinfo = withClusterIP ip svc
             ∨ sinfo = withPort (nodePort svc) (withClusterIP ip svc))
  end.

(** The states that the sync pass goes through. *)
Inductive passReach (state : DPSyncerState) (s : Syncer) : Syncer → Prop :=
| passReach_refl : passReach state s s
| passReach_step (s1 : Syncer) (op : passOp) :
    passReach state s s1 → passOpOk state s1 op → passReach state s (runOp s1 op).

End pass_ops.

(** The state from which the sync pass starts: the new maps and the
    desired views are empty. *)
Definition passStart (s : Syncer) : Syncer :=
  let s := set_newSvcMap ∅ s in
  let s := set_newEpsMap ∅ s in
  let s := set_bpfSvcs (Desired_DeleteAll (bpfSvcs s)) s in
  set_bpfEps (Desired_DeleteAll (bpfEps s)) s.

(** ** Frontends and the backends they refer to *)

(** A frontend value refers to the slots [0 .. count) of its id, unless
    its count is the blackhole count. *)
Definition references (fv : FrontendValue) (bk : BackendKey) : Prop :=
  fv_Count fv ≠ BlackHoleCount ∧ bk_ID bk = fv_ID fv ∧ 0 ≤ bk_Ordinal bk < fv_Count fv.

Definition backendsPresent (B : gmap BackendKey BackendValue) (fv : FrontendValue) : Prop :=
  ∀ bk, references fv bk → is_Some (B !! bk).

(** No frontend of [F] refers to a backend that [B] lacks. *)
Definition closedFrontends (F : gmap FrontendKey FrontendValue) (B : gmap BackendKey BackendValue) : Prop :=
  map_Forall (λ _ fv, backendsPresent B fv) F.

(** The slots that an entry of [newSvcMap] counts are desired. *)
Definition slotsDesired (s : Syncer) (info : svcInfo) : Prop :=
  0 ≤ si_count info
  ∧ ∀ k, 0 ≤ k < si_count info →
      is_Some (cm_desired (bpfEps s) !! NewNATBackendKey (si_id info) (uint32 k)).

Definition passClosed (s : Syncer) : Prop :=
  closedFrontends (cm_desired (bpfSvcs s)) (cm_desired (bpfEps s))
  ∧ map_Forall (λ _ info, slotsDesired s info) (newSvcMap s).

(** The counts of the entries and of the frontends. *)
Definition passCounts (s : Syncer) : Prop :=
  map_Forall (λ _ fv, 0 ≤ fv_LocalCount fv ≤ fv_Count fv) (cm_desired (bpfSvcs s))
  ∧ map_Forall (λ _ info, 0 ≤ si_localCount info ≤ si_count info ∧ si_count info < 2 ^ 32)
      (newSvcMap s).

(** What an operation of the pass newly writes: a frontend value, and an
    entry of [newSvcMap]. *)
Definition newFrontendValue (s : Syncer) (op : passOp) (fv : FrontendValue) : Prop :=
  match op with
  | OpSvc skey sinfo eps =>
      fv_ID fv = svcIDOf s skey sinfo
      ∧ fv_LocalCount fv = uint32 (Z.of_nat (length (localReady eps)))
      ∧ fv_Count fv = uint32 (Z.of_nat (length (localReady eps))
                              + Z.of_nat (length (remoteReady eps)))
  | OpDerived sn t sinfo =>
      ∃ prim, newSvcMap s !! getSvcKey sn None = Some prim
        ∧ fv_ID fv = si_id prim
        ∧ ((fv_Count fv = uint32 (si_count prim)
            ∧ fv_LocalCount fv = uint32 (si_localCount prim))
           ∨ (fv_Count fv = BlackHoleCount ∧ fv_LocalCount fv = 0))
  end.

Definition newSvcEntry (s : Syncer) (op : passOp) (skey : svcKey) (info : svcInfo) : Prop :=
  is_Some (ProtoV1ToIntPanic (protocol (si_svc info)))
  ∧ match op with
    | OpSvc sk sinfo eps =>
        skey = sk
        ∧ info = mkSvcInfo (svcIDOf s sk sinfo)
                   (Z.of_nat (length (localReady eps)) + Z.of_nat (length (remoteReady eps)))
                   (Z.of_nat (length (localReady eps))) sinfo
        ∧ newEpsMap (runOp s op) =
            (if hasSvcKeyExtra sk svcTypeNodePortRemote then newEpsMap s
             else <[sname sk := localsFirst eps]> (newEpsMap s))
    | OpDerived sn t sinfo =>
        ∃ prim, newSvcMap s !! getSvcKey sn None = Some prim
          ∧ skey = getSvcKey sn (getSvcKeyExtra t (clusterIP sinfo))
          ∧ info = mkSvcInfo (si_id prim) (si_count prim) (si_localCount prim) sinfo
    end.

(** Every service of the state has fewer than 2^32 endpoints. *)
Definition epsBounded (state : DPSyncerState) : Prop :=
  map_Forall (λ _ eps, Z.of_nat (length eps) < 2 ^ 32) (EpsMap state).

Definition protocolsKnown (s : Syncer) : Prop :=
  map_Forall (λ _ info, is_Some (ProtoV1ToIntPanic (protocol (si_svc info)))) (newSvcMap s).

(** ** The kernel along a sequence of writes *)

Section replay.
Context {K V : Type} `{Countable K}.

Definition applyKWrite (m : gmap K V) (w : kwrite K V) : gmap K V :=
  match w with
  | KUpdate k v => <[k := v]> m
  | KDelete k => delete k m
  end.

Definition replayK (ws : list (kwrite K V)) (m : gmap K V) : gmap K V :=
  foldl applyKWrite m ws.

End replay.

(** The frontend and the backend map of the kernel. *)
Definition kmaps : Type :=
  gmap FrontendKey FrontendValue * gmap BackendKey BackendValue.

Definition kernelMaps (k : Kernel) : kmaps :=
  (km_data (k_frontend k), km_data (k_backend k)).

Definition applyEvent (ks : kmaps) (e : kevent) : kmaps :=
  match e with
  | FrontendWrite w => (applyKWrite ks.1 w, ks.2)
  | BackendWrite w => (ks.1, applyKWrite ks.2 w)
  end.

Definition replay (evs : list kevent) (ks : kmaps) : kmaps :=
  foldl applyEvent ks evs.

(** The phase to which a write belongs: frontend deletion, backend
    update, frontend update, backend deletion. *)
Definition phaseOf (e : kevent) : nat :=
  match e with
  | FrontendWrite (KDelete _) => 1
  | BackendWrite (KUpdate _ _) => 2
  | FrontendWrite (KUpdate _ _) => 3
  | BackendWrite (KDelete _) => 4
  end.

(** A write is safe in a kernel: a frontend that is installed refers to
    backends that are there, and a backend that is removed is referred to
    by no frontend that is there. *)
Definition safeWrite (ks : kmaps) (e : kevent) : Prop :=
  match e with
  | FrontendWrite (KUpdate _ fv) => backendsPresent ks.2 fv
  | BackendWrite (KDelete bk) => ∀ fk fv, ks.1 !! fk = Some fv → ¬ references fv bk
  | _ => True
  end.

(** Each write of a sequence is safe in the kernel that the writes before
    it have left. *)
Fixpoint safeTrace (ks : kmaps) (evs : list kevent) : Prop :=
  match evs with
  | [] => True
  | e :: evs => safeWrite ks e ∧ safeTrace (applyEvent ks e) evs
  end.

(** The answer of the kernel to a write. *)
Definition refusedBy (k : Kernel) (e : kevent) : option error :=
  match e with
  | FrontendWrite w => km_refuse (k_frontend k) w
  | BackendWrite w => km_refuse (k_backend k) w
  end.

(** ** What an operation leaves alone *)

(** The four writes of [apply] touch neither the affinity map nor the
    clock. *)
Definition sameAffinity (k k' : Kernel) : Prop :=
  k_affinity k' = k_affinity k
  ∧ k_affinityIterError k' = k_affinityIterError k
  ∧ k_KTimeNanos k' = k_KTimeNanos k.

(** What a scan leaves alone. *)
Definition sameButActive (s s' : Syncer) : Prop :=
  newSvcMap s' = newSvcMap s ∧ newEpsMap s' = newEpsMap s ∧ ipFamily s' = ipFamily s.

(** ** What the sync pass records

    The endpoints recorded for a service name are the eligible endpoints
    of that service of the state, the local ones first; and an entry that
    is not derived has the protocol and the reap flag of the service of
    the state that bears its name. *)
Definition passRecords (topo : string → string → list string → bool) (state : DPSyncerState) (s : Syncer) : Prop :=
  (∀ sn eps, newEpsMap s !! sn = Some eps →
     ∃ svc, (sn, svc) ∈ SvcMap state ∧ eps = localsFirst (passEps topo state sn svc))
  ∧ (∀ skey info, newSvcMap s !! skey = Some info → isSvcKeyDerived skey = false →
       ∃ svc, (sname skey, svc) ∈ SvcMap state
         ∧ protocol (si_svc info) = protocol svc
         ∧ reapTerminatingUDP (si_svc info) = reapTerminatingUDP svc).

(** Is the endpoint one that the conntrack scan keeps for the service:
    ready or terminating, let through by the topology filter, and not a
    terminating endpoint of a UDP service that reaps them? *)
Definition trackedEp (topo : string → string → list string → bool) (state : DPSyncerState) (svc : Service) (ep : Endpoint) : Prop :=
  ep_IsReady ep || ep_IsTerminating ep = true
  ∧ topo (NodeZone state) (hintsAnnotation svc) (ep_ZoneHints ep) = true
  ∧ reapedUDP svc ep = false.

(** ** Further notions *)

(** A service with other annotations. *)
Definition withAnnotations (exclude reap : bool) (s : Service) : Service :=
  mkService (clusterIP s) (port s) (protocol s) (nodePort s) (sessionAffinityType s)
    (stickyMaxAgeSeconds s) (externalIPs s) (loadBalancerSourceRanges s)
    (loadBalancerVIPs s) (healthCheckNodePort s) (nodeLocalExternal s)
    (nodeLocalInternal s) (hintsAnnotation s) exclude reap.

(** The node to which [expandNodePorts] assigns an endpoint: the next hop
    of its route, when the route is that of a workload that is not local. *)
Definition remoteNode (lookup : IP → option RouteValue) (ep : Endpoint) : option IP :=
  match lookup (ep_IP ep) with
  | Some rt =>
      if negb (Z.land (rv_Flags rt) FlagWorkload =? 0) && (Z.land (rv_Flags rt) FlagLocal =? 0)
      then Some (rv_NextHop rt) else None
  | None => None
  end.

(** A non-empty list, or nothing. *)
Definition nonEmpty {A : Type} (l : list A) : option (list A) :=
  match l with
  | [] => None
  | _ => Some l
  end.

(** Is the protocol one that [ProtoV1ToInt] does not know? *)
Definition unknownProtocol (entry : ServicePortName * Service) : bool :=
  bool_decide (ProtoV1ToIntPanic (protocol entry.2) = None).

(** The frontend keys under which [svcMapToIPPortProtoMap] files a
    service: its cluster address with its port; when it has a node port,
    its cluster address and every node-port address of the syncer with
    the node port; its external addresses with its port. *)
Definition svcRefKeys (s : Syncer) (svc : Service) (pn : Z) : list FrontendKey :=
  let proto := uint8 pn in
  let port := uint16 (port svc) in
  let np := uint16 (nodePort svc) in
  [newFrontendKey s (clusterIP svc) port proto]
  ++ (if negb (nodePort svc =? 0)
      then newFrontendKey s (clusterIP svc) np proto
           :: ((λ npIP, newFrontendKey s npIP np proto) <$> nodePortIPs s)
      else [])
  ++ ((λ extIP, newFrontendKey s extIP port proto) <$> externalIPs svc).

(** What the key that [matchBpfSvc] returns says of the frontend key. *)
Definition matchedAs (s : Syncer) (bpfSvc : FrontendKey) (k8sInfo : Service) (skey : svcKey) : Prop :=
  match extra skey with
  | None =>
      fk_Addr bpfSvc = clusterIP k8sInfo ∧ fk_Port bpfSvc = uint16 (port k8sInfo)
      ∧ fk_SrcCIDR bpfSvc = ZeroCIDR
  | Some (t, ip) =>
      fk_Addr bpfSvc = ip
      ∧ ((t = svcTypeNodePort ∧ ip ∈ nodePortIPs s
          ∧ fk_Port bpfSvc = uint16 (nodePort k8sInfo))
         ∨ (t = svcTypeExternalIP ∧ ip ∈ externalIPs k8sInfo
            ∧ fk_Port bpfSvc = uint16 (port k8sInfo) ∧ matchLBSrcIP bpfSvc k8sInfo = true)
         ∨ (t = svcTypeLoadBalancer ∧ ip ∈ loadBalancerVIPs k8sInfo ∧ ip ≠ IPnil
            ∧ fk_Port bpfSvc = uint16 (port k8sInfo) ∧ matchLBSrcIP bpfSvc k8sInfo = true))
  end.

(** An entry of the previous service map is read from a frontend of the
    kernel that [matchBpfSvc] has classified. *)
Definition recoveredFrom (s : Syncer) (k : Kernel) (state : DPSyncerState) (skey : svcKey) (info : svcInfo) : Prop :=
  ∃ fk fv svc,
    km_data (k_frontend k) !! fk = Some fv
    ∧ (sname skey, svc) ∈ SvcMap state
    ∧ matchedAs s fk svc skey
    ∧ si_id info = fv_ID fv ∧ si_count info = fv_Count fv
    ∧ si_localCount info = fv_LocalCount fv
    ∧ lookupSvc (SvcMap state) (sname skey) = Some (si_svc info).

(** What the reading of the backends at cold start leaves alone. *)
Definition sameButPrevEps (s s' : Syncer) : Prop :=
  prevSvcMap s' = prevSvcMap s ∧ nextSvcID s' = nextSvcID s
  ∧ nodePortIPs s' = nodePortIPs s ∧ ipFamily s' = ipFamily s
  ∧ bpfSvcs s' = bpfSvcs s ∧ bpfEps s' = bpfEps s
  ∧ newSvcMap s' = newSvcMap s ∧ synced s' = synced s.

(** ** The operations of a sync pass, listed

    The calls of [applySvc] and [applyDerived] that the service loop of
    [apply] makes for one service, in their order: the primary entry;
    then, unless that failed, a load-balancer entry for each address that
    is not empty, an external entry for each external address, and, when
    the service has a node port, a node-port entry for each node-port
    address of the syncer (the sentinel apart, when the internal policy is
    local) and then, when the internal policy is local, a remote node-port
    entry for each node that [expandNodePorts] has found. *)
Definition lbOps (sn : ServicePortName) (svc : Service) : list passOp :=
  (λ ip, OpDerived sn svcTypeLoadBalancer (withClusterIP ip svc))
    <$> filter (λ ip, IP_len ip ≠ 0) (loadBalancerVIPs svc).

Definition extOps (sn : ServicePortName) (svc : Service) : list passOp :=
  (λ ip, OpDerived sn svcTypeExternalIP (withClusterIP ip svc)) <$> externalIPs svc.

Definition npOps (s : Syncer) (sn : ServicePortName) (svc : Service) : list passOp :=
  (λ ip, OpDerived sn svcTypeNodePort (withPort (nodePort svc) (withClusterIP ip svc)))
    <$> filter (λ ip, nodeLocalInternal svc && isPodNPIP s ip = false) (nodePortIPs s).

Definition expandOps (s : Syncer) (sn : ServicePortName) (svc : Service) (eps : list Endpoint) : list passOp :=
  (λ ne : IP * list Endpoint,
     OpSvc (getSvcKey sn (getSvcKeyExtra svcTypeNodePortRemote ne.1))
       (withPort (nodePort svc) (withClusterIP ne.1 svc)) ne.2)
    <$> map_to_list (expandNodePorts s sn svc eps (nodePort svc) (rt s)).1.

Definition serviceOps (topo : string → string → list string → bool) (s : Syncer) (state : DPSyncerState) (entry : ServicePortName * Service) : list passOp :=
  let eps := passEps topo state entry.1 entry.2 in
  OpSvc (getSvcKey entry.1 None) entry.2 eps ::
  (if unknownProtocol entry then []
   else
     lbOps entry.1 entry.2 ++ extOps entry.1 entry.2
     ++ (if negb (nodePort entry.2 =? 0)
         then npOps s entry.1 entry.2
              ++ (if nodeLocalInternal entry.2 then expandOps s entry.1 entry.2 eps else [])
         else [])).

(** The operations of the loop over the services [l]; the loop ends with
    the first service whose protocol is unknown. *)
Fixpoint passOps (topo : string → string → list string → bool) (s : Syncer) (state : DPSyncerState) (l : list (ServicePortName * Service)) : list passOp :=
  match l with
  | [] => []
  | entry :: l =>
      serviceOps topo s state entry
      ++ (if unknownProtocol entry then [] else passOps topo s state l)
  end.

(** The name of the service for which an operation is made, and the key
    of the entry it writes. *)
Definition opName (op : passOp) : ServicePortName :=
  match op with
  | OpSvc skey _ _ => sname skey
  | OpDerived sn _ _ => sn
  end.

Definition opKey (op : passOp) : svcKey :=
  match op with
  | OpSvc skey _ _ => skey
  | OpDerived sn t sinfo => getSvcKey sn (getSvcKeyExtra t (clusterIP sinfo))
  end.

(** The keys of the calls of [applySvc] among the operations. *)
Definition svcKeysOf (ops : list passOp) : list svcKey :=
  omap (λ op, match op with
              | OpSvc skey _ _ => Some skey
              | OpDerived _ _ _ => None
              end) ops.

(** Two syncers that a sync pass cannot tell apart but for the previous
    maps, the id counter and the maps for the affinity sweep. *)
Definition samePass (s s' : Syncer) : Prop :=
  ipFamily s' = ipFamily s ∧ nodePortIPs s' = nodePortIPs s ∧ rt s' = rt s
  ∧ excludedCIDRs s' = excludedCIDRs s
  ∧ newSvcMap s' = newSvcMap s ∧ newEpsMap s' = newEpsMap s
  ∧ cm_desired (bpfSvcs s') = cm_desired (bpfSvcs s)
  ∧ cm_desired (bpfEps s') = cm_desired (bpfEps s).

(** A derived entry has the id and the counts of the primary entry of
    its name. *)
Definition sharesPrimary (m : gmap svcKey svcInfo) (skey : svcKey) (info : svcInfo) : Prop :=
  ∃ prim, m !! getSvcKey (sname skey) None = Some prim
    ∧ si_id info = si_id prim ∧ si_count info = si_count prim
    ∧ si_localCount info = si_localCount prim.

(** ** Worked inputs

    Concrete services, endpoints and kernel contents on which the syncer is
    run below. *)

Module Ex.

(** No topology-aware filtering. *)
Definition anyZone (_ _ : string) (_ : list string) : bool := true.

(** A kernel table that refuses nothing. *)
Definition table {K V : Type} `{Countable K} `{EqDecision V} (m : gmap K V) : KMap K V :=
  mkKMap m (λ _, None) None.

Definition noRoutes : IP → option RouteValue := λ _, None.

Definition syncer4 : Syncer := newSyncerState 4 [] noRoutes None.

Definition emptyKernel : Kernel := mkKernel (table ∅) (table ∅) [] None 0.

Definition nameA : ServicePortName := mkServicePortName "default" "a" "http".

(** A cluster-IP service, 10.0.0.1:80/TCP. *)
Definition svcA : Service :=
  mkService (IPv4 167772161) 80 ProtocolTCP 0 ServiceAffinityNone 0 [] [] [] 0
    false false "" false false.

Definition ep1 : Endpoint := mkEndpoint (IPv4 33554433) 8080 true true false [].
Definition ep2 : Endpoint := mkEndpoint (IPv4 33554434) 8080 false true false [].
Definition ep3 : Endpoint := mkEndpoint (IPv4 33554435) 8080 false true false [].

Definition stateA : DPSyncerState :=
  mkDPSyncerState [(nameA, svcA)] {[nameA := [ep2; ep1; ep3]]} "".

Definition keyA : FrontendKey := mkFrontendKey (IPv4 167772161) 80 6 ZeroCIDR.

(** *** A source range of the IPv6 syncer *)





(** *** A kernel whose backend map lacks a slot *)

(** The frontend of [svcA] with three backends, of which the third is not
    in the backend map. *)
Definition kernelMissingSlot : Kernel :=
  mkKernel
    (table {[keyA := mkFrontendValue 7 3 1 0 0]})
    (table {[mkBackendKey 7 0 := mkBackendValue (IPv4 33554433) 8080;
             mkBackendKey 7 1 := mkBackendValue (IPv4 33554434) 8080]})
    [] None 0.

(** *** Affinity records to sweep *)

(** [svcA] with client-address affinity for three hours, backed by [ep1]. *)
Definition svcSticky : Service :=
  mkService (IPv4 167772161) 80 ProtocolTCP 0 ServiceAffinityClientIP 10800 [] [] [] 0
    false false "" false false.

Definition stateSticky : DPSyncerState :=
  mkDPSyncerState [(nameA, svcSticky)] {[nameA := [ep1]]} "".

Definition affKeyA (client : Z) : AffinityKey :=
  mkAffinityKey (mkFrontEndAffinityKey (IPv4 167772161) 80 6) (IPv4 client).

(** A record of a service that is gone. *)
Definition affKeyGone : AffinityKey :=
  mkAffinityKey (mkFrontEndAffinityKey (IPv4 167772162) 80 6) (IPv4 3232235777).

Definition freshRecord : AffinityKey * AffinityValue :=
  (affKeyA 3232235777, mkAffinityValue 20000000000000 (mkBackendValue (IPv4 33554433) 8080)).

Definition expiredRecord : AffinityKey * AffinityValue :=
  (affKeyA 3232235778, mkAffinityValue 1000000000000 (mkBackendValue (IPv4 33554433) 8080)).

Definition otherBackendRecord : AffinityKey * AffinityValue :=
  (affKeyA 3232235779, mkAffinityValue 20000000000000 (mkBackendValue (IPv4 33554434) 8080)).

Definition goneRecord : AffinityKey * AffinityValue :=
  (affKeyGone, mkAffinityValue 20000000000000 (mkBackendValue (IPv4 33554433) 8080)).

(** The clock reads 20,000 s; three hours are 10,800 s. *)
Definition kernelAffinity : Kernel :=
  mkKernel (table ∅) (table ∅)
    [goneRecord; freshRecord; expiredRecord; otherBackendRecord] None 20000000000000.

Definition kernelAffinityFailing : Kernel :=
  mkKernel (table ∅) (table ∅)
    [goneRecord; freshRecord; expiredRecord; otherBackendRecord]
    (Some (1%nat, ErrKernel 5)) 20000000000000.

(** *** Misses of the node-port fix-up *)

Definition syncerTriggered : Syncer := SetTriggerFn syncer4.

(** [svcA] with node port 31000 and the local internal policy. *)
Definition svcNodePort : Service :=
  mkService (IPv4 167772161) 80 ProtocolTCP 31000 ServiceAffinityNone 0 [] [] [] 0
    false true "" false false.

(** Two endpoints without a route. *)
Definition missA : expandMiss := mkExpandMiss nameA svcNodePort [ep2; ep3] 31000.

(** A route table in which [ep2] has got a route to a remote workload, and
    [ep3] has none yet. *)
Definition routesHalf : IP → option RouteValue :=
  λ a, if bool_decide (a = ep_IP ep2)
       then Some (mkRouteValue FlagWorkload (IPv4 3232235786)) else None.

(** *** States to scan for conntrack *)

(** [svcA] without any endpoint. *)
Definition stateNoEps : DPSyncerState := mkDPSyncerState [(nameA, svcA)] ∅ "".

(** A terminating endpoint that is not ready. *)
Definition epTerminating : Endpoint := mkEndpoint (IPv4 33554436) 8080 false false true [].

Definition stateTerminating : DPSyncerState :=
  mkDPSyncerState [(nameA, svcA)] {[nameA := [ep1; epTerminating]]} "".

(** The syncer after a first [Apply] of a state on an empty kernel. *)
Definition synced4 (state : DPSyncerState) : Syncer :=
  default syncer4 (ap_s <$> Apply anyZone syncer4 emptyKernel state).

(** *** A load balancer with a source range *)

(** [svcA] with the load-balancer address 203.0.113.7, open to
    198.51.100.0/24. *)
Definition lbVIP : IP := IPv4 3405803783.
Definition lbRange : IPNet := IPNet4 3325256704 24.

Definition svcLB : Service :=
  mkService (IPv4 167772161) 80 ProtocolTCP 0 ServiceAffinityNone 0 [] [lbRange] [lbVIP] 0
    false false "" false false.

Definition stateLB : DPSyncerState :=
  mkDPSyncerState [(nameA, svcLB)] {[nameA := [ep2; ep1; ep3]]} "".


Definition keyLB : FrontendKey := mkFrontendKey lbVIP 80 6 ZeroCIDR.
Definition keyLBRange : FrontendKey := mkFrontendKey lbVIP 80 6 (V4CIDR 3325256704 24).




(** *** The counter of service ids *)





End Ex.

(** * Properties *)

(** ** Cold-start classification: the source-range test *)

(** What [matchLBSrcIP] computes, for any key and service: the family of
    the syncer plays no part in it. *)
Lemma matchLBSrcIP_spec (bpfSvc : FrontendKey) (k8sInfo : Service) :
  matchLBSrcIP bpfSvc k8sInfo = true ↔
  fk_SrcCIDR bpfSvc = ZeroCIDR
  ∨ ∃ srcip, srcip ∈ loadBalancerSourceRanges k8sInfo
             ∧ IPNet_isV6 srcip = false
             ∧ CIDRFromIPNet srcip = fk_SrcCIDR bpfSvc.
Proof.
  unfold matchLBSrcIP. case_bool_decide as Hz; [naive_solver|].
  destruct (Nat.eqb (length (loadBalancerSourceRanges k8sInfo)) 0) eqn:Hlen.
  - apply Nat.eqb_eq, nil_length_inv in Hlen. rewrite Hlen.
    split; [done|]. intros [?|(x & Hx & _)]; [done|]. by apply elem_of_nil in Hx.
  - split.
    + intros Hex. right. apply existsb_exists in Hex as (x & Hin & Hx).
      exists x. apply list_elem_of_In in Hin.
      destruct (IPNet_isV6 x); [done|]. by apply bool_decide_eq_true in Hx.
    + intros [?|(x & Hin & Hv & Hx)]; [done|]. apply existsb_exists.
      exists x. split; [by apply list_elem_of_In|]. rewrite Hv.
      by apply bool_decide_eq_true.
Qed.

(** On the keys of the IPv4 syncer the test is the one of the
    specification: a zero source CIDR passes, and any other passes exactly
    when it is one of the IPv4 source ranges of the service. *)
Lemma matchLBSrcIP_ipv4 (bpfSvc : FrontendKey) (k8sInfo : Service) :
  matchLBSrcIP bpfSvc k8sInfo =
  bool_decide (fk_SrcCIDR bpfSvc = ZeroCIDR)
  || bool_decide (fk_SrcCIDR bpfSvc ∈
       (CIDRFromIPNet <$> filter (λ r, IPNet_isV6 r = false) (loadBalancerSourceRanges k8sInfo))).
Proof.
  apply eq_true_iff_eq. rewrite matchLBSrcIP_spec, orb_true_iff.
  rewrite !bool_decide_eq_true, list_elem_of_fmap.
  setoid_rewrite list_elem_of_filter. naive_solver.
Qed.

(** A source CIDR of the IPv6 family never passes, whatever the source
    ranges of the service. *)
Lemma matchLBSrcIP_V6CIDR (bpfSvc : FrontendKey) (k8sInfo : Service) (a p : Z) :
  fk_SrcCIDR bpfSvc = V6CIDR a p → matchLBSrcIP bpfSvc k8sInfo = false.
Proof.
  intros Hsrc. apply not_true_is_false. rewrite matchLBSrcIP_spec, Hsrc.
  intros [?|(x & _ & Hv & Hx)]; [done|]. by destruct x.
Qed.


(** ** Cold-start reconstruction on an inconsistent kernel *)

Lemma readBackends_prevSvcMap (n : nat) (i id : Z) (sn : ServicePortName) (s : Syncer) :
  prevSvcMap (readBackends n i id sn s).1 = prevSvcMap s.
Proof.
  revert i s. induction n as [|n IH]; intros i s; simpl; [done|].
  destruct (cm_dataplane (bpfEps s) !! _); [|done]. by rewrite IH.
Qed.

(** When the callback of [startupBuildPrev] has found a slot missing, the
    previous service map holds at least the frontend whose slot it was. *)
Lemma buildPrevStep_inconsistent state svcRef acc kv s inc :
  (∀ s0 inc0, acc = Some (s0, inc0) → inc0 = true → prevSvcMap s0 ≠ ∅) →
  buildPrevStep state svcRef acc kv = Some (s, inc) →
  inc = true → prevSvcMap s ≠ ∅.
Proof.
  intros Hacc Hstep. unfold buildPrevStep in Hstep.
  destruct acc as [[s0 inc0]|]; simpl in Hstep; [|done].
  specialize (Hacc s0 inc0 eq_refl). destruct kv as [svck svcv].
  destruct (svcRef !! svck) as [xref|]; [|naive_solver].
  destruct (matchBpfSvc s0 svck (sr_svc xref) (sr_info xref)) as [svckey|];
    [|naive_solver].
  destruct (lookupSvc (SvcMap state) (sname svckey)) as [svc|]; simpl in Hstep; [|done].
  set (m := <[svckey := _]> (prevSvcMap s0)) in Hstep.
  assert (Hm : m ≠ ∅) by apply insert_non_empty.
  destruct (extra svckey).
  - intros _. simplify_eq. by destruct (fv_ID svcv >=? nextSvcID _).
  - match type of Hstep with
    | context [readBackends ?n ?i ?id ?sn ?s1] =>
        pose proof (readBackends_prevSvcMap n i id sn s1) as Hrb;
        destruct (readBackends n i id sn s1) as [s2 missing]
    end.
    intros _. simplify_eq. simpl in Hrb. rewrite Hrb.
    by destruct (fv_Count svcv >? 0), (fv_ID svcv >=? nextSvcID _).
Qed.

Lemma buildPrev_fold_inconsistent state svcRef l acc s inc :
  (∀ s0 inc0, acc = Some (s0, inc0) → inc0 = true → prevSvcMap s0 ≠ ∅) →
  foldl (buildPrevStep state svcRef) acc l = Some (s, inc) →
  inc = true → prevSvcMap s ≠ ∅.
Proof.
  revert acc. induction l as [|kv l IH]; intros acc Hacc; simpl.
  - intros ->. by apply Hacc.
  - apply IH. intros s1 inc1 Hs1. by eapply buildPrevStep_inconsistent.
Qed.

(** Whenever [startupBuildPrev] reports the kernel inconsistent, it hands
    back a previous service map that is not empty, and [startupSync] keeps
    that very state. *)
Lemma startupSync_inconsistent_keeps_prev (s s1 s2 : Syncer) (k : Kernel) (state : DPSyncerState) :
  loadOrigs s k = (s1, None) →
  startupBuildPrev s1 state = Some (s2, Some ErrInconsistent) →
  startupSync s k state = Some (s2, None) ∧ prevSvcMap s2 ≠ ∅.
Proof.
  intros Hload Hbuild. unfold startupSync. rewrite Hload, Hbuild. split; [done|].
  unfold startupBuildPrev in Hbuild.
  destruct (svcMapToIPPortProtoMap s1 (SvcMap state)) as [svcRef|]; simpl in Hbuild; [|done].
  destruct (foldl _ _ _) as [[s3 inc]|] eqn:Hfold; simpl in Hbuild; [|done].
  destruct inc; simplify_eq.
  eapply buildPrev_fold_inconsistent; [|exact Hfold|done]. by intros ?? [= <- <-].
Qed.

(** C5.  The claim: when a backend slot of a matched primary frontend is
    missing, the previous service map and the previous endpoints map are
    abandoned (empty) and the next Apply rewrites every entry.  On the
    kernel [Ex.kernelMissingSlot], in which slot [(7, 2)] of the frontend of
    service [a] is missing, [startupBuildPrev] reports the inconsistency,
    yet [startupSync] leaves the previous maps filled with what was read;
    the first Apply then reuses id 7 and writes the missing backend only. *)
Theorem startupSync_inconsistent_kernel_keeps_previous_maps :
  (startupBuildPrev (loadOrigs Ex.syncer4 Ex.kernelMissingSlot).1 Ex.stateA
     ≫= λ r, Some r.2) = Some (Some ErrInconsistent)
  ∧ (startupSync Ex.syncer4 Ex.kernelMissingSlot Ex.stateA
       ≫= λ r, Some (prevSvcMap r.1 !! getSvcKey Ex.nameA None,
                     prevEpsMap r.1 !! Ex.nameA, r.2))
    = Some (Some (mkSvcInfo 7 3 1 Ex.svcA),
            Some [NewEndpointInfo (IPv4 33554433) 8080; NewEndpointInfo (IPv4 33554434) 8080],
            None)
  ∧ (Apply Ex.anyZone Ex.syncer4 Ex.kernelMissingSlot Ex.stateA
       ≫= λ a, Some (ap_writes a, ap_err a, newSvcMap (ap_s a) !! getSvcKey Ex.nameA None))
    = Some ([BackendWrite (KUpdate (mkBackendKey 7 2) (mkBackendValue (IPv4 33554435) 8080))],
            None,
            Some (mkSvcInfo 7 3 1 Ex.svcA)).
Proof. repeat split; by vm_compute. Qed.

(** ** The affinity sweep *)

(** The callback of [cleanupSticky] deletes exactly the stale records. *)
Lemma stickyAction_spec (s : Syncer) (now : Z) (key : AffinityKey) (val : AffinityValue) :
  stickyAction s now key val = IterDelete ↔ staleAffinity s now key val.
Proof.
  unfold stickyAction, staleAffinity.
  destruct (stickySvcs s !! ak_FrontendAffinityKey key) as [fend|]; [|naive_solver].
  destruct (stickyEps s !! sf_id fend) as [backends|] eqn:Hb.
  - case_bool_decide as Hin; simpl.
    + destruct (int64 (now - av_Timestamp val) >? sf_timeo fend) eqn:Hgt.
      * apply Z.gtb_gt in Hgt. split; [|done]. intros _. right. right. eauto.
      * split; [done|]. intros [?|[(f & ? & Hf)|(f & ? & Hf)]]; simplify_eq.
        -- exfalso. by eapply Hf.
        -- apply Z.gtb_gt in Hf. congruence.
    + split; [|done]. intros _. right. left. exists fend. split; [done|].
      intros ? ?. by simplify_eq.
  - split; [|done]. intros _. right. left. exists fend. split; [done|].
    intros ? ?. by simplify_eq.
Qed.

Lemma stickyAction_keep (s : Syncer) (now : Z) (key : AffinityKey) (val : AffinityValue) :
  stickyAction s now key val = IterNone ↔ ¬ staleAffinity s now key val.
Proof.
  rewrite <- stickyAction_spec. by destruct (stickyAction s now key val).
Qed.

Lemma andThen_sameAffinity (k : Kernel) (a : applied) (f : applied → applied) :
  sameAffinity k (ap_k a) →
  (∀ a', sameAffinity k (ap_k a') → sameAffinity k (ap_k (f a'))) →
  sameAffinity k (ap_k (andThen a f)).
Proof. intros Ha Hf. unfold andThen. destruct (ap_err a); auto. Qed.

Lemma apply_sameAffinity topo (s : Syncer) (k : Kernel) (state : DPSyncerState) :
  sameAffinity k (ap_k (apply topo s k state)).
Proof.
  unfold apply. destruct (pl_err _); [done|].
  repeat (apply andThen_sameAffinity; [|by intros a' Ha']).
  done.
Qed.

(** The sweep of [cleanupSticky], on a kernel whose iteration succeeds and
    on one whose iteration fails. *)
Lemma cleanupSticky_sweep (s : Syncer) (k : Kernel) :
  let now := int64 (k_KTimeNanos k) in
  let r := cleanupSticky s k in
  match k_affinityIterError k with
  | None =>
      r.2 = None
      ∧ k_affinity r.1 `sublist_of` k_affinity k
      ∧ ∀ kv, kv ∈ k_affinity r.1 ↔ kv ∈ k_affinity k ∧ ¬ staleAffinity s now kv.1 kv.2
  | Some (n, e) => r.2 = Some (ErrAffinityIter e)
  end.
Proof.
  intros now r. subst r. unfold cleanupSticky, affinityIter.
  destruct (k_affinityIterError k) as [[n e]|]; simpl; [done|].
  split; [done|]. split.
  - apply sublist_filter.
  - intros kv. fold now. rewrite list_elem_of_filter, <- stickyAction_spec. tauto.
Qed.

Lemma staleAffinity_synced (s : Syncer) (now : Z) (key : AffinityKey) (val : AffinityValue) :
  staleAffinity (if negb (synced s) then set_synced true s else s) now key val
  ↔ staleAffinity s now key val.
Proof. by destruct (synced s). Qed.

(** C7.  When [Apply] gets as far as the sweep (the head of [Apply] and the
    sync pass with its four writes gave no error), it returns; if the
    iteration over the affinity map succeeds, the records left are those
    of before in their order, and a record is deleted if and only if it is
    stale with respect to the sticky services and sticky endpoints that
    this pass recorded; if the iteration fails, its error is wrapped and
    returned by [Apply]. *)
Theorem Apply_affinity_sweep topo (s sIn : Syncer) (k : Kernel) (state : DPSyncerState) :
  enterApply s k state = Some (sIn, None) →
  let pass := apply topo (set_stickyEps ∅ (set_stickySvcs ∅ sIn)) k state in
  let now := int64 (k_KTimeNanos k) in
  ap_err pass = None →
  ∃ a, Apply topo s k state = Some a
       ∧ match k_affinityIterError k with
         | None =>
             ap_err a = None
             ∧ k_affinity (ap_k a) `sublist_of` k_affinity k
             ∧ ∀ kv, kv ∈ k_affinity k →
                 (kv ∉ k_affinity (ap_k a) ↔ staleAffinity (ap_s pass) now kv.1 kv.2)
         | Some (n, e) => ap_err a = Some (ErrAffinityIter e)
         end.
Proof.
  intros Henter pass now Hpass. unfold Apply. rewrite Henter. simpl.
  eexists. split; [done|]. unfold applyAndCleanup. fold pass. rewrite Hpass.
  destruct (apply_sameAffinity topo (set_stickyEps ∅ (set_stickySvcs ∅ sIn)) k state)
    as (Haff & Hiter & Hnow). fold pass in Haff, Hiter, Hnow.
  set (s1 := if negb (synced (ap_s pass)) then set_synced true (ap_s pass) else ap_s pass).
  pose proof (cleanupSticky_sweep s1 (ap_k pass)) as Hsweep. simpl in Hsweep.
  rewrite Hiter, Hnow, Haff in Hsweep. fold now in Hsweep.
  destruct (cleanupSticky s1 (ap_k pass)) as [k' err]. simpl in *.
  destruct (k_affinityIterError k) as [[n e]|]; [done|].
  destruct Hsweep as (Herr & Hsub & Hmem). split; [done|]. split; [done|].
  intros kv Hkv. rewrite Hmem. subst s1. rewrite staleAffinity_synced.
  split; [|tauto]. intros Hnot.
  destruct (stickyAction (ap_s pass) now kv.1 kv.2) eqn:Hact.
  - apply stickyAction_keep in Hact. tauto.
  - by apply stickyAction_spec.
Qed.

(** The sweep, on the four records of [Ex.kernelAffinity]. *)
Lemma Apply_affinity_sweep_witness :
  ∃ a, Apply Ex.anyZone Ex.syncer4 Ex.kernelAffinity Ex.stateSticky = Some a
       ∧ ap_err a = None
       ∧ k_affinity (ap_k a) `sublist_of` k_affinity Ex.kernelAffinity
       ∧ ∀ kv, kv ∈ k_affinity Ex.kernelAffinity →
           (kv ∉ k_affinity (ap_k a) ↔
            staleAffinity
              (ap_s (apply Ex.anyZone
                       (set_stickyEps ∅ (set_stickySvcs ∅
                          (loadOrigs Ex.syncer4 Ex.kernelAffinity).1))
                       Ex.kernelAffinity Ex.stateSticky))
              (int64 (k_KTimeNanos Ex.kernelAffinity)) kv.1 kv.2).
Proof.
  apply (Apply_affinity_sweep Ex.anyZone Ex.syncer4
           (loadOrigs Ex.syncer4 Ex.kernelAffinity).1 Ex.kernelAffinity Ex.stateSticky).
  - vm_compute. reflexivity.
  - vm_compute. reflexivity.
Defined.

(** Scenario E: of the four records, only the fresh record of the service
    that still has the backend survives; with an iteration that fails, the
    error comes back wrapped. *)
Example Apply_affinity_scenario :
  (Apply Ex.anyZone Ex.syncer4 Ex.kernelAffinity Ex.stateSticky
     ≫= λ a, Some (ap_err a, k_affinity (ap_k a)))
  = Some (None, [Ex.freshRecord])
  ∧ (Apply Ex.anyZone Ex.syncer4 Ex.kernelAffinityFailing Ex.stateSticky
       ≫= λ a, Some (ap_err a))
    = Some (Some (ErrAffinityIter (ErrKernel 5))).
Proof. split; by vm_compute. Qed.

(** ** The node-port fix-up task *)

Lemma expandStep_miss sn sinfo nport lookup (l : expandLoop) (ep : Endpoint) :
  el_miss (expandStep sn sinfo nport lookup l ep) =
  if decide (lookup (ep_IP ep) = None) then
    let miss := default (mkExpandMiss sn sinfo [] nport) (el_miss l) in
    Some (mkExpandMiss (em_sname miss) (em_sinfo miss) (em_eps miss ++ [ep]) (em_nport miss))
  else el_miss l.
Proof.
  unfold expandStep. destruct (lookup (ep_IP ep)) as [rt|] eqn:Hrt.
  - rewrite decide_False by done.
    by destruct (negb (Z.land (rv_Flags rt) FlagWorkload =? 0)
                 && (Z.land (rv_Flags rt) FlagLocal =? 0)).
  - rewrite decide_True by done. by destruct (el_miss l).
Qed.

(** The miss that the loop of [expandNodePorts] builds: the endpoints
    without a route are appended, in order, to those gathered before. *)
Lemma expandStep_fold_miss sn sinfo nport lookup (eps : list Endpoint) (l : expandLoop) :
  el_miss (foldl (expandStep sn sinfo nport lookup) l eps) =
  match unrouted lookup eps with
  | [] => el_miss l
  | un =>
      let miss := default (mkExpandMiss sn sinfo [] nport) (el_miss l) in
      Some (mkExpandMiss (em_sname miss) (em_sinfo miss) (em_eps miss ++ un) (em_nport miss))
  end.
Proof.
  revert l. induction eps as [|ep eps IH]; intros l; [done|].
  simpl. rewrite IH, expandStep_miss. unfold unrouted. rewrite filter_cons.
  destruct (decide (lookup (ep_IP ep) = None)) as [Hrt|Hrt]; [|done].
  destruct (filter _ eps) as [|e un]; simpl; [done|].
  by rewrite <- app_assoc.
Qed.

Lemma expandNodePorts_miss s sn sinfo eps nport lookup :
  (expandNodePorts s sn sinfo eps nport lookup).2 =
  stillMissing lookup (mkExpandMiss sn sinfo eps nport).
Proof.
  unfold expandNodePorts, stillMissing. simpl. rewrite expandStep_fold_miss.
  by destruct (unrouted lookup eps).
Qed.

Lemma fixupMissStep_spec s lookup (f : fixupPass) (m : expandMiss) :
  fixupMissStep s lookup f m =
  mkFixupPass
    (fp_missesChanged f || missResolved lookup m || missChanged lookup m)
    (fp_again f ++ option_list (stillMissing lookup m)).
Proof.
  unfold fixupMissStep. rewrite expandNodePorts_miss.
  destruct m as [msn msinfo meps mnport]. unfold stillMissing, missResolved, missChanged.
  simpl. destruct (unrouted lookup meps) as [|e un] eqn:Hun; simpl.
  - by rewrite orb_true_r, app_nil_r.
  - rewrite orb_false_r. f_equal.
    repeat case_bool_decide; simplify_eq; simpl; by rewrite ?orb_true_r, ?orb_false_r.
Qed.

(** One pass of the callback over the misses. *)
Lemma fixupCallbackPass_fold s lookup (misses : list expandMiss) (f : fixupPass) :
  foldl (fixupMissStep s lookup) f misses =
  mkFixupPass
    (fp_missesChanged f
     || existsb (λ m, missResolved lookup m || missChanged lookup m) misses)
    (fp_again f ++ omap (stillMissing lookup) misses).
Proof.
  revert f. induction misses as [|m misses IH]; intros f; simpl.
  - destruct f. by rewrite orb_false_r, app_nil_r.
  - rewrite IH, fixupMissStep_spec. simpl. f_equal.
    + by rewrite <- !orb_assoc.
    + rewrite <- app_assoc. by destruct (stillMissing lookup m).
Qed.

Lemma fixupCallbackPass_spec s lookup (misses : list expandMiss) :
  fixupCallbackPass s lookup misses =
  mkFixupPass (existsb (λ m, missResolved lookup m || missChanged lookup m) misses)
    (omap (stillMissing lookup) misses).
Proof. unfold fixupCallbackPass. by rewrite fixupCallbackPass_fold. Qed.

(** No miss is left exactly when every endpoint of every miss has a
    route. *)
Lemma stillMissing_none lookup (misses : list expandMiss) :
  omap (stillMissing lookup) misses = []
  ↔ ∀ m ep, m ∈ misses → ep ∈ em_eps m → is_Some (lookup (ep_IP ep)).
Proof.
  induction misses as [|m misses IH]; simpl.
  - split; [|done]. intros _ m ep Hm. by apply elem_of_nil in Hm.
  - unfold stillMissing at 1. destruct (unrouted lookup (em_eps m)) as [|e un] eqn:Hun.
    + rewrite IH. split.
      * intros Hrest m' ep [->|Hm']%elem_of_cons Hep; [|by eapply Hrest].
        destruct (lookup (ep_IP ep)) eqn:Hl; [done|].
        assert (ep ∈ unrouted lookup (em_eps m)) as Hin
          by (by apply list_elem_of_filter).
        rewrite Hun in Hin. by apply elem_of_nil in Hin.
      * intros Hall m' ep Hm'. apply Hall. by right.
    + split; [done|]. intros Hall.
      assert (e ∈ unrouted lookup (em_eps m)) as [He Hin]%list_elem_of_filter
        by (rewrite Hun; left).
      destruct (Hall m e) as [rt Hrt]; [by left|done|congruence].
Qed.

(** A pass that neither resolves nor changes a miss leaves the misses as
    they were. *)
Lemma stillMissing_unchanged lookup (misses : list expandMiss) :
  existsb (λ m, missResolved lookup m || missChanged lookup m) misses = false →
  omap (stillMissing lookup) misses = misses.
Proof.
  induction misses as [|m misses IH]; [done|]. simpl.
  intros [[Hres Hch]%orb_false_iff Hrest]%orb_false_iff.
  specialize (IH Hrest). unfold omap in IH. rewrite IH. unfold missResolved, missChanged in *.
  apply bool_decide_eq_false in Hres, Hch. apply dec_stable in Hch.
  unfold stillMissing. destruct (unrouted lookup (em_eps m)) eqn:Hun; [done|].
  rewrite Hch. by destruct m.
Qed.

(** C9, as the code has it.  When a change of the route table wakes the
    task: the trigger callback is invoked if and only if a miss was
    resolved or lost endpoints, and a callback is registered; the task
    returns if and only if no miss is left, that is, every endpoint of
    every miss now has a route; otherwise it goes on waiting with the
    misses that are left, whether it has triggered or not. *)
Theorem fixupRun_route_change (s : Syncer) (lookup : IP → option RouteValue) (evs : list fixupEvent) (misses : list expandMiss) (n : nat) :
  let changed := existsb (λ m, missResolved lookup m || missChanged lookup m) misses in
  let again := omap (stillMissing lookup) misses in
  let n' := if changed && triggerFn s then S n else n in
  fixupRun s (RouteChange lookup :: evs) misses n =
    match again with
    | [] => mkFixupTask [] n' FixupExited
    | _ => fixupRun s evs again n'
    end
  ∧ (again = [] ↔ ∀ m ep, m ∈ misses → ep ∈ em_eps m → is_Some (lookup (ep_IP ep)))
  ∧ (changed = false → again = misses ∧ n' = n).
Proof.
  intros changed again n'. split; [|split].
  - simpl. rewrite fixupCallbackPass_spec. simpl. fold changed again n'.
    by destruct again.
  - apply stillMissing_none.
  - intros Hch. split; [by apply stillMissing_unchanged|].
    subst n'. by rewrite Hch.
Qed.

(** A cancelled task returns at once, and a task that hears nothing
    waits. *)
Lemma fixupRun_cancelled (s : Syncer) (evs : list fixupEvent) (misses : list expandMiss) (n : nat) :
  fixupRun s (ContextCancelled :: evs) misses n = mkFixupTask misses n FixupExited
  ∧ fixupRun s [] misses n = mkFixupTask misses n FixupWaiting.
Proof. done. Qed.

(** C9, as the claim has it, fails.  The miss [Ex.missA] holds two
    endpoints; the route table changes and [ep2] gets a route.  The
    endpoint set of the miss has changed and the trigger callback is
    invoked once, but the task does not return: it waits, with the miss
    reduced to [ep3], and a further wake-up finds it still there. *)
Lemma fixupRun_triggers_and_keeps_waiting :
  missChanged Ex.routesHalf Ex.missA = true
  ∧ fixupRun Ex.syncerTriggered [RouteChange Ex.routesHalf] [Ex.missA] 0
    = mkFixupTask [mkExpandMiss Ex.nameA Ex.svcNodePort [Ex.ep3] 31000] 1 FixupWaiting
  ∧ fixupRun Ex.syncerTriggered [RouteChange Ex.routesHalf; RouteChange Ex.routesHalf]
      [Ex.missA] 0
    = mkFixupTask [mkExpandMiss Ex.nameA Ex.svcNodePort [Ex.ep3] 31000] 1 FixupWaiting.
Proof. repeat split; by vm_compute. Qed.

(** ** The conntrack query surface *)

Lemma addActiveEps_set (svc : Service) (eps : list Endpoint) (acc : gset ipPort) :
  foldl (λ epsmap ep,
      if ep_IsTerminating ep && bool_decide (protocol svc = ProtocolUDP)
         && reapTerminatingUDP svc
      then epsmap else {[mkIpPort (ep_IP ep) (ep_Port ep)]} ∪ epsmap) acc eps
  = acc ∪ activeEpsOf svc eps.
Proof.
  revert acc. unfold activeEpsOf.
  induction eps as [|ep eps IH]; intros acc; simpl; [set_solver|].
  rewrite IH, filter_cons. fold (reapedUDP svc ep).
  destruct (reapedUDP svc ep) eqn:Hr.
  - by rewrite decide_False.
  - rewrite decide_True by done. set_solver.
Qed.

(** [addActiveEps], once and for all. *)
Lemma addActiveEps_spec (s : Syncer) (id : Z) (svc : Service) (eps : list Endpoint) :
  addActiveEps s id svc eps =
  key ← servicePortToIPPortProto svc;
  let s1 := set_activeSvcsMap (<[key := id]> (activeSvcsMap s)) s in
  Some (match eps with
        | [] => s1
        | _ => set_activeEpsMap (<[id := activeEpsOf svc eps]> (activeEpsMap s1)) s1
        end).
Proof.
  unfold addActiveEps. destruct (servicePortToIPPortProto svc) as [key|]; [|done]. simpl.
  destruct eps as [|ep eps]; [done|].
  rewrite addActiveEps_set. do 3 f_equal. set_solver.
Qed.

Lemma scanStep_sameButActive (s s' : Syncer) (entry : svcKey * svcInfo) :
  scanStep (Some s) entry = Some s' → sameButActive s s'.
Proof.
  destruct entry as [skey info]. unfold scanStep. simpl.
  destruct (si_count info =? 0); [by intros [= <-]|].
  destruct (isSvcKeyDerived skey); rewrite addActiveEps_spec;
    destruct (servicePortToIPPortProto (si_svc info)); simpl; try done;
    intros [= <-]; by destruct (default [] (newEpsMap s !! sname skey)).
Qed.

Lemma scanStep_None (l : list (svcKey * svcInfo)) : foldl scanStep None l = None.
Proof. by induction l. Qed.

Lemma scan_snoc (l : list (svcKey * svcInfo)) (x : svcKey * svcInfo) (acc : option Syncer) :
  foldl scanStep acc (l ++ [x]) = scanStep (foldl scanStep acc l) x.
Proof. by rewrite foldl_app. Qed.

Lemma scan_sameButActive (l : list (svcKey * svcInfo)) (s s' : Syncer) :
  foldl scanStep (Some s) l = Some s' → sameButActive s s'.
Proof.
  revert s'. induction l as [|x l IH] using rev_ind; intros s'.
  - by intros [= <-].
  - rewrite scan_snoc. destruct (foldl scanStep (Some s) l) as [s1|] eqn:Hl; [|done].
    intros Hx%scanStep_sameButActive. destruct (IH s1 eq_refl) as (?&?&?).
    destruct Hx as (?&?&?). repeat split; congruence.
Qed.

(** The scan does not panic when the services that count have a known
    protocol. *)
Lemma scan_total (l : list (svcKey * svcInfo)) (s : Syncer) :
  (∀ skey info, (skey, info) ∈ l → si_count info ≠ 0 →
     is_Some (ProtoV1ToIntPanic (protocol (si_svc info)))) →
  is_Some (foldl scanStep (Some s) l).
Proof.
  induction l as [|x l IH] using rev_ind; intros Hknown; [done|].
  rewrite scan_snoc. destruct IH as [s1 Hs1].
  { intros skey info Hin Hc. apply (Hknown skey info); [|done].
    apply elem_of_app. by left. }
  rewrite Hs1. destruct x as [skey info]. unfold scanStep. simpl.
  destruct (si_count info =? 0) eqn:Hc; [done|].
  destruct (Hknown skey info) as [pn Hpn]; [set_solver|lia|].
  destruct (isSvcKeyDerived skey); rewrite addActiveEps_spec;
    unfold servicePortToIPPortProto; rewrite Hpn; done.
Qed.

(** One step of the scan. *)
Lemma scanStep_spec (s : Syncer) (skey : svcKey) (info : svcInfo) :
  scanStep (Some s) (skey, info) =
  if si_count info =? 0 then Some s
  else
    key ← servicePortToIPPortProto (si_svc info);
    let s1 := set_activeSvcsMap (<[key := si_id info]> (activeSvcsMap s)) s in
    Some (if decide (bringsEps s skey info)
          then set_activeEpsMap
                 (<[si_id info := activeEpsOf (si_svc info)
                                     (default [] (newEpsMap s !! sname skey))]>
                    (activeEpsMap s1)) s1
          else s1).
Proof.
  unfold scanStep, bringsEps. simpl. destruct (si_count info =? 0) eqn:Hc; [done|].
  apply Z.eqb_neq in Hc.
  destruct (isSvcKeyDerived skey); rewrite addActiveEps_spec;
    destruct (servicePortToIPPortProto (si_svc info)) as [key|]; simpl; try done.
  - by rewrite decide_False by naive_solver.
  - destruct (default [] (newEpsMap s !! sname skey)) as [|ep eps].
    + by rewrite decide_False by naive_solver.
    + by rewrite decide_True by naive_solver.
Qed.

Lemma bringsEps_same (s s' : Syncer) (skey : svcKey) (info : svcInfo) :
  sameButActive s s' → bringsEps s' skey info ↔ bringsEps s skey info.
Proof. intros (_ & Heps & _). unfold bringsEps. by rewrite Heps. Qed.

(** Every entry that counts has its address, port and protocol in the
    active services. *)
Lemma scan_activeSvcs_complete (l : list (svcKey * svcInfo)) (s s' : Syncer) :
  foldl scanStep (Some s) l = Some s' →
  ∀ skey info, (skey, info) ∈ l → si_count info ≠ 0 →
    ∃ key, servicePortToIPPortProto (si_svc info) = Some key
           ∧ is_Some (activeSvcsMap s' !! key).
Proof.
  revert s'. induction l as [|[skey' info'] l IH] using rev_ind; intros s' Hfold skey info Hin Hc.
  { by apply elem_of_nil in Hin. }
  rewrite scan_snoc in Hfold.
  destruct (foldl scanStep (Some s) l) as [s1|] eqn:Hl; [|done].
  rewrite scanStep_spec in Hfold.
  apply elem_of_app in Hin as [Hin|Hin%list_elem_of_singleton].
  - destruct (IH s1 eq_refl skey info Hin Hc) as (key & Hkey & Hsome).
    exists key. split; [done|].
    destruct (si_count info' =? 0); [by simplify_eq|].
    destruct (servicePortToIPPortProto (si_svc info')) as [key'|]; simpl in Hfold; [|done].
    destruct (decide (bringsEps s1 skey' info')); simplify_eq; simpl;
      (destruct (decide (key' = key)) as [->|];
        [by rewrite lookup_insert_eq|by rewrite lookup_insert_ne]).
  - injection Hin as <- <-. rewrite (proj2 (Z.eqb_neq _ _) Hc) in Hfold.
    destruct (servicePortToIPPortProto (si_svc info)) as [key|]; simpl in Hfold; [|done].
    exists key. split; [done|].
    destruct (decide (bringsEps s1 skey info)); simplify_eq; simpl;
      by rewrite lookup_insert_eq.
Qed.

(** Every active service comes from an entry that counts. *)
Lemma scan_activeSvcs_sound (l : list (svcKey * svcInfo)) (s s' : Syncer) :
  foldl scanStep (Some s) l = Some s' →
  ∀ key id, activeSvcsMap s' !! key = Some id →
    activeSvcsMap s !! key = Some id
    ∨ ∃ skey info, (skey, info) ∈ l ∧ si_count info ≠ 0
         ∧ servicePortToIPPortProto (si_svc info) = Some key ∧ si_id info = id.
Proof.
  revert s'. induction l as [|[skey' info'] l IH] using rev_ind; intros s' Hfold key id Hlook.
  { simpl in Hfold. simplify_eq. by left. }
  rewrite scan_snoc in Hfold.
  destruct (foldl scanStep (Some s) l) as [s1|] eqn:Hl; [|done].
  rewrite scanStep_spec in Hfold.
  assert (activeSvcsMap s1 !! key = Some id →
          activeSvcsMap s !! key = Some id
          ∨ ∃ skey info, (skey, info) ∈ l ++ [(skey', info')] ∧ si_count info ≠ 0
               ∧ servicePortToIPPortProto (si_svc info) = Some key ∧ si_id info = id) as Hold.
  { intros H1. destruct (IH s1 eq_refl key id H1) as [?|(sk & inf & Hin & ?)]; [by left|].
    right. exists sk, inf. split; [|done]. apply elem_of_app. by left. }
  destruct (si_count info' =? 0) eqn:Hc; [simplify_eq; by apply Hold|].
  apply Z.eqb_neq in Hc.
  destruct (servicePortToIPPortProto (si_svc info')) as [key'|] eqn:Hkey';
    simpl in Hfold; [|done].
  assert (activeSvcsMap s' = <[key' := si_id info']> (activeSvcsMap s1)) as Hs'.
  { by destruct (decide (bringsEps s1 skey' info')); simplify_eq. }
  rewrite Hs' in Hlook. destruct (decide (key' = key)) as [->|Hne].
  - rewrite lookup_insert_eq in Hlook. simplify_eq. right.
    exists skey', info'. split; [|done]. apply elem_of_app. right. by left.
  - rewrite lookup_insert_ne in Hlook by done. by apply Hold.
Qed.

(** An id that no entry brings endpoints to keeps what it had. *)
Lemma scan_activeEps_other (l : list (svcKey * svcInfo)) (s s' : Syncer) (id : Z) :
  foldl scanStep (Some s) l = Some s' →
  (∀ skey info, (skey, info) ∈ l → bringsEps s skey info → si_id info ≠ id) →
  activeEpsMap s' !! id = activeEpsMap s !! id.
Proof.
  revert s'. induction l as [|[skey' info'] l IH] using rev_ind; intros s' Hfold Hother.
  { simpl in Hfold. by simplify_eq. }
  rewrite scan_snoc in Hfold.
  destruct (foldl scanStep (Some s) l) as [s1|] eqn:Hl; [|done].
  pose proof (scan_sameButActive _ _ _ Hl) as Hsame.
  rewrite <- (IH s1 eq_refl) by (intros ?? Hin; apply Hother, elem_of_app; by left).
  rewrite scanStep_spec in Hfold.
  destruct (si_count info' =? 0); [by simplify_eq|].
  destruct (servicePortToIPPortProto (si_svc info')) as [key'|]; simpl in Hfold; [|done].
  destruct (decide (bringsEps s1 skey' info')) as [Hb|]; simplify_eq; simpl; [|done].
  apply lookup_insert_ne. apply (Hother skey' info').
  - apply elem_of_app. right. by left.
  - by apply (bringsEps_same s s1).
Qed.

(** The endpoints of an entry that alone brings endpoints to its id. *)
Lemma scan_activeEps_own (l : list (svcKey * svcInfo)) (s s' : Syncer) (skey : svcKey) (info : svcInfo) :
  foldl scanStep (Some s) l = Some s' →
  (skey, info) ∈ l → bringsEps s skey info →
  (∀ skey' info', (skey', info') ∈ l → (skey', info') ≠ (skey, info) →
     bringsEps s skey' info' → si_id info' ≠ si_id info) →
  activeEpsMap s' !! si_id info
  = Some (activeEpsOf (si_svc info) (default [] (newEpsMap s !! sname skey))).
Proof.
  revert s'. induction l as [|[skey' info'] l IH] using rev_ind;
    intros s' Hfold Hin Hb Hother.
  { by apply elem_of_nil in Hin. }
  rewrite scan_snoc in Hfold.
  destruct (foldl scanStep (Some s) l) as [s1|] eqn:Hl; [|done].
  pose proof (scan_sameButActive _ _ _ Hl) as Hsame.
  rewrite scanStep_spec in Hfold.
  destruct (decide ((skey', info') = (skey, info))) as [Heq|Hne].
  - injection Heq as -> ->. destruct Hb as (Hc & Hd & He). rewrite (proj2 (Z.eqb_neq _ _) Hc) in Hfold.
    destruct (servicePortToIPPortProto (si_svc info)) as [key|]; simpl in Hfold; [|done].
    assert (bringsEps s1 skey info) as Hb1 by (by apply (bringsEps_same s s1)).
    rewrite decide_True in Hfold by done. simplify_eq. simpl.
    destruct Hsame as (_ & -> & _). by rewrite lookup_insert_eq.
  - apply elem_of_app in Hin as [Hin|Hin%list_elem_of_singleton]; [|congruence].
    rewrite <- (IH s1 eq_refl Hin Hb)
      by (intros ?? Hin'; apply Hother, elem_of_app; by left).
    destruct (si_count info' =? 0); [by simplify_eq|].
    destruct (servicePortToIPPortProto (si_svc info')) as [key'|]; simpl in Hfold; [|done].
    destruct (decide (bringsEps s1 skey' info')) as [Hb'|]; simplify_eq; simpl; [|done].
    apply lookup_insert_ne. apply (Hother skey' info'); [|done|].
    + apply elem_of_app. right. by left.
    + by apply (bringsEps_same s s1).
Qed.

Lemma conntrackGetSvcID_found (s : Syncer) (ip : IP) (port proto : Z) :
  (conntrackGetSvcID s ip port proto).2 =
  bool_decide
    (is_Some (activeSvcsMap s !! mkIpPortProto (mkIpPort ip port) proto)
     ∨ is_Some (activeSvcsMap s !!
                  mkIpPortProto (mkIpPort (sentinelIP (ipFamily s)) port) proto)).
Proof.
  unfold conntrackGetSvcID, sentinelIP.
  set (npIP := if ipFamily s =? 6 then podNPIPV6 else podNPIP).
  destruct (activeSvcsMap s !! mkIpPortProto (mkIpPort ip port) proto) eqn:Hl; [done|].
  by destruct (activeSvcsMap s !! mkIpPortProto (mkIpPort npIP port) proto) eqn:Hl2.
Qed.

Lemma elem_of_order (s : Syncer) (order : list (svcKey * svcInfo)) (skey : svcKey) (info : svcInfo) :
  order ≡ₚ map_to_list (newSvcMap s) →
  (skey, info) ∈ order ↔ newSvcMap s !! skey = Some info.
Proof. intros ->. apply elem_of_map_to_list. Qed.

(** C10, as the code has it.  Whatever the order in which [newSvcMap] is
    ranged over, and provided its services that count have a protocol
    known to [ProtoV1ToInt] (as those that [apply] records have),
    [ConntrackScanStart] returns, and the active services hold an
    (address, port, protocol) entry for every entry of [newSvcMap],
    derived ones included, whose backend count is not zero, and for no
    other; an entry carries the id of one of the services it stands for.
    [ConntrackDestIsService] tests membership in that view, for the
    address given or else for the sentinel node-port address of the
    family, with the same port and protocol. *)
Theorem ConntrackScanStart_activeSvcs (s : Syncer) (order : list (svcKey * svcInfo)) :
  order ≡ₚ map_to_list (newSvcMap s) →
  map_Forall (λ _ info, si_count info ≠ 0 →
                is_Some (ProtoV1ToIntPanic (protocol (si_svc info)))) (newSvcMap s) →
  ∃ s', ConntrackScanStartIn order s = Some s'
    ∧ (∀ skey info, newSvcMap s !! skey = Some info → si_count info ≠ 0 →
         ∃ pn, ProtoV1ToIntPanic (protocol (si_svc info)) = Some pn
           ∧ is_Some (activeSvcsMap s' !!
                mkIpPortProto (mkIpPort (clusterIP (si_svc info)) (port (si_svc info))) pn))
    ∧ (∀ key id, activeSvcsMap s' !! key = Some id →
         ∃ skey info, newSvcMap s !! skey = Some info ∧ si_count info ≠ 0
           ∧ servicePortToIPPortProto (si_svc info) = Some key ∧ si_id info = id)
    ∧ (∀ ip port proto,
         ConntrackDestIsService s' ip port proto =
         bool_decide
           (is_Some (activeSvcsMap s' !! mkIpPortProto (mkIpPort ip port) proto)
            ∨ is_Some (activeSvcsMap s' !!
                         mkIpPortProto (mkIpPort (sentinelIP (ipFamily s)) port) proto))).
Proof.
  intros Hperm Hknown. unfold ConntrackScanStartIn.
  pose proof (λ skey info, elem_of_order s order skey info Hperm) as Hel.
  set (s0 := set_activeEpsMap ∅ (set_activeSvcsMap ∅ s)).
  destruct (scan_total order s0) as [s' Hfold].
  { intros skey info Hin. apply (Hknown skey). by apply Hel. }
  exists s'. split; [done|]. split; [|split].
  - intros skey info Hlook Hc.
    destruct (scan_activeSvcs_complete order s0 s' Hfold skey info) as (key & Hkey & Hsome);
      [by apply Hel|done|].
    unfold servicePortToIPPortProto in Hkey.
    destruct (ProtoV1ToIntPanic (protocol (si_svc info))) as [pn|]; simpl in Hkey; [|done].
    exists pn. by simplify_eq.
  - intros key id Hlook.
    destruct (scan_activeSvcs_sound order s0 s' Hfold key id Hlook)
      as [Hempty|(skey & info & Hin & ?)].
    + unfold s0 in Hempty. simpl in Hempty. by rewrite lookup_empty in Hempty.
    + exists skey, info. split; [|done]. by apply Hel.
  - intros ip port proto. unfold ConntrackDestIsService.
    rewrite conntrackGetSvcID_found.
    by destruct (scan_sameButActive order s0 s' Hfold) as (_ & _ & ->).
Qed.

(** The scan of the state that [Apply] leaves for scenario A. *)
Lemma ConntrackScanStart_activeSvcs_witness :
  ∃ s', ConntrackScanStart (Ex.synced4 Ex.stateA) = Some s'
    ∧ ConntrackDestIsService s' (IPv4 167772161) 80 6 = true.
Proof.
  destruct (ConntrackScanStart_activeSvcs (Ex.synced4 Ex.stateA)
              (map_to_list (newSvcMap (Ex.synced4 Ex.stateA))))
    as (s' & Hs' & Hall & _ & Hdest).
  - reflexivity.
  - apply (bool_decide_unpack _). vm_compute. exact I.
  - exists s'. split; [exact Hs'|].
    destruct (Hall (getSvcKey Ex.nameA None) (mkSvcInfo 0 3 1 Ex.svcA)) as (pn & Hpn & Hsome).
    + vm_compute. reflexivity.
    + discriminate.
    + rewrite Hdest. apply bool_decide_eq_true. left.
      injection Hpn as <-. exact Hsome.
Defined.

(** C10, as the claim has it, fails: a service without endpoints is in
    [newSvcMap] with count zero; the scan skips it, its address is not
    among the active services, and [ConntrackDestIsService] answers
    false for it. *)
Lemma ConntrackScanStart_skips_count_zero :
  (Apply Ex.anyZone Ex.syncer4 Ex.emptyKernel Ex.stateNoEps ≫= λ a,
   ConntrackScanStart (ap_s a) ≫= λ s',
   Some (ap_err a,
         newSvcMap (ap_s a) !! getSvcKey Ex.nameA None,
         activeSvcsMap s' !! mkIpPortProto (mkIpPort (IPv4 167772161) 80) 6,
         ConntrackDestIsService s' (IPv4 167772161) 80 6))
  = Some (None, Some (mkSvcInfo 0 0 0 Ex.svcA), None, false).
Proof. by vm_compute. Qed.

(** ** The sync pass: what each operation writes *)

(** *** Backends *)

Lemma localReady_cons (ep : Endpoint) (eps : list Endpoint) :
  localReady (ep :: eps) =
  if ep_IsLocal ep && ep_IsReady ep then ep :: localReady eps else localReady eps.
Proof.
  unfold localReady. destruct (ep_IsLocal ep) eqn:Hl; simpl.
  - rewrite (filter_cons_True (λ ep, ep_IsLocal ep = true)) by done.
    destruct (ep_IsReady ep) eqn:Hr.
    + by rewrite filter_cons_True.
    + rewrite filter_cons_False; [done|congruence].
  - rewrite (filter_cons_False (λ ep, ep_IsLocal ep = true)); [done|congruence].
Qed.

Lemma remoteReady_cons (ep : Endpoint) (eps : list Endpoint) :
  remoteReady (ep :: eps) =
  if negb (ep_IsLocal ep) && ep_IsReady ep then ep :: remoteReady eps else remoteReady eps.
Proof.
  unfold remoteReady. destruct (ep_IsLocal ep) eqn:Hl; simpl.
  - rewrite (filter_cons_False (λ ep, ep_IsLocal ep = false)); [done|congruence].
  - rewrite (filter_cons_True (λ ep, ep_IsLocal ep = false)) by done.
    destruct (ep_IsReady ep) eqn:Hr.
    + by rewrite filter_cons_True.
    + rewrite filter_cons_False; [done|congruence].
Qed.

Lemma filter_local_cons (b : bool) (ep : Endpoint) (eps : list Endpoint) :
  filter (λ ep, ep_IsLocal ep = b) (ep :: eps) =
  if bool_decide (ep_IsLocal ep = b) then ep :: filter (λ ep, ep_IsLocal ep = b) eps
  else filter (λ ep, ep_IsLocal ep = b) eps.
Proof.
  case_bool_decide; [by rewrite filter_cons_True|by rewrite filter_cons_False].
Qed.

Lemma updateLocalStep_fold (id : Z) (eps : list Endpoint) (u : updateLoop) :
  foldl (updateLocalStep id) u eps =
  mkUpdateLoop (writeBackends id (ul_cnt u) (localReady eps) (ul_s u))
    (ul_cnt u + Z.of_nat (length (localReady eps)))
    (ul_local u + Z.of_nat (length (localReady eps)))
    (ul_cpEps u ++ filter (λ ep, ep_IsLocal ep = true) eps).
Proof.
  revert u. induction eps as [|ep eps IH]; intros u.
  - destruct u. simpl. by rewrite !Z.add_0_r, app_nil_r.
  - cbn [foldl]. rewrite IH, localReady_cons, filter_local_cons.
    unfold updateLocalStep.
    destruct (ep_IsLocal ep), (ep_IsReady ep); simpl; rewrite <- ?app_assoc;
      f_equal; lia.
Qed.

Lemma updateRemoteStep_fold (id : Z) (eps : list Endpoint) (u : updateLoop) :
  foldl (updateRemoteStep id) u eps =
  mkUpdateLoop (writeBackends id (ul_cnt u) (remoteReady eps) (ul_s u))
    (ul_cnt u + Z.of_nat (length (remoteReady eps))) (ul_local u)
    (ul_cpEps u ++ filter (λ ep, ep_IsLocal ep = false) eps).
Proof.
  revert u. induction eps as [|ep eps IH]; intros u.
  - destruct u. simpl. by rewrite !Z.add_0_r, app_nil_r.
  - cbn [foldl]. rewrite IH, remoteReady_cons, filter_local_cons.
    unfold updateRemoteStep.
    destruct (ep_IsLocal ep), (ep_IsReady ep); simpl; rewrite <- ?app_assoc;
      f_equal; lia.
Qed.

(** [updateService], with its two loops summed up. *)
Lemma updateService_spec (s : Syncer) (skey : svcKey) (sinfo : Service) (id : Z) (eps : list Endpoint) :
  let s0 :=
    if bool_decide (sessionAffinityType sinfo = ServiceAffinityClientIP)
    then set_stickyEps (<[id := ∅]> (stickyEps s)) s else s in
  let local := Z.of_nat (length (localReady eps)) in
  let cnt := local + Z.of_nat (length (remoteReady eps)) in
  let s2 := writeBackends id local (remoteReady eps) (writeBackends id 0 (localReady eps) s0) in
  let flags := if nodeLocalInternal sinfo then Z.lor 0 NATFlgInternalLocal else 0 in
  updateService s skey sinfo id eps =
  match writeSvc s2 sinfo id cnt local flags with
  | (s3, Some err) => (s3, (0, 0, Some err))
  | (s3, None) =>
      (if negb (hasSvcKeyExtra skey svcTypeNodePortRemote)
       then set_newEpsMap (<[sname skey := localsFirst eps]> (newEpsMap s3)) s3 else s3,
       (cnt, local, None))
  end.
Proof.
  intros s0 local cnt s2 flags. unfold updateService. fold s0.
  rewrite updateLocalStep_fold, updateRemoteStep_fold. simpl.
  rewrite !Z.add_0_l. fold local cnt s2 flags. done.
Qed.

Lemma sameConfig_refl (s : Syncer) : sameConfig s s.
Proof. by repeat split. Qed.

Lemma sameConfig_trans (s1 s2 s3 : Syncer) :
  sameConfig s1 s2 → sameConfig s2 s3 → sameConfig s1 s3.
Proof. unfold sameConfig. intros H12 H23. intuition congruence. Qed.

(** The fields a call leaves alone, field by field. *)
Ltac same_fields := unfold sameConfig; split_and!; simpl; try done.

Lemma writeSvcBackend_effect (s : Syncer) (id idx : Z) (ep : Endpoint) :
  let s' := writeSvcBackend s id idx ep in
  sameConfig s s'
  ∧ cm_desired (bpfEps s') =
      <[NewNATBackendKey id (uint32 idx) := backendValueOf ep]> (cm_desired (bpfEps s))
  ∧ bpfSvcs s' = bpfSvcs s ∧ newSvcMap s' = newSvcMap s ∧ newEpsMap s' = newEpsMap s
  ∧ nextSvcID s' = nextSvcID s ∧ stickySvcs s' = stickySvcs s
  ∧ (∀ i, is_Some (stickyEps s' !! i) ↔ is_Some (stickyEps s !! i)).
Proof.
  unfold writeSvcBackend. simpl. destruct (stickyEps s !! id) as [vals|] eqn:Hst; same_fields.
  intros i. destruct (decide (i = id)) as [->|].
  - rewrite lookup_insert_eq, Hst. split; by eexists.
  - by rewrite lookup_insert_ne.
Qed.

Lemma writeBackends_effect (id : Z) (eps : list Endpoint) (start : Z) (s : Syncer) :
  let s' := writeBackends id start eps s in
  sameConfig s s'
  ∧ cm_desired (bpfEps s') = insertSlots id start eps (cm_desired (bpfEps s))
  ∧ bpfSvcs s' = bpfSvcs s ∧ newSvcMap s' = newSvcMap s ∧ newEpsMap s' = newEpsMap s
  ∧ nextSvcID s' = nextSvcID s ∧ stickySvcs s' = stickySvcs s
  ∧ (∀ i, is_Some (stickyEps s' !! i) ↔ is_Some (stickyEps s !! i)).
Proof.
  revert start s. induction eps as [|ep eps IH]; intros start s; simpl.
  - by same_fields.
  - destruct (IH (start + 1) (writeSvcBackend s id (uint32 start) ep))
      as (Hc & Hd & Hs & Hn & He & Hx & Hy & Hz).
    destruct (writeSvcBackend_effect s id (uint32 start) ep)
      as (Hc' & Hd' & Hs' & Hn' & He' & Hx' & Hy' & Hz').
    split; [by eapply sameConfig_trans|].
    split. { rewrite Hd, Hd'. unfold uint32. by rewrite Z.mod_mod. }
    split_and!; try congruence. intros i. by rewrite Hz, Hz'.
Qed.

(** *** Frontends *)

Lemma writeSvc_effect (s : Syncer) (svc : Service) (svcID count local flags : Z) :
  let s' := (writeSvc s svc svcID count local flags).1 in
  sameConfig s s'
  ∧ bpfEps s' = bpfEps s ∧ newSvcMap s' = newSvcMap s ∧ newEpsMap s' = newEpsMap s
  ∧ nextSvcID s' = nextSvcID s ∧ stickyEps s' = stickyEps s
  ∧ match (writeSvc s svc svcID count local flags).2 with
    | Some err =>
        ProtoV1ToInt (protocol svc) = (0, Some err) ∧ s' = s
    | None =>
        ∃ pn, ProtoV1ToInt (protocol svc) = (pn, None)
          ∧ cm_desired (bpfSvcs s') =
              <[newFrontendKey s (clusterIP svc) (uint16 (port svc)) pn :=
                  NewNATValueWithFlags svcID (uint32 count) (uint32 local)
                    (affinityTimeoOf svc) (withExclude s svc flags)]>
                (cm_desired (bpfSvcs s))
    end.
Proof.
  unfold writeSvc, getSvcNATKey, withExclude.
  destruct (protocol svc) eqn:Hp; simpl;
    destruct (stickyEps s !! svcID); same_fields; by eexists.
Qed.

Lemma setFrontends_fold (keys : list FrontendKey) (val : FrontendValue) (s : Syncer) :
  let s' := foldl (λ s key, set_bpfSvcs (Desired_Set key val (bpfSvcs s)) s) s keys in
  sameConfig s s'
  ∧ bpfEps s' = bpfEps s ∧ newSvcMap s' = newSvcMap s ∧ newEpsMap s' = newEpsMap s
  ∧ nextSvcID s' = nextSvcID s ∧ stickyEps s' = stickyEps s ∧ stickySvcs s' = stickySvcs s
  ∧ cm_desired (bpfSvcs s') = setFrontends keys val (cm_desired (bpfSvcs s)).
Proof.
  revert s. induction keys as [|key keys IH]; intros s; simpl; [by same_fields|].
  destruct (IH (set_bpfSvcs (Desired_Set key val (bpfSvcs s)) s))
    as (Hc & H1 & H2 & H3 & H4 & H5 & H6 & H7).
  split; [|by split_and!].
  eapply sameConfig_trans; [|exact Hc]. by same_fields.
Qed.

Lemma writeLBSrcRangeSvcNATKeys_effect (s : Syncer) (svc : Service) (svcID count local flags : Z) :
  let s' := (writeLBSrcRangeSvcNATKeys s svc svcID count local flags).1 in
  sameConfig s s'
  ∧ bpfEps s' = bpfEps s ∧ newSvcMap s' = newSvcMap s ∧ newEpsMap s' = newEpsMap s
  ∧ nextSvcID s' = nextSvcID s ∧ stickyEps s' = stickyEps s ∧ stickySvcs s' = stickySvcs s
  ∧ cm_desired (bpfSvcs s') =
      match loadBalancerSourceRanges svc, ProtoV1ToInt (protocol svc) with
      | _ :: _, (pn, None) =>
          <[newFrontendKey s (clusterIP svc) (uint16 (port svc)) pn :=
              NewNATValue svcID BlackHoleCount 0 0]>
            (setFrontends (srcRangeKeys s svc pn)
               (NewNATValueWithFlags svcID (uint32 count) (uint32 local)
                  (affinityTimeoOf svc) flags)
               (cm_desired (bpfSvcs s)))
      | _, _ => cm_desired (bpfSvcs s)
      end.
Proof.
  unfold writeLBSrcRangeSvcNATKeys, getSvcNATKeyLBSrcRange, getSvcNATKey.
  destruct (loadBalancerSourceRanges svc) as [|r rs] eqn:Hr; [by same_fields|].
  cbn [length Nat.eqb]. unfold srcRangeKeys. rewrite Hr.
  destruct (ProtoV1ToInt (protocol svc)) as [pn [err|]] eqn:Hp; [by same_fields|].
  match goal with
  | |- context [foldl ?f s ?keys] =>
      destruct (setFrontends_fold keys
                  (NewNATValueWithFlags svcID (uint32 count) (uint32 local)
                     (affinityTimeoOf svc) flags) s)
        as (Hc & H1 & H2 & H3 & H4 & H5 & H6 & H7);
      set (s1 := foldl f s keys) in *
  end.
  simpl. split; [eapply sameConfig_trans; [exact Hc|]; by same_fields|].
  split_and!; try done.
  rewrite H7. unfold newFrontendKey. by destruct Hc as (-> & _).
Qed.

(** *** [applySvc] and [applyDerived] *)

Lemma applySvc_effect (s : Syncer) (skey : svcKey) (sinfo : Service) (eps : list Endpoint) :
  let s' := (applySvc s skey sinfo eps).1 in
  let id := svcIDOf s skey sinfo in
  let local := Z.of_nat (length (localReady eps)) in
  let cnt := local + Z.of_nat (length (remoteReady eps)) in
  sameConfig s s'
  ∧ nextSvcID s' = (if reusesID s skey sinfo then nextSvcID s else uint32 (nextSvcID s + 1))
  ∧ cm_desired (bpfEps s') =
      insertSlots id local (remoteReady eps)
        (insertSlots id 0 (localReady eps) (cm_desired (bpfEps s)))
  ∧ match (applySvc s skey sinfo eps).2 with
    | Some err =>
        ProtoV1ToInt (protocol sinfo) = (0, Some err)
        ∧ newSvcMap s' = newSvcMap s ∧ newEpsMap s' = newEpsMap s
        ∧ cm_desired (bpfSvcs s') = cm_desired (bpfSvcs s)
    | None =>
        newSvcMap s' = <[skey := mkSvcInfo id cnt local sinfo]> (newSvcMap s)
        ∧ newEpsMap s' =
            (if hasSvcKeyExtra skey svcTypeNodePortRemote then newEpsMap s
             else <[sname skey := localsFirst eps]> (newEpsMap s))
        ∧ ∃ pn flags, ProtoV1ToInt (protocol sinfo) = (pn, None)
            ∧ cm_desired (bpfSvcs s') =
                <[newFrontendKey s (clusterIP sinfo) (uint16 (port sinfo)) pn :=
                    NewNATValueWithFlags id (uint32 cnt) (uint32 local)
                      (affinityTimeoOf sinfo) flags]>
                  (cm_desired (bpfSvcs s))
    end.
Proof.
  intros s' id local cnt. subst s'. unfold applySvc.
  set (r := match prevSvcMap s !! skey with
            | Some old => if ServicePortEqual (si_svc old) sinfo then (si_id old, s) else newSvcID s
            | None => newSvcID s
            end).
  assert (r.1 = id ∧ sameConfig s r.2
          ∧ nextSvcID r.2 = (if reusesID s skey sinfo then nextSvcID s else uint32 (nextSvcID s + 1))
          ∧ bpfEps r.2 = bpfEps s ∧ bpfSvcs r.2 = bpfSvcs s
          ∧ newSvcMap r.2 = newSvcMap s ∧ newEpsMap r.2 = newEpsMap s) as Hr.
  { subst r id. unfold svcIDOf, reusesID, newSvcID.
    destruct (prevSvcMap s !! skey) as [old|]; [destruct (ServicePortEqual _ _)|];
      by same_fields. }
  destruct r as [id' s0]. simpl in Hr. destruct Hr as (-> & Hc0 & Hn0 & He0 & Hs0 & Hm0 & Hp0).
  rewrite updateService_spec. fold local cnt.
  set (s1 := if bool_decide (sessionAffinityType sinfo = ServiceAffinityClientIP)
             then set_stickyEps (<[id := ∅]> (stickyEps s0)) s0 else s0).
  assert (sameConfig s0 s1 ∧ nextSvcID s1 = nextSvcID s0 ∧ bpfEps s1 = bpfEps s0
          ∧ bpfSvcs s1 = bpfSvcs s0 ∧ newSvcMap s1 = newSvcMap s0
          ∧ newEpsMap s1 = newEpsMap s0) as (Hc1 & Hn1 & He1 & Hs1 & Hm1 & Hp1).
  { subst s1. by destruct (bool_decide _); same_fields. }
  destruct (writeBackends_effect id (localReady eps) 0 s1)
    as (Hc2 & Hd2 & Hs2 & Hm2 & Hp2 & Hn2 & _).
  set (s2 := writeBackends id 0 (localReady eps) s1) in *.
  destruct (writeBackends_effect id (remoteReady eps) local s2)
    as (Hc3 & Hd3 & Hs3 & Hm3 & Hp3 & Hn3 & _).
  set (s3 := writeBackends id local (remoteReady eps) s2) in *.
  set (flags := if nodeLocalInternal sinfo then Z.lor 0 NATFlgInternalLocal else 0).
  destruct (writeSvc_effect s3 sinfo id cnt local flags)
    as (Hc4 & He4 & Hm4 & Hp4 & Hn4 & _ & Hw).
  destruct (writeSvc s3 sinfo id cnt local flags) as [s4 [err|]]; simpl in *.
  - destruct Hw as (Hproto & ->).
    split; [by eauto using sameConfig_trans|]. split_and!; congruence.
  - destruct Hw as (pn & Hproto & Hsvcs).
    assert (sameConfig s s4) as Hc by eauto using sameConfig_trans.
    assert (ipFamily s3 = ipFamily s) as Hfam.
    { by destruct (sameConfig_trans _ _ _ Hc0 (sameConfig_trans _ _ _ Hc1
                   (sameConfig_trans _ _ _ Hc2 Hc3))) as (-> & _). }
    assert (∃ pn flags, ProtoV1ToInt (protocol sinfo) = (pn, None)
            ∧ cm_desired (bpfSvcs s4) =
                <[newFrontendKey s (clusterIP sinfo) (uint16 (port sinfo)) pn :=
                    NewNATValueWithFlags id (uint32 cnt) (uint32 local)
                      (affinityTimeoOf sinfo) flags]>
                  (cm_desired (bpfSvcs s))) as Hfront.
    { exists pn, (withExclude s3 sinfo flags). split; [done|].
      rewrite Hsvcs, Hs3, Hs2, Hs1, Hs0. unfold newFrontendKey. by rewrite Hfam. }
    destruct (hasSvcKeyExtra skey svcTypeNodePortRemote); simpl.
    + split; [done|]. split_and!; try done; congruence.
    + split; [eapply sameConfig_trans; [exact Hc|]; by same_fields|].
      split_and!; try done; congruence.
Qed.

Lemma srcRangeKeys_family (s s' : Syncer) (svc : Service) (pn : Z) :
  ipFamily s' = ipFamily s → srcRangeKeys s' svc pn = srcRangeKeys s svc pn.
Proof.
  intros Hfam. unfold srcRangeKeys. f_equal.
  unfold lbSrcRangeKey. by rewrite Hfam.
Qed.

Lemma applyDerived_effect (s : Syncer) (sn : ServicePortName) (t : svcType) (sinfo : Service) :
  let s' := (applyDerived s sn t sinfo).1 in
  sameConfig s s'
  ∧ bpfEps s' = bpfEps s ∧ nextSvcID s' = nextSvcID s ∧ newEpsMap s' = newEpsMap s
  ∧ match newSvcMap s !! getSvcKey sn None, ProtoV1ToInt (protocol sinfo) with
    | Some svc, (pn, None) =>
        (applyDerived s sn t sinfo).2 = None
        ∧ newSvcMap s' =
            <[getSvcKey sn (getSvcKeyExtra t (clusterIP sinfo)) :=
                mkSvcInfo (si_id svc) (si_count svc) (si_localCount svc) sinfo]>
              (newSvcMap s)
        ∧ cm_desired (bpfSvcs s') =
            derivedFrontends s t sinfo (si_id svc) (si_count svc) (si_localCount svc) pn
              (cm_desired (bpfSvcs s))
    | _, _ => is_Some (applyDerived s sn t sinfo).2 ∧ s' = s
    end.
Proof.
  intros s'. subst s'. unfold applyDerived.
  destruct (newSvcMap s !! getSvcKey sn None) as [svc|]; [|by same_fields].
  destruct (writeSvc_effect s sinfo (si_id svc) (si_count svc) (si_localCount svc)
              (derivedFlags t sinfo)) as (Hc1 & He1 & Hm1 & Hp1 & Hn1 & _ & Hw).
  destruct (writeSvc s sinfo (si_id svc) (si_count svc) (si_localCount svc)
              (derivedFlags t sinfo)) as [s1 [err|]]; simpl in *.
  - destruct Hw as (-> & ->). by same_fields.
  - destruct Hw as (pn & Hproto & Hsvcs). rewrite Hproto.
    destruct (writeLBSrcRangeSvcNATKeys_effect s1 sinfo (si_id svc) (si_count svc)
                (si_localCount svc) (derivedFlags t sinfo))
      as (Hc2 & He2 & Hm2 & Hp2 & Hn2 & _ & _ & Hlb).
    assert (ipFamily s1 = ipFamily s) as Hfam by (by destruct Hc1 as (-> & _)).
    unfold derivedFrontends. fold (srcRangeFiltered t).
    destruct (srcRangeFiltered t); simpl.
    + split. { eapply sameConfig_trans; [exact Hc1|].
               eapply sameConfig_trans; [exact Hc2|]. by same_fields. }
      split_and!; try congruence.
      rewrite Hlb, Hproto, Hsvcs. unfold newFrontendKey.
      rewrite (srcRangeKeys_family s s1) by done. rewrite Hfam.
      by destruct (loadBalancerSourceRanges sinfo).
    + split. { eapply sameConfig_trans; [exact Hc1|]. by same_fields. }
      split_and!; congruence.
Qed.

(** ** Derived entries and source ranges *)

Lemma setFrontends_lookup (keys : list FrontendKey) (val : FrontendValue) (m : gmap FrontendKey FrontendValue) (k : FrontendKey) :
  setFrontends keys val m !! k = if decide (k ∈ keys) then Some val else m !! k.
Proof.
  unfold setFrontends. revert m. induction keys as [|key keys IH]; intros m.
  - case_decide as Hin; [by apply elem_of_nil in Hin|done].
  - cbn [foldl]. rewrite IH. destruct (decide (k ∈ keys)) as [Hin|Hnin].
    + rewrite decide_True; [done|by right].
    + destruct (decide (k = key)) as [->|Hne].
      * rewrite lookup_insert_eq. rewrite decide_True; [done|by left].
      * rewrite lookup_insert_ne by done.
        rewrite decide_False; [done|]. by intros [?|?]%elem_of_cons.
Qed.





(** Scenario C: after [Apply], the kernel holds the frontend of the source
    range with the value of the service and the blackhole frontend. *)
Example Apply_source_range_scenario :
  (Apply Ex.anyZone Ex.syncer4 Ex.emptyKernel Ex.stateLB ≫= λ a,
   Some (ap_err a,
         km_data (k_frontend (ap_k a)) !! Ex.keyLBRange,
         km_data (k_frontend (ap_k a)) !! Ex.keyLB,
         km_data (k_frontend (ap_k a)) !! Ex.keyA))
  = Some (None,
          Some (mkFrontendValue 0 3 1 0 0),
          Some (mkFrontendValue 0 BlackHoleCount 0 0 0),
          Some (mkFrontendValue 0 3 1 0 0)).
Proof. by vm_compute. Qed.

(** ** The sync pass goes through [applySvc] and [applyDerived] only *)

Section reach.
Variable topo : string → string → list string → bool.
Variable state : DPSyncerState.

Lemma passReach_trans (s1 s2 s3 : Syncer) :
  passReach topo state s1 s2 → passReach topo state s2 s3 → passReach topo state s1 s3.
Proof.
  intros H12 H23. induction H23 as [|s3 op H23 IH Hok]; [done|].
  by apply passReach_step.
Qed.

Lemma passReach_one (s : Syncer) (op : passOp) :
  passOpOk topo state s op → passReach topo state s (runOp s op).
Proof. intros Hok. apply passReach_step; [apply passReach_refl|done]. Qed.

(** An invariant of the operations is an invariant of the pass. *)
Lemma passReach_invariant (P : Syncer → Prop) (s0 s1 : Syncer) :
  P s0 →
  (∀ s op, passReach topo state s0 s → P s → passOpOk topo state s op → P (runOp s op)) →
  passReach topo state s0 s1 → P s1.
Proof.
  intros H0 Hstep Hreach. induction Hreach as [|s1 op Hreach IH Hok]; [done|].
  by apply Hstep.
Qed.

(** Entries of [newSvcMap] are never removed during the pass. *)
Lemma runOp_newSvcMap_mono (s : Syncer) (op : passOp) (skey : svcKey) :
  is_Some (newSvcMap s !! skey) → is_Some (newSvcMap (runOp s op) !! skey).
Proof.
  intros Hsome. destruct op as [sk sinfo eps|sn t sinfo]; simpl.
  - destruct (applySvc_effect s sk sinfo eps) as (_ & _ & _ & Heff).
    destruct ((applySvc s sk sinfo eps).2).
    + destruct Heff as (_ & -> & _). done.
    + destruct Heff as (-> & _). rewrite lookup_insert_is_Some'. by right.
  - destruct (applyDerived_effect s sn t sinfo) as (_ & _ & _ & _ & Heff).
    destruct (newSvcMap s !! getSvcKey sn None) as [svc|];
      [destruct (ProtoV1ToInt (protocol sinfo)) as [pn [err|]]|].
    + destruct Heff as (_ & ->). done.
    + destruct Heff as (_ & -> & _). rewrite lookup_insert_is_Some'. by right.
    + destruct Heff as (_ & ->). done.
Qed.

Lemma runOp_sameConfig (s : Syncer) (op : passOp) : sameConfig s (runOp s op).
Proof.
  destruct op as [sk sinfo eps|sn t sinfo]; simpl.
  - by destruct (applySvc_effect s sk sinfo eps) as (? & _).
  - by destruct (applyDerived_effect s sn t sinfo) as (? & _).
Qed.

Lemma passReach_sameConfig (s s' : Syncer) :
  passReach topo state s s' → sameConfig s s'.
Proof.
  intros Hreach. induction Hreach as [|s1 op Hreach IH Hok]; [apply sameConfig_refl|].
  eapply sameConfig_trans; [exact IH|apply runOp_sameConfig].
Qed.

Lemma passReach_newSvcMap_mono (s s' : Syncer) (skey : svcKey) :
  passReach topo state s s' →
  is_Some (newSvcMap s !! skey) → is_Some (newSvcMap s' !! skey).
Proof.
  intros Hreach Hsome. induction Hreach as [|s1 op Hreach IH Hok]; [done|].
  by apply runOp_newSvcMap_mono.
Qed.

(** The loops over the derived addresses of a service of the state. *)
Lemma applyLBVIPs_reach (s : Syncer) (sn : ServicePortName) (svc : Service) :
  (sn, svc) ∈ SvcMap state → passReach topo state s (applyLBVIPs s sn svc).
Proof.
  intros Hin. unfold applyLBVIPs. generalize (loadBalancerVIPs svc) as ips.
  intros ips. revert s. induction ips as [|ip ips IH]; intros s; simpl.
  - apply passReach_refl.
  - eapply passReach_trans; [|apply IH].
    destruct (negb (IP_len ip =? 0)); [|apply passReach_refl].
    apply (passReach_one s (OpDerived sn svcTypeLoadBalancer _)). split; [done|].
    exists svc, ip. split; [done|]. by left.
Qed.

Lemma applyExternalIPs_reach (s : Syncer) (sn : ServicePortName) (svc : Service) :
  (sn, svc) ∈ SvcMap state → passReach topo state s (applyExternalIPs s sn svc).
Proof.
  intros Hin. unfold applyExternalIPs. generalize (externalIPs svc) as ips.
  intros ips. revert s. induction ips as [|ip ips IH]; intros s; simpl.
  - apply passReach_refl.
  - eapply passReach_trans; [|apply IH].
    apply (passReach_one s (OpDerived sn svcTypeExternalIP _)). split; [done|].
    exists svc, ip. split; [done|]. by left.
Qed.

Lemma applyNodePortIPs_reach (s : Syncer) (sn : ServicePortName) (svc : Service) :
  (sn, svc) ∈ SvcMap state →
  passReach topo state s (applyNodePortIPs s sn svc (nodePort svc)).
Proof.
  intros Hin. unfold applyNodePortIPs. generalize (nodePortIPs s) as ips.
  intros ips. revert s. induction ips as [|ip ips IH]; intros s; simpl.
  - apply passReach_refl.
  - eapply passReach_trans; [|apply IH].
    destruct (nodeLocalInternal svc && isPodNPIP s ip); [apply passReach_refl|].
    apply (passReach_one s (OpDerived sn svcTypeNodePort _)). split; [done|].
    exists svc, ip. split; [done|]. by right.
Qed.

(** The endpoints gathered for a node by [expandNodePorts] are some of
    the endpoints it was given, in their order. *)
Lemma expandStep_fold_sublist (sn : ServicePortName) (sinfo : Service) (nport : Z)
    (lookup : IP → option RouteValue) (eps : list Endpoint) (node : IP) (neps : list Endpoint) :
  el_ipToEp (foldl (expandStep sn sinfo nport lookup) (mkExpandLoop ∅ None) eps) !! node
    = Some neps →
  neps `sublist_of` eps.
Proof.
  revert node neps. induction eps as [|ep eps IH] using rev_ind; intros node neps.
  - simpl. by rewrite lookup_empty.
  - rewrite foldl_app. simpl.
    set (l := foldl (expandStep sn sinfo nport lookup) (mkExpandLoop ∅ None) eps) in *.
    unfold expandStep. destruct (lookup (ep_IP ep)) as [rt|]; simpl.
    + destruct (negb (Z.land (rv_Flags rt) FlagWorkload =? 0)
                && (Z.land (rv_Flags rt) FlagLocal =? 0)); simpl.
      * destruct (decide (rv_NextHop rt = node)) as [->|Hne].
        -- rewrite lookup_insert_eq. intros [= <-].
           apply sublist_app; [|done].
           destruct (el_ipToEp l !! node) as [old|] eqn:Hold; simpl.
           ++ by eapply IH.
           ++ apply sublist_nil_l.
        -- rewrite lookup_insert_ne by done. intros Hl.
           apply sublist_inserts_r. by eapply IH.
      * intros Hl. apply sublist_inserts_r. by eapply IH.
    + intros Hl. apply sublist_inserts_r. by eapply IH.
Qed.

Lemma applyExpandedNP_runOp (s : Syncer) (sn : ServicePortName) (sinfo : Service)
    (eps : list Endpoint) (node : IP) (nport : Z) :
  (applyExpandedNP s sn sinfo eps node nport).1 =
  runOp s (OpSvc (getSvcKey sn (getSvcKeyExtra svcTypeNodePortRemote node))
             (withPort nport (withClusterIP node sinfo)) eps).
Proof.
  unfold applyExpandedNP, serviceInfoFromK8sServicePort. simpl.
  by destruct (applySvc _ _ _ _) as [s' [err|]].
Qed.

Lemma expandAndApplyNodePorts_reach (s : Syncer) (sn : ServicePortName) (svc : Service)
    (lookup : IP → option RouteValue) :
  (sn, svc) ∈ SvcMap state →
  is_Some (newSvcMap s !! getSvcKey sn None) →
  passReach topo state s
    (expandAndApplyNodePorts s sn svc (passEps topo state sn svc) (nodePort svc) lookup).1.
Proof.
  intros Hin Hprim. unfold expandAndApplyNodePorts, expandNodePorts. simpl.
  set (ipToEp := el_ipToEp _).
  assert (∀ node neps, (node, neps) ∈ map_to_list ipToEp →
            neps `sublist_of` passEps topo state sn svc) as Hsub.
  { intros node neps Hel%elem_of_map_to_list. by eapply expandStep_fold_sublist. }
  revert Hsub. generalize (map_to_list ipToEp) as l. intros l. revert s Hprim.
  induction l as [|[node neps] l IH]; intros s Hprim Hsub; simpl.
  - apply passReach_refl.
  - rewrite applyExpandedNP_runOp.
    assert (passReach topo state s
              (runOp s (OpSvc (getSvcKey sn (getSvcKeyExtra svcTypeNodePortRemote node))
                          (withPort (nodePort svc) (withClusterIP node svc)) neps))) as Hone.
    { apply passReach_one. exists svc. split; [done|]. right. exists node.
      split_and!; try done. apply (Hsub node). by left. }
    eapply passReach_trans; [exact Hone|]. apply IH.
    + by eapply passReach_newSvcMap_mono.
    + intros node' neps' Hel. apply (Hsub node'). by right.
Qed.

(** One turn of the service loop, and the whole loop. *)
Lemma applyService_reach (p : passLoop) (sn : ServicePortName) (svc : Service) :
  (sn, svc) ∈ SvcMap state →
  passReach topo state (pl_s p) (pl_s (applyService topo state p (sn, svc))).
Proof.
  intros Hin. unfold applyService. destruct (pl_err p); [apply passReach_refl|].
  fold (passEps topo state sn svc).
  assert (passReach topo state (pl_s p)
            (applySvc (pl_s p) (getSvcKey sn None) svc (passEps topo state sn svc)).1) as Hprim.
  { apply (passReach_one _ (OpSvc (getSvcKey sn None) svc _)). exists svc.
    split; [done|]. by left. }
  destruct (applySvc_effect (pl_s p) (getSvcKey sn None) svc (passEps topo state sn svc))
    as (_ & _ & _ & Heff).
  destruct (applySvc (pl_s p) (getSvcKey sn None) svc (passEps topo state sn svc))
    as [s1 [err|]]; cbn [fst snd] in *; cbv iota beta; [done|].
  destruct Heff as (Hnew & _).
  assert (is_Some (newSvcMap s1 !! getSvcKey sn None)) as Hsome.
  { rewrite Hnew, lookup_insert_eq. by eexists. }
  assert (passReach topo state (pl_s p) (applyExternalIPs (applyLBVIPs s1 sn svc) sn svc))
    as Hext.
  { eapply passReach_trans; [exact Hprim|].
    eapply passReach_trans; [by apply applyLBVIPs_reach|by apply applyExternalIPs_reach]. }
  set (s2 := applyExternalIPs (applyLBVIPs s1 sn svc) sn svc) in *.
  destruct (negb (nodePort svc =? 0)); cbv iota; [|done].
  assert (passReach topo state (pl_s p) (applyNodePortIPs s2 sn svc (nodePort svc))) as Hnp.
  { eapply passReach_trans; [exact Hext|by apply applyNodePortIPs_reach]. }
  set (s3 := applyNodePortIPs s2 sn svc (nodePort svc)) in *.
  destruct (nodeLocalInternal svc); cbv iota; [|done].
  assert (is_Some (newSvcMap s3 !! getSvcKey sn None)) as Hsome3.
  { eapply passReach_newSvcMap_mono; [|exact Hsome].
    eapply passReach_trans; [|by apply applyNodePortIPs_reach].
    eapply passReach_trans; [by apply applyLBVIPs_reach|by apply applyExternalIPs_reach]. }
  pose proof (expandAndApplyNodePorts_reach s3 sn svc (rt s3) Hin Hsome3) as Hexp.
  destruct (expandAndApplyNodePorts s3 sn svc (passEps topo state sn svc) (nodePort svc) (rt s3))
    as [s4 [miss|]]; cbn [fst snd pl_s] in *; by eapply passReach_trans.
Qed.

Lemma syncPass_fold_reach (l : list (ServicePortName * Service)) (p : passLoop) :
  (∀ e, e ∈ l → e ∈ SvcMap state) →
  passReach topo state (pl_s p) (pl_s (foldl (applyService topo state) p l)).
Proof.
  revert p. induction l as [|[sn svc] l IH]; intros p Hl; simpl.
  - apply passReach_refl.
  - eapply passReach_trans; [apply applyService_reach; apply Hl; by left|].
    apply IH. intros e He. apply Hl. by right.
Qed.

Lemma syncPass_reach (s : Syncer) :
  passReach topo state (passStart s) (pl_s (syncPass topo s state)).
Proof. unfold syncPass. by apply (syncPass_fold_reach _ (mkPassLoop _ [] None)). Qed.

End reach.

(** ** Backend slots: locals first *)

Lemma uint32_small (z : Z) : 0 ≤ z < 2 ^ 32 → uint32 z = z.
Proof. intros Hz. unfold uint32. by apply Z.mod_small. Qed.

Lemma uint32_range (z : Z) : 0 ≤ uint32 z < 2 ^ 32.
Proof. unfold uint32. apply Z.mod_pos_bound. lia. Qed.

Lemma uint32_le (z : Z) : 0 ≤ z → uint32 z ≤ z.
Proof. intros Hz. unfold uint32. apply Z.mod_le; lia. Qed.

Lemma insertSlots_other (id start : Z) (eps : list Endpoint) (m : gmap BackendKey BackendValue) (k : BackendKey) :
  bk_ID k ≠ id → insertSlots id start eps m !! k = m !! k.
Proof.
  intros Hne. revert start m. induction eps as [|ep eps IH]; intros start m; simpl; [done|].
  rewrite IH. apply lookup_insert_ne. intros <-. by apply Hne.
Qed.

Lemma insertSlots_mono (id start : Z) (eps : list Endpoint) (m : gmap BackendKey BackendValue) (k : BackendKey) :
  is_Some (m !! k) → is_Some (insertSlots id start eps m !! k).
Proof.
  revert start m. induction eps as [|ep eps IH]; intros start m Hsome; simpl; [done|].
  apply IH. rewrite lookup_insert_is_Some'. by right.
Qed.

(** Every slot counted is written, wrap-around or not. *)
Lemma insertSlots_covers (id start : Z) (eps : list Endpoint) (m : gmap BackendKey BackendValue) (j : Z) :
  0 ≤ j < Z.of_nat (length eps) →
  is_Some (insertSlots id start eps m !! NewNATBackendKey id (uint32 (start + j))).
Proof.
  revert start m j. induction eps as [|ep eps IH]; intros start m j Hj; simpl in *; [lia|].
  destruct (decide (j = 0)) as [->|Hne].
  - apply insertSlots_mono. rewrite Z.add_0_r, lookup_insert_eq. by eexists.
  - replace (start + j) with (start + 1 + (j - 1)) by lia. apply IH. lia.
Qed.

(** Without wrap-around, slot [start + j] holds the [j]-th endpoint. *)
Lemma insertSlots_lookup (id start : Z) (eps : list Endpoint) (m : gmap BackendKey BackendValue) (i : Z) :
  0 ≤ start → start + Z.of_nat (length eps) ≤ 2 ^ 32 →
  insertSlots id start eps m !! NewNATBackendKey id i =
  if decide (start ≤ i < start + Z.of_nat (length eps))
  then backendValueOf <$> eps !! Z.to_nat (i - start)
  else m !! NewNATBackendKey id i.
Proof.
  revert start m. induction eps as [|ep eps IH]; intros start m Hstart Hlen; simpl in *.
  - rewrite decide_False; [done|lia].
  - rewrite IH by lia. rewrite (uint32_small start) by lia.
    destruct (decide (start + 1 ≤ i < start + 1 + Z.of_nat (length eps))) as [Hin|Hout].
    + rewrite decide_True by lia.
      replace (Z.to_nat (i - start)) with (S (Z.to_nat (i - (start + 1)))) by lia. done.
    + destruct (decide (i = start)) as [->|Hne].
      * rewrite decide_True by lia. rewrite lookup_insert_eq.
        by replace (start - start) with 0 by lia.
      * rewrite decide_False by lia. apply lookup_insert_ne.
        intros [= ?]. done.
Qed.

Lemma ready_lengths (eps : list Endpoint) :
  Z.of_nat (length (localReady eps)) + Z.of_nat (length (remoteReady eps))
  ≤ Z.of_nat (length eps).
Proof.
  induction eps as [|ep eps IH]; [done|].
  rewrite localReady_cons, remoteReady_cons.
  destruct (ep_IsLocal ep), (ep_IsReady ep); simpl length; lia.
Qed.

(** The desired backends, the state and the frontend that [updateService]
    leaves. *)
Lemma updateService_effect (s : Syncer) (skey : svcKey) (sinfo : Service) (id : Z) (eps : list Endpoint) :
  let r := updateService s skey sinfo id eps in
  let local := Z.of_nat (length (localReady eps)) in
  let cnt := local + Z.of_nat (length (remoteReady eps)) in
  cm_desired (bpfEps r.1) =
    insertSlots id local (remoteReady eps)
      (insertSlots id 0 (localReady eps) (cm_desired (bpfEps s)))
  ∧ match ProtoV1ToInt (protocol sinfo) with
    | (pn, None) =>
        r.2 = (cnt, local, None)
        ∧ cm_desired (bpfSvcs r.1) !! (getSvcNATKey s sinfo).1
          = Some (NewNATValueWithFlags id (uint32 cnt) (uint32 local) (affinityTimeoOf sinfo)
                    (withExclude s sinfo
                       (if nodeLocalInternal sinfo then Z.lor 0 NATFlgInternalLocal else 0)))
        ∧ newEpsMap r.1 =
            (if hasSvcKeyExtra skey svcTypeNodePortRemote then newEpsMap s
             else <[sname skey := localsFirst eps]> (newEpsMap s))
    | (_, Some err) => r.2 = (0, 0, Some err) ∧ newEpsMap r.1 = newEpsMap s
    end.
Proof.
  intros r local cnt. subst r. rewrite updateService_spec. fold local cnt.
  set (s0 := if bool_decide (sessionAffinityType sinfo = ServiceAffinityClientIP)
             then set_stickyEps (<[id := ∅]> (stickyEps s)) s else s).
  assert (sameConfig s s0 ∧ bpfEps s0 = bpfEps s ∧ bpfSvcs s0 = bpfSvcs s
          ∧ newEpsMap s0 = newEpsMap s) as (Hc0 & He0 & Hs0 & Hp0).
  { subst s0. by destruct (bool_decide _); same_fields. }
  destruct (writeBackends_effect id (localReady eps) 0 s0)
    as (Hc1 & Hd1 & Hs1 & _ & Hp1 & _).
  set (s1 := writeBackends id 0 (localReady eps) s0) in *.
  destruct (writeBackends_effect id (remoteReady eps) local s1)
    as (Hc2 & Hd2 & Hs2 & _ & Hp2 & _).
  set (s2 := writeBackends id local (remoteReady eps) s1) in *.
  set (flags := if nodeLocalInternal sinfo then Z.lor 0 NATFlgInternalLocal else 0).
  destruct (writeSvc_effect s2 sinfo id cnt local flags)
    as (Hc3 & He3 & _ & Hp3 & _ & _ & Hw).
  assert (sameConfig s s2) as Hc by eauto using sameConfig_trans.
  assert (withExclude s2 sinfo flags = withExclude s sinfo flags) as Hex.
  { unfold withExclude, inExcludedCIDRs. by destruct Hc as (_ & _ & _ & -> & _). }
  assert (newFrontendKey s2 = newFrontendKey s) as Hkey.
  { unfold newFrontendKey. by destruct Hc as (-> & _). }
  destruct (writeSvc s2 sinfo id cnt local flags) as [s3 [err|]]; cbn [fst snd] in *.
  - destruct Hw as (-> & ->). split; [by rewrite Hd2, Hd1, He0|]. split; [done|].
    by rewrite Hp2, Hp1, Hp0.
  - destruct Hw as (pn & Hproto & Hsvcs). rewrite Hproto. split.
    { destruct (negb _); simpl; by rewrite He3, Hd2, Hd1, He0. }
    split; [done|]. split.
    + assert (cm_desired (bpfSvcs s3) !! (getSvcNATKey s sinfo).1 = Some
                (NewNATValueWithFlags id (uint32 cnt) (uint32 local) (affinityTimeoOf sinfo)
                   (withExclude s sinfo flags))) as Hl.
      { rewrite Hsvcs, Hkey, Hex. unfold getSvcNATKey. rewrite Hproto. simpl.
        by rewrite lookup_insert_eq. }
      by destruct (negb _).
    + destruct (hasSvcKeyExtra skey svcTypeNodePortRemote); simpl;
        by rewrite Hp3, Hp2, Hp1, Hp0.
Qed.


(** ** What one operation of the pass changes *)

Lemma ProtoV1ToIntPanic_known (p : Protocol) (pn : Z) :
  ProtoV1ToInt p = (pn, None) → ProtoV1ToIntPanic p = Some pn.
Proof. unfold ProtoV1ToIntPanic. by intros ->. Qed.

(** The desired backends after an operation. *)
Lemma runOp_backends (s : Syncer) (op : passOp) :
  cm_desired (bpfEps (runOp s op)) =
  match op with
  | OpSvc skey sinfo eps =>
      insertSlots (svcIDOf s skey sinfo) (Z.of_nat (length (localReady eps))) (remoteReady eps)
        (insertSlots (svcIDOf s skey sinfo) 0 (localReady eps) (cm_desired (bpfEps s)))
  | OpDerived _ _ _ => cm_desired (bpfEps s)
  end.
Proof.
  destruct op as [sk sinfo eps|sn t sinfo]; simpl.
  - by destruct (applySvc_effect s sk sinfo eps) as (_ & _ & ? & _).
  - destruct (applyDerived_effect s sn t sinfo) as (_ & -> & _). done.
Qed.

Lemma runOp_backends_mono (s : Syncer) (op : passOp) (bk : BackendKey) :
  is_Some (cm_desired (bpfEps s) !! bk) → is_Some (cm_desired (bpfEps (runOp s op)) !! bk).
Proof.
  intros Hsome. rewrite runOp_backends. destruct op; [|done].
  by do 2 apply insertSlots_mono.
Qed.

(** The entries of [newSvcMap] after an operation: those of before, or the
    one that the operation writes. *)
Lemma runOp_entry (s : Syncer) (op : passOp) (skey : svcKey) (info : svcInfo) :
  newSvcMap (runOp s op) !! skey = Some info →
  (newSvcMap s !! skey = Some info
   ∧ (newEpsMap (runOp s op) !! sname skey = newEpsMap s !! sname skey
      ∨ ∃ skey' info', newSvcEntry s op skey' info' ∧ sname skey' = sname skey))
  ∨ newSvcEntry s op skey info.
Proof.
  destruct op as [sk sinfo eps|sn t sinfo]; simpl.
  - destruct (applySvc_effect s sk sinfo eps) as (_ & _ & _ & Heff).
    destruct ((applySvc s sk sinfo eps).2) as [err|].
    + destruct Heff as (_ & -> & -> & _). intros ?. left. split; [done|]. by left.
    + destruct Heff as (-> & Heps & pn & flags & Hproto & _).
      assert (newSvcEntry s (OpSvc sk sinfo eps) sk
                (mkSvcInfo (svcIDOf s sk sinfo)
                   (Z.of_nat (length (localReady eps)) + Z.of_nat (length (remoteReady eps)))
                   (Z.of_nat (length (localReady eps))) sinfo)) as Hnew.
      { split; [simpl; by erewrite ProtoV1ToIntPanic_known|]. done. }
      destruct (decide (sk = skey)) as [->|Hne].
      * rewrite lookup_insert_eq. intros [= <-]. by right.
      * rewrite lookup_insert_ne by done. intros Hold. left. split; [done|].
        simpl in Heps. rewrite Heps.
        destruct (hasSvcKeyExtra sk svcTypeNodePortRemote); [by left|].
        destruct (decide (sname sk = sname skey)) as [Heq|Hnes].
        -- right. by eexists _, _.
        -- left. by rewrite lookup_insert_ne.
  - destruct (applyDerived_effect s sn t sinfo) as (_ & _ & _ & Heps & Heff).
    rewrite Heps.
    destruct (newSvcMap s !! getSvcKey sn None) as [prim|] eqn:Hprim;
      [destruct (ProtoV1ToInt (protocol sinfo)) as [pn [err|]] eqn:Hproto|].
    + destruct Heff as (_ & ->). intros ?. left. split; [done|]. by left.
    + destruct Heff as (_ & -> & _).
      destruct (decide (getSvcKey sn (getSvcKeyExtra t (clusterIP sinfo)) = skey)) as [<-|Hne].
      * rewrite lookup_insert_eq. intros [= <-]. right.
        split; [simpl; by erewrite ProtoV1ToIntPanic_known|]. by exists prim.
      * rewrite lookup_insert_ne by done. intros ?. left. split; [done|]. by left.
    + destruct Heff as (_ & ->). intros ?. left. split; [done|]. by left.
Qed.

Lemma setFrontends_Forall (P : FrontendValue → Prop) (keys : list FrontendKey) (val : FrontendValue) (m : gmap FrontendKey FrontendValue) :
  P val → map_Forall (λ _, P) m → map_Forall (λ _, P) (setFrontends keys val m).
Proof.
  intros Hval Hm k v. rewrite setFrontends_lookup.
  destruct (decide (k ∈ keys)); [by intros [= <-]|]. apply Hm.
Qed.

(** The desired frontends after an operation: those of before, or a value
    that the operation writes. *)
Lemma runOp_frontend (s : Syncer) (op : passOp) (fk : FrontendKey) (fv : FrontendValue) :
  cm_desired (bpfSvcs (runOp s op)) !! fk = Some fv →
  cm_desired (bpfSvcs s) !! fk = Some fv ∨ newFrontendValue s op fv.
Proof.
  destruct op as [sk sinfo eps|sn t sinfo]; simpl.
  - destruct (applySvc_effect s sk sinfo eps) as (_ & _ & _ & Heff).
    destruct ((applySvc s sk sinfo eps).2) as [err|].
    + destruct Heff as (_ & _ & _ & ->). by left.
    + destruct Heff as (_ & _ & pn & flags & _ & ->).
      rewrite lookup_insert. case_decide; [|by left]. intros [= <-]. by right.
  - destruct (applyDerived_effect s sn t sinfo) as (_ & _ & _ & _ & Heff).
    destruct (newSvcMap s !! getSvcKey sn None) as [prim|] eqn:Hprim;
      [destruct (ProtoV1ToInt (protocol sinfo)) as [pn [err|]] eqn:Hproto|].
    + destruct Heff as (_ & ->). by left.
    + destruct Heff as (_ & _ & ->). intros Hl.
      cut (cm_desired (bpfSvcs s) !! fk = Some fv
           ∨ fv_ID fv = si_id prim
             ∧ ((fv_Count fv = uint32 (si_count prim)
                 ∧ fv_LocalCount fv = uint32 (si_localCount prim))
                ∨ (fv_Count fv = BlackHoleCount ∧ fv_LocalCount fv = 0))).
      { intros [?|[? ?]]; [by left|]. right. by exists prim. }
      unfold derivedFrontends in Hl.
      destruct (srcRangeFiltered t && _).
      * rewrite lookup_insert in Hl. case_decide; [simplify_eq; right; by auto|].
        rewrite setFrontends_lookup in Hl. case_decide; [simplify_eq; right; by auto|].
        rewrite lookup_insert in Hl. case_decide; [simplify_eq; right; by auto|]. by left.
      * rewrite lookup_insert in Hl. case_decide; [simplify_eq; right; by auto|]. by left.
    + destruct Heff as (_ & ->). by left.
Qed.

(** ** Invariants of the sync pass *)

Section invariants.
Variable topo : string → string → list string → bool.
Variable state : DPSyncerState.

(** *** The services recorded have a known protocol *)

Lemma runOp_protocolsKnown (s : Syncer) (op : passOp) :
  protocolsKnown s → protocolsKnown (runOp s op).
Proof.
  intros Hinv skey info Hl. destruct (runOp_entry s op skey info Hl) as [[Hold _]|[Hnew _]].
  - by apply (Hinv skey).
  - done.
Qed.

Lemma syncPass_protocolsKnown (s : Syncer) :
  protocolsKnown (pl_s (syncPass topo s state)).
Proof.
  apply (passReach_invariant topo state protocolsKnown (passStart s)).
  - intros skey info. simpl. by rewrite lookup_empty.
  - intros s1 op _ Hinv _. by apply runOp_protocolsKnown.
  - apply syncPass_reach.
Qed.

(** *** No desired frontend refers to a backend that is not desired *)

Lemma slots_written (id : Z) (lr rr : list Endpoint) (m : gmap BackendKey BackendValue) (k : Z) :
  0 ≤ k < Z.of_nat (length lr) + Z.of_nat (length rr) →
  is_Some (insertSlots id (Z.of_nat (length lr)) rr (insertSlots id 0 lr m)
             !! NewNATBackendKey id (uint32 k)).
Proof.
  intros Hk. destruct (decide (k < Z.of_nat (length lr))) as [Hlt|Hge].
  - apply insertSlots_mono. replace k with (0 + k) by lia. apply insertSlots_covers. lia.
  - replace k with (Z.of_nat (length lr) + (k - Z.of_nat (length lr))) by lia.
    apply insertSlots_covers. lia.
Qed.

Lemma slotsDesired_present (s s' : Syncer) (info : svcInfo) (fv : FrontendValue) :
  slotsDesired s info →
  (∀ bk, is_Some (cm_desired (bpfEps s) !! bk) → is_Some (cm_desired (bpfEps s') !! bk)) →
  fv_ID fv = si_id info →
  fv_Count fv = uint32 (si_count info) ∨ fv_Count fv = BlackHoleCount →
  backendsPresent (cm_desired (bpfEps s')) fv.
Proof.
  intros [Hc0 Hslots] Hmono Hid Hcount [bid bord] (Hbh & Hbid & Hord). simpl in *.
  destruct Hcount as [Hcount|?]; [|done]. rewrite Hcount in Hord.
  pose proof (uint32_le (si_count info) Hc0). pose proof (uint32_range (si_count info)).
  apply Hmono. specialize (Hslots bord). rewrite uint32_small in Hslots by lia.
  rewrite Hbid, Hid. apply Hslots. lia.
Qed.

Lemma runOp_passClosed (s : Syncer) (op : passOp) : passClosed s → passClosed (runOp s op).
Proof.
  intros [Hfront Hentries].
  assert (∀ skey info, newSvcEntry s op skey info → slotsDesired (runOp s op) info) as Hnew.
  { intros skey info [_ Hnew]. destruct op as [sk sinfo eps|sn t sinfo].
    - destruct Hnew as (_ & -> & _). split; [simpl; lia|]. intros k Hk.
      rewrite runOp_backends. by apply slots_written.
    - destruct Hnew as (prim & Hprim & _ & ->).
      destruct (Hentries _ _ Hprim) as [Hc0 Hslots]. split; [done|].
      intros k Hk. apply runOp_backends_mono. by apply Hslots. }
  split.
  - intros fk fv Hl. destruct (runOp_frontend s op fk fv Hl) as [Hold|Hval].
    + intros bk Href. apply runOp_backends_mono. by apply (Hfront fk fv Hold).
    + destruct op as [sk sinfo eps|sn t sinfo].
      * destruct Hval as (Hid & _ & Hcount).
        eapply (slotsDesired_present (runOp s (OpSvc sk sinfo eps)) _
                  (mkSvcInfo (svcIDOf s sk sinfo)
                     (Z.of_nat (length (localReady eps)) + Z.of_nat (length (remoteReady eps)))
                     0 sinfo)); [|done|done|by left].
        split; [simpl; lia|]. intros k Hk. rewrite runOp_backends. by apply slots_written.
      * destruct Hval as (prim & Hprim & Hid & Hcount).
        eapply (slotsDesired_present s _ prim); [by apply (Hentries _ _ Hprim)| |done|].
        -- intros bk. apply runOp_backends_mono.
        -- destruct Hcount as [[? _]|[? _]]; [by left|by right].
  - intros skey info Hl. destruct (runOp_entry s op skey info Hl) as [[Hold _]|Hnew'].
    + destruct (Hentries _ _ Hold) as [Hc0 Hslots]. split; [done|].
      intros k Hk. apply runOp_backends_mono. by apply Hslots.
    + by eapply Hnew.
Qed.

(** At the end of the sync pass, every desired frontend has its backends
    desired. *)
Lemma syncPass_closed (s : Syncer) :
  closedFrontends (cm_desired (bpfSvcs (pl_s (syncPass topo s state))))
    (cm_desired (bpfEps (pl_s (syncPass topo s state)))).
Proof.
  cut (passClosed (pl_s (syncPass topo s state))); [by intros []|].
  apply (passReach_invariant topo state passClosed (passStart s)).
  - split; intros k v; simpl; by rewrite lookup_empty.
  - intros s1 op _ Hinv _. by apply runOp_passClosed.
  - apply syncPass_reach.
Qed.

(** *** Local counts and counts *)

Lemma passEps_length (sn : ServicePortName) (svc : Service) :
  epsBounded state → Z.of_nat (length (passEps topo state sn svc)) < 2 ^ 32.
Proof.
  intros Hb. unfold passEps, eligibleEps.
  pose proof (length_filter
    (λ ep, (ep_IsReady ep || ep_IsTerminating ep)
           && topo (NodeZone state) (hintsAnnotation svc) (ep_ZoneHints ep) = true)
    (default [] (EpsMap state !! sn))) as Hle.
  destruct (EpsMap state !! sn) as [eps|] eqn:Heps; simpl in *.
  - specialize (Hb sn eps Heps). simpl in Hb. lia.
  - lia.
Qed.

Lemma passOpOk_length (s : Syncer) (skey : svcKey) (sinfo : Service) (eps : list Endpoint) :
  epsBounded state → passOpOk topo state s (OpSvc skey sinfo eps) →
  Z.of_nat (length eps) < 2 ^ 32.
Proof.
  intros Hb (svc & Hin & [(_ & _ & ->)|(node & _ & _ & Hsub & _)]).
  - by apply passEps_length.
  - apply sublist_length in Hsub. pose proof (passEps_length (sname skey) svc Hb). lia.
Qed.

Lemma runOp_passCounts (s : Syncer) (op : passOp) :
  epsBounded state → passOpOk topo state s op → passCounts s → passCounts (runOp s op).
Proof.
  intros Hb Hok [Hfront Hentries]. split.
  - intros fk fv Hl. destruct (runOp_frontend s op fk fv Hl) as [Hold|Hval].
    + by apply (Hfront fk).
    + destruct op as [sk sinfo eps|sn t sinfo].
      * destruct Hval as (_ & -> & ->).
        pose proof (passOpOk_length s sk sinfo eps Hb Hok).
        pose proof (ready_lengths eps). rewrite !uint32_small by lia. lia.
      * destruct Hval as (prim & Hprim & _ & [[-> ->]|[-> ->]]).
        -- destruct (Hentries _ _ Hprim) as [? ?]. rewrite !uint32_small by lia. lia.
        -- by vm_compute.
  - intros skey info Hl. destruct (runOp_entry s op skey info Hl) as [[Hold _]|[_ Hnew]].
    + by apply (Hentries skey).
    + destruct op as [sk sinfo eps|sn t sinfo].
      * destruct Hnew as (_ & -> & _). simpl.
        pose proof (passOpOk_length s sk sinfo eps Hb Hok).
        pose proof (ready_lengths eps). lia.
      * destruct Hnew as (prim & Hprim & _ & ->). simpl. by apply (Hentries _ _ Hprim).
Qed.

(** At the end of the sync pass of a state whose services have fewer
    than 2^32 endpoints each, every desired frontend has a local count
    that is at most its count. *)
Lemma syncPass_localCount_le_count (s : Syncer) :
  epsBounded state →
  map_Forall (λ _ fv, 0 ≤ fv_LocalCount fv ≤ fv_Count fv)
    (cm_desired (bpfSvcs (pl_s (syncPass topo s state)))).
Proof.
  intros Hb. cut (passCounts (pl_s (syncPass topo s state))); [by intros []|].
  apply (passReach_invariant topo state passCounts (passStart s)).
  - split; intros k v; simpl; by rewrite lookup_empty.
  - intros s1 op _ Hinv Hok. by apply runOp_passCounts.
  - apply syncPass_reach.
Qed.

End invariants.

(** ** The partial-apply operations of the caching map *)

Section caching_map_lemmas.
Context {K V : Type} `{Countable K} `{EqDecision V}.

Lemma replayK_app (ws1 ws2 : list (kwrite K V)) (m : gmap K V) :
  replayK (ws1 ++ ws2) m = replayK ws2 (replayK ws1 m).
Proof. apply foldl_app. Qed.

Lemma applyWrite_refused (st : applyState K V) (w : kwrite K V) (e : error) :
  km_refuse (as_kernel st) w = Some e →
  applyWrite st w =
  mkApplyState (as_cache st) (as_kernel st) (as_writes st) (firstError (as_err st) (Some e)).
Proof. unfold applyWrite. by intros ->. Qed.

Lemma applyWrite_made (st : applyState K V) (w : kwrite K V) :
  km_refuse (as_kernel st) w = None →
  applyWrite st w =
  mkApplyState
    (mkCachingMap (applyKWrite (cm_dataplane (as_cache st)) w) (cm_desired (as_cache st)))
    (mkKMap (applyKWrite (km_data (as_kernel st)) w) (km_refuse (as_kernel st))
       (km_loadError (as_kernel st)))
    (as_writes st ++ [w]) (as_err st).
Proof. unfold applyWrite. intros ->. by destruct w. Qed.

(** One partial-apply operation: the writes made are some of the pending
    ones, in order; the kernel and the dataplane view have gone through
    them; without an error, every pending write is made; an error is the
    answer of the kernel to a pending write. *)
Lemma applyWrite_fold (ws : list (kwrite K V)) (st : applyState K V) :
  let st' := foldl applyWrite st ws in
  ∃ made,
    as_writes st' = as_writes st ++ made
    ∧ made `sublist_of` ws
    ∧ km_data (as_kernel st') = replayK made (km_data (as_kernel st))
    ∧ cm_dataplane (as_cache st') = replayK made (cm_dataplane (as_cache st))
    ∧ cm_desired (as_cache st') = cm_desired (as_cache st)
    ∧ km_refuse (as_kernel st') = km_refuse (as_kernel st)
    ∧ km_loadError (as_kernel st') = km_loadError (as_kernel st)
    ∧ (as_err st' = None → as_err st = None ∧ made = ws)
    ∧ (∀ e, as_err st' = Some e →
         as_err st = Some e ∨ ∃ w, w ∈ ws ∧ km_refuse (as_kernel st) w = Some e).
Proof.
  revert st. induction ws as [|w ws IH]; intros st; cbn [foldl].
  - exists []. rewrite app_nil_r. split_and!; try done. intros e ?. by left.
  - destruct (IH (applyWrite st w)) as (made & Hw & Hsub & Hk & Hc & Hd & Hr & Hl & Hnone & Hsome).
    set (st' := foldl applyWrite (applyWrite st w) ws) in *. clearbody st'.
    destruct (km_refuse (as_kernel st) w) as [e0|] eqn:Hrefuse.
    + rewrite (applyWrite_refused st w e0 Hrefuse) in *. simpl in *.
      exists made. split_and!; try done.
      * by apply sublist_cons.
      * intros Herr. destruct (Hnone Herr) as [Hfirst _].
        by destruct (as_err st).
      * intros e Herr. destruct (Hsome e Herr) as [Hfirst|(w' & Hin & Hw')].
        -- destruct (as_err st); simpl in Hfirst; [by left|]. right.
           exists w. split; [by left|congruence].
        -- right. exists w'. split; [by right|done].
    + rewrite (applyWrite_made st w Hrefuse) in *. simpl in *.
      exists (w :: made). split_and!; try done.
      * by rewrite Hw, <- app_assoc.
      * by apply sublist_skip.
      * intros Herr. destruct (Hnone Herr) as [? ->]. done.
      * intros e Herr. destruct (Hsome e Herr) as [?|(w' & Hin & Hw')]; [by left|].
        right. exists w'. split; [by right|done].
Qed.

(** Replaying deletions and updates. *)
Lemma replayK_cons (w : kwrite K V) (ws : list (kwrite K V)) (m : gmap K V) :
  replayK (w :: ws) m = replayK ws (applyKWrite m w).
Proof. done. Qed.

Lemma replayK_deletes_other (keys : list K) (m : gmap K V) (key : K) :
  key ∉ keys → replayK (KDelete <$> keys) m !! key = m !! key.
Proof.
  revert m. induction keys as [|k keys IH]; intros m Hnin; [done|].
  apply not_elem_of_cons in Hnin as [Hne Hnin].
  rewrite fmap_cons, replayK_cons, IH by done. by apply lookup_delete_ne.
Qed.

Lemma replayK_deletes_gone (keys : list K) (m : gmap K V) (key : K) :
  key ∈ keys → replayK (KDelete <$> keys) m !! key = None.
Proof.
  revert m. induction keys as [|k keys IH]; intros m Hin; [by apply elem_of_nil in Hin|].
  rewrite fmap_cons, replayK_cons. destruct (decide (key ∈ keys)) as [Hin'|Hnin].
  - by apply IH.
  - apply elem_of_cons in Hin as [->|?]; [|done].
    rewrite replayK_deletes_other by done. apply lookup_delete_eq.
Qed.

Lemma replayK_updates_other (l : list (K * V)) (m : gmap K V) (key : K) :
  key ∉ l.*1 → replayK ((λ kv, KUpdate kv.1 kv.2) <$> l) m !! key = m !! key.
Proof.
  revert m. induction l as [|[k v] l IH]; intros m Hnin; [done|].
  rewrite fmap_cons in Hnin. apply not_elem_of_cons in Hnin as [Hne Hnin].
  rewrite fmap_cons, replayK_cons, IH by done. by apply lookup_insert_ne.
Qed.

Lemma replayK_updates_set (l : list (K * V)) (m : gmap K V) (key : K) (v : V) :
  NoDup l.*1 → (key, v) ∈ l →
  replayK ((λ kv, KUpdate kv.1 kv.2) <$> l) m !! key = Some v.
Proof.
  revert m. induction l as [|[k v'] l IH]; intros m Hnd Hin; [by apply elem_of_nil in Hin|].
  rewrite fmap_cons in Hnd. apply NoDup_cons in Hnd as [Hk Hnd].
  rewrite fmap_cons, replayK_cons.
  apply elem_of_cons in Hin as [[= -> ->]|Hin].
  - rewrite replayK_updates_other by done. apply lookup_insert_eq.
  - by apply IH.
Qed.

Lemma Forall_sublist {A : Type} (P : A → Prop) (l1 l2 : list A) :
  l1 `sublist_of` l2 → Forall P l2 → Forall P l1.
Proof.
  intros Hsub Hall. apply Forall_forall. intros x Hx.
  eapply Forall_forall; [exact Hall|]. by eapply elem_of_sublist.
Qed.

(** [ApplyDeletionsOnly] on a cache that agrees with the kernel. *)
Lemma ApplyDeletionsOnly_spec (c : CachingMap K V) (k : KMap K V) :
  cm_dataplane c = km_data k →
  let r := ApplyDeletionsOnly c k in
  Forall (λ w, ∃ key, w = KDelete key ∧ cm_desired c !! key = None) (as_writes r)
  ∧ km_data (as_kernel r) = replayK (as_writes r) (km_data k)
  ∧ cm_dataplane (as_cache r) = km_data (as_kernel r)
  ∧ cm_desired (as_cache r) = cm_desired c
  ∧ km_refuse (as_kernel r) = km_refuse k
  ∧ km_loadError (as_kernel r) = km_loadError k
  ∧ (as_err r = None →
       ∀ key, km_data (as_kernel r) !! key =
              if decide (is_Some (cm_desired c !! key)) then km_data k !! key else None)
  ∧ (∀ e, as_err r = Some e → ∃ key, km_refuse k (KDelete key) = Some e).
Proof.
  intros Hcoh r. subst r. unfold ApplyDeletionsOnly.
  destruct (applyWrite_fold (pendingDeletions c) (mkApplyState c k [] None))
    as (made & Hw & Hsub & Hk & Hc & Hd & Hr & Hl & Hnone & Hsome).
  simpl in *. rewrite Hw.
  assert (Forall (λ w, ∃ key, w = KDelete key ∧ cm_desired c !! key = None)
            (pendingDeletions c)) as Hall.
  { apply Forall_forall. intros w Hin. unfold pendingDeletions in Hin.
    apply list_elem_of_fmap in Hin as ([key v] & -> & Hin).
    apply list_elem_of_filter in Hin as [Hdes _]. by exists key. }
  split; [by eapply Forall_sublist|]. split; [done|]. split; [by rewrite Hc, Hk, Hcoh|].
  split; [done|]. split; [done|]. split; [done|]. split.
  - intros Herr key. destruct (Hnone Herr) as [_ ->]. rewrite Hk.
    unfold pendingDeletions.
    set (l := filter (λ kv, cm_desired c !! kv.1 = None) (map_to_list (cm_dataplane c))).
    replace ((λ kv : K * V, KDelete kv.1) <$> l) with (KDelete (V:=V) <$> l.*1)
      by (by rewrite <- list_fmap_compose).
    destruct (decide (is_Some (cm_desired c !! key))) as [Hdes|Hdes].
    + apply replayK_deletes_other. intros ([k' v'] & -> & Hin)%list_elem_of_fmap.
      apply list_elem_of_filter in Hin as [Hnone' _]. simpl in *.
      rewrite Hnone' in Hdes. by destruct Hdes.
    + destruct (km_data k !! key) as [v|] eqn:Hkey.
      * apply replayK_deletes_gone. apply list_elem_of_fmap. exists (key, v).
        split; [done|]. apply list_elem_of_filter. split.
        -- simpl. by apply eq_None_not_Some.
        -- apply elem_of_map_to_list. by rewrite Hcoh.
      * rewrite replayK_deletes_other; [done|].
        intros ([k' v'] & -> & Hin)%list_elem_of_fmap.
        apply list_elem_of_filter in Hin as [_ Hin%elem_of_map_to_list]. simpl in *.
        rewrite Hcoh in Hin. congruence.
  - intros e Herr. destruct (Hsome e Herr) as [?|(w & Hin & Hrefused)]; [done|].
    destruct (proj1 (Forall_forall _ _) Hall w Hin) as (key & -> & _). by exists key.
Qed.

(** [ApplyUpdatesOnly] on a cache that agrees with the kernel. *)
Lemma ApplyUpdatesOnly_spec (c : CachingMap K V) (k : KMap K V) :
  cm_dataplane c = km_data k →
  let r := ApplyUpdatesOnly c k in
  Forall (λ w, ∃ key v, w = KUpdate key v ∧ cm_desired c !! key = Some v) (as_writes r)
  ∧ km_data (as_kernel r) = replayK (as_writes r) (km_data k)
  ∧ cm_dataplane (as_cache r) = km_data (as_kernel r)
  ∧ cm_desired (as_cache r) = cm_desired c
  ∧ km_refuse (as_kernel r) = km_refuse k
  ∧ km_loadError (as_kernel r) = km_loadError k
  ∧ (as_err r = None →
       ∀ key, km_data (as_kernel r) !! key =
              match cm_desired c !! key with
              | Some v => Some v
              | None => km_data k !! key
              end)
  ∧ (∀ e, as_err r = Some e → ∃ key v, km_refuse k (KUpdate key v) = Some e).
Proof.
  intros Hcoh r. subst r. unfold ApplyUpdatesOnly.
  destruct (applyWrite_fold (pendingUpdates c) (mkApplyState c k [] None))
    as (made & Hw & Hsub & Hk & Hc & Hd & Hr & Hl & Hnone & Hsome).
  simpl in *. rewrite Hw.
  assert (Forall (λ w, ∃ key v, w = KUpdate key v ∧ cm_desired c !! key = Some v)
            (pendingUpdates c)) as Hall.
  { apply Forall_forall. intros w Hin. unfold pendingUpdates in Hin.
    apply list_elem_of_fmap in Hin as ([key v] & -> & Hin).
    apply list_elem_of_filter in Hin as [_ Hin%elem_of_map_to_list]. by exists key, v. }
  split; [by eapply Forall_sublist|]. split; [done|]. split; [by rewrite Hc, Hk, Hcoh|].
  split; [done|]. split; [done|]. split; [done|]. split.
  - intros Herr key. destruct (Hnone Herr) as [_ ->]. rewrite Hk.
    unfold pendingUpdates.
    set (l := filter (λ kv, cm_dataplane c !! kv.1 ≠ Some kv.2) (map_to_list (cm_desired c))).
    assert (NoDup l.*1) as Hnd.
    { apply (sublist_NoDup _ ((map_to_list (cm_desired c)).*1));
        [apply NoDup_fst_map_to_list|]. apply fmap_sublist, sublist_filter. }
    destruct (cm_desired c !! key) as [v|] eqn:Hdes.
    + destruct (decide (cm_dataplane c !! key = Some v)) as [Hsame|Hdiff].
      * rewrite replayK_updates_other; [by rewrite <- Hcoh|].
        intros ([k' v'] & -> & Hin)%list_elem_of_fmap.
        apply list_elem_of_filter in Hin as [Hne Hin%elem_of_map_to_list]. simpl in *.
        congruence.
      * apply replayK_updates_set; [done|]. apply list_elem_of_filter. split; [done|].
        by apply elem_of_map_to_list.
    + apply replayK_updates_other. intros ([k' v'] & -> & Hin)%list_elem_of_fmap.
      apply list_elem_of_filter in Hin as [_ Hin%elem_of_map_to_list]. simpl in *.
      congruence.
  - intros e Herr. destruct (Hsome e Herr) as [?|(w & Hin & Hrefused)]; [done|].
    destruct (proj1 (Forall_forall _ _) Hall w Hin) as (key & v & -> & _). by exists key, v.
Qed.

End caching_map_lemmas.

(** ** The four writes of [apply] *)

Lemma replay_app (evs1 evs2 : list kevent) (ks : kmaps) :
  replay (evs1 ++ evs2) ks = replay evs2 (replay evs1 ks).
Proof. apply foldl_app. Qed.

Lemma replay_frontend (ws : list (kwrite FrontendKey FrontendValue)) (ks : kmaps) :
  replay (FrontendWrite <$> ws) ks = (replayK ws ks.1, ks.2).
Proof.
  revert ks. induction ws as [|w ws IH]; intros [F B]; [done|].
  rewrite fmap_cons. unfold replay in *. cbn [foldl]. by rewrite IH.
Qed.

Lemma replay_backend (ws : list (kwrite BackendKey BackendValue)) (ks : kmaps) :
  replay (BackendWrite <$> ws) ks = (ks.1, replayK ws ks.2).
Proof.
  revert ks. induction ws as [|w ws IH]; intros [F B]; [done|].
  rewrite fmap_cons. unfold replay in *. cbn [foldl]. by rewrite IH.
Qed.

Lemma safeTrace_app (ks : kmaps) (evs1 evs2 : list kevent) :
  safeTrace ks evs1 → safeTrace (replay evs1 ks) evs2 → safeTrace ks (evs1 ++ evs2).
Proof.
  revert ks. induction evs1 as [|e evs1 IH]; intros ks H1 H2; [done|].
  destruct H1 as [He H1]. split; [done|]. by apply IH.
Qed.

(** Deleting a frontend and writing a backend are always safe. *)
Lemma safeTrace_frontend_deletes (ws : list (kwrite FrontendKey FrontendValue)) (ks : kmaps) :
  Forall (λ w, ∃ key, w = KDelete key) ws → safeTrace ks (FrontendWrite <$> ws).
Proof.
  intros Hall. revert ks. induction Hall as [|w ws (key & ->) _ IH]; intros ks; [done|].
  split; [done|]. apply IH.
Qed.

Lemma safeTrace_backend_updates (ws : list (kwrite BackendKey BackendValue)) (ks : kmaps) :
  Forall (λ w, ∃ key v, w = KUpdate key v) ws → safeTrace ks (BackendWrite <$> ws).
Proof.
  intros Hall. revert ks. induction Hall as [|w ws (key & v & ->) _ IH]; intros ks; [done|].
  split; [done|]. apply IH.
Qed.

(** Frontends whose backends are all there can be installed. *)
Lemma safeTrace_frontend_updates (ws : list (kwrite FrontendKey FrontendValue)) (ks : kmaps) :
  Forall (λ w, ∃ key v, w = KUpdate key v ∧ backendsPresent ks.2 v) ws →
  safeTrace ks (FrontendWrite <$> ws).
Proof.
  destruct ks as [F B]. cbn [fst snd]. intros Hall. revert F.
  induction Hall as [|w ws (key & v & -> & Hv) _ IH]; intros F; [done|].
  split; [done|]. apply IH.
Qed.

(** Backends to which no installed frontend refers can be removed. *)
Lemma safeTrace_backend_deletes (ws : list (kwrite BackendKey BackendValue)) (ks : kmaps) :
  Forall (λ w, ∃ bk, w = KDelete bk
                     ∧ ∀ fk fv, ks.1 !! fk = Some fv → ¬ references fv bk) ws →
  safeTrace ks (BackendWrite <$> ws).
Proof.
  destruct ks as [F B]. cbn [fst snd]. intros Hall. revert B.
  induction Hall as [|w ws (bk & -> & Hbk) _ IH]; intros B; [done|].
  split; [done|]. apply IH.
Qed.

(** The two partial-apply operations, in full. *)
Lemma ApplyDeletionsOnly_form {K V : Type} `{Countable K} `{EqDecision V} (c : CachingMap K V) (k : KMap K V) :
  cm_dataplane c = km_data k →
  ∃ ws err,
    ApplyDeletionsOnly c k =
      mkApplyState (mkCachingMap (replayK ws (km_data k)) (cm_desired c))
        (mkKMap (replayK ws (km_data k)) (km_refuse k) (km_loadError k)) ws err
    ∧ Forall (λ w, ∃ key, w = KDelete key ∧ cm_desired c !! key = None) ws
    ∧ (err = None →
         ∀ key, replayK ws (km_data k) !! key =
                if decide (is_Some (cm_desired c !! key)) then km_data k !! key else None)
    ∧ (∀ e, err = Some e → ∃ key, km_refuse k (KDelete key) = Some e).
Proof.
  intros Hcoh. pose proof (ApplyDeletionsOnly_spec c k Hcoh) as Hspec. cbv zeta in Hspec.
  destruct (ApplyDeletionsOnly c k) as [[dp des] [data refuse load] ws err].
  simpl in Hspec. destruct Hspec as (Hall & -> & -> & -> & -> & -> & Hnone & Hsome).
  by exists ws, err.
Qed.

Lemma ApplyUpdatesOnly_form {K V : Type} `{Countable K} `{EqDecision V} (c : CachingMap K V) (k : KMap K V) :
  cm_dataplane c = km_data k →
  ∃ ws err,
    ApplyUpdatesOnly c k =
      mkApplyState (mkCachingMap (replayK ws (km_data k)) (cm_desired c))
        (mkKMap (replayK ws (km_data k)) (km_refuse k) (km_loadError k)) ws err
    ∧ Forall (λ w, ∃ key v, w = KUpdate key v ∧ cm_desired c !! key = Some v) ws
    ∧ (err = None →
         ∀ key, replayK ws (km_data k) !! key =
                match cm_desired c !! key with
                | Some v => Some v
                | None => km_data k !! key
                end)
    ∧ (∀ e, err = Some e → ∃ key v, km_refuse k (KUpdate key v) = Some e).
Proof.
  intros Hcoh. pose proof (ApplyUpdatesOnly_spec c k Hcoh) as Hspec. cbv zeta in Hspec.
  destruct (ApplyUpdatesOnly c k) as [[dp des] [data refuse load] ws err].
  simpl in Hspec. destruct Hspec as (Hall & -> & -> & -> & -> & -> & Hnone & Hsome).
  by exists ws, err.
Qed.

(** The cold start leaves the two caches in agreement with the kernel. *)
Lemma loadOrigs_coherent (s s' : Syncer) (k : Kernel) :
  loadOrigs s k = (s', None) →
  cm_dataplane (bpfSvcs s') = km_data (k_frontend k)
  ∧ cm_dataplane (bpfEps s') = km_data (k_backend k).
Proof.
  unfold loadOrigs, LoadCacheFromDataplane.
  destruct (km_loadError (k_backend k)); [done|]. simpl.
  destruct (km_loadError (k_frontend k)); [done|]. by intros [= <-].
Qed.

(** The sync pass leaves the dataplane views as they are. *)
Lemma syncPass_dataplane (topo : string → string → list string → bool) (s : Syncer) (state : DPSyncerState) :
  cm_dataplane (bpfSvcs (pl_s (syncPass topo s state))) = cm_dataplane (bpfSvcs s)
  ∧ cm_dataplane (bpfEps (pl_s (syncPass topo s state))) = cm_dataplane (bpfEps s).
Proof.
  pose proof (passReach_sameConfig topo state _ _ (syncPass_reach topo state s)) as Hsame.
  unfold sameConfig in Hsame.
  destruct Hsame as (_ & _ & _ & _ & _ & _ & _ & _ & _ & _ & _ & HF & HB).
  by rewrite HF, HB.
Qed.

Lemma runExpandNPFixup_maps (s : Syncer) (misses : list expandMiss) :
  bpfSvcs (runExpandNPFixup s misses) = bpfSvcs s
  ∧ bpfEps (runExpandNPFixup s misses) = bpfEps s.
Proof. unfold runExpandNPFixup. by destruct (Nat.eqb (length misses) 0). Qed.

(** The phase of the writes of each operation. *)
Lemma phase_frontend_deletes (ws : list (kwrite FrontendKey FrontendValue)) (P : FrontendKey → Prop) :
  Forall (λ w, ∃ key, w = KDelete key ∧ P key) ws →
  Forall (λ e, phaseOf e = 1%nat) (FrontendWrite <$> ws).
Proof.
  intros Hall. apply Forall_fmap. eapply Forall_impl; [exact Hall|].
  by intros w (key & -> & _).
Qed.

Lemma phase_backend_updates (ws : list (kwrite BackendKey BackendValue)) (P : BackendKey → BackendValue → Prop) :
  Forall (λ w, ∃ key v, w = KUpdate key v ∧ P key v) ws →
  Forall (λ e, phaseOf e = 2%nat) (BackendWrite <$> ws).
Proof.
  intros Hall. apply Forall_fmap. eapply Forall_impl; [exact Hall|].
  by intros w (key & v & -> & _).
Qed.

Lemma phase_frontend_updates (ws : list (kwrite FrontendKey FrontendValue)) (P : FrontendKey → FrontendValue → Prop) :
  Forall (λ w, ∃ key v, w = KUpdate key v ∧ P key v) ws →
  Forall (λ e, phaseOf e = 3%nat) (FrontendWrite <$> ws).
Proof.
  intros Hall. apply Forall_fmap. eapply Forall_impl; [exact Hall|].
  by intros w (key & v & -> & _).
Qed.

Lemma phase_backend_deletes (ws : list (kwrite BackendKey BackendValue)) (P : BackendKey → Prop) :
  Forall (λ w, ∃ key, w = KDelete key ∧ P key) ws →
  Forall (λ e, phaseOf e = 4%nat) (BackendWrite <$> ws).
Proof.
  intros Hall. apply Forall_fmap. eapply Forall_impl; [exact Hall|].
  by intros w (key & -> & _).
Qed.

Lemma phase_le (n m : nat) (evs : list kevent) :
  (n ≤ m)%nat → Forall (λ e, phaseOf e = n) evs → Forall (λ e, (phaseOf e ≤ m)%nat) evs.
Proof. intros Hle Hall. eapply Forall_impl; [exact Hall|]. by intros e ->. Qed.

Ltac apply_cbn :=
  cbn [ap_s ap_k ap_writes ap_err andThen svcsDeletions epsUpdates svcsUpdates epsDeletions
       bpfSvcs bpfEps set_bpfSvcs set_bpfEps withFrontend withBackend k_frontend k_backend
       as_cache as_kernel as_writes as_err km_data km_refuse km_loadError
       cm_dataplane cm_desired kernelMaps fst snd app] in *.

(** C1.  [apply] writes to the kernel in four phases, in this order:
    frontend deletions, backend updates, frontend updates, backend
    deletions.  Every frontend is installed in a kernel that holds all the
    backends it refers to, and every backend is removed from a kernel in
    which no frontend refers to it.  The kernel and the dataplane views are
    left as the writes made have left them; an error is that of the sync
    pass (and nothing is written) or the kernel's answer to a write of the
    phase after which [apply] has stopped; without an error the kernel
    holds exactly the desired frontends and backends. *)
Theorem apply_four_phases (topo : string → string → list string → bool) (s : Syncer) (k : Kernel) (state : DPSyncerState) :
  cm_dataplane (bpfSvcs s) = km_data (k_frontend k) →
  cm_dataplane (bpfEps s) = km_data (k_backend k) →
  let a := apply topo s k state in
  (∃ w1 w2 w3 w4,
     ap_writes a = w1 ++ w2 ++ w3 ++ w4
     ∧ Forall (λ e, phaseOf e = 1%nat) w1
     ∧ Forall (λ e, phaseOf e = 2%nat) w2
     ∧ Forall (λ e, phaseOf e = 3%nat) w3
     ∧ Forall (λ e, phaseOf e = 4%nat) w4)
  ∧ safeTrace (kernelMaps k) (ap_writes a)
  ∧ kernelMaps (ap_k a) = replay (ap_writes a) (kernelMaps k)
  ∧ cm_dataplane (bpfSvcs (ap_s a)) = km_data (k_frontend (ap_k a))
  ∧ cm_dataplane (bpfEps (ap_s a)) = km_data (k_backend (ap_k a))
  ∧ (∀ e, ap_err a = Some e →
       (pl_err (syncPass topo s state) = Some e ∧ ap_writes a = [])
       ∨ (∃ w, refusedBy k w = Some e
               ∧ Forall (λ ev, (phaseOf ev ≤ phaseOf w)%nat) (ap_writes a)))
  ∧ (ap_err a = None →
       pl_err (syncPass topo s state) = None
       ∧ kernelMaps (ap_k a)
         = (cm_desired (bpfSvcs (ap_s a)), cm_desired (bpfEps (ap_s a)))).
Proof.
  intros HcF HcB a. subst a. unfold apply.
  pose proof (syncPass_closed topo state s) as Hclosed.
  destruct (syncPass_dataplane topo s state) as [HdF HdB].
  rewrite HcF in HdF. rewrite HcB in HdB.
  set (p := syncPass topo s state) in *. clearbody p.
  destruct (pl_err p) as [err|] eqn:Hperr.
  { apply_cbn. split_and!; try done.
    - exists [], [], [], []. by split_and!.
    - intros e [= <-]. by left. }
  destruct k as [kf kb aff afferr now].
  unfold andThen, kernelMaps, withFrontend, withBackend, refusedBy. apply_cbn.
  set (desF := cm_desired (bpfSvcs (pl_s p))) in *.
  set (desB := cm_desired (bpfEps (pl_s p))) in *.
  (* Frontend deletions. *)
  unfold svcsDeletions. apply_cbn.
  destruct (ApplyDeletionsOnly_form _ _ HdF) as (w1 & e1 & -> & Hall1 & Hn1 & He1).
  fold desF in Hall1, Hn1. apply_cbn.
  pose proof (phase_frontend_deletes _ _ Hall1) as Hp1.
  assert (safeTrace (km_data kf, km_data kb) (FrontendWrite <$> w1)) as Hs1.
  { apply safeTrace_frontend_deletes. eapply Forall_impl; [exact Hall1|].
    intros w (key & -> & _). by exists key. }
  destruct e1 as [e1|].
  { apply_cbn. split_and!; try done.
    - exists (FrontendWrite <$> w1), [], [], []. rewrite !app_nil_r. by split_and!.
    - by rewrite replay_frontend.
    - intros e Heq. right. destruct (He1 e Heq) as (key & Hkey).
      exists (FrontendWrite (KDelete key)). split; [done|].
      eapply phase_le; [|exact Hp1]. done. }
  specialize (Hn1 eq_refl). clear He1.
  (* Backend updates. *)
  unfold epsUpdates. apply_cbn.
  destruct (ApplyUpdatesOnly_form _ _ HdB) as (w2 & e2 & -> & Hall2 & Hn2 & He2).
  fold desB in Hall2, Hn2. apply_cbn.
  pose proof (phase_backend_updates _ _ Hall2) as Hp2.
  assert (safeTrace (km_data kf, km_data kb)
            ((FrontendWrite <$> w1) ++ (BackendWrite <$> w2))) as Hs2.
  { apply safeTrace_app; [done|]. apply safeTrace_backend_updates.
    eapply Forall_impl; [exact Hall2|]. intros w (key & v & -> & _). by exists key, v. }
  assert (replay ((FrontendWrite <$> w1) ++ (BackendWrite <$> w2)) (km_data kf, km_data kb)
          = (replayK w1 (km_data kf), replayK w2 (km_data kb))) as Hr2.
  { by rewrite replay_app, replay_frontend, replay_backend. }
  destruct e2 as [e2|].
  { apply_cbn. split_and!; try done.
    - exists (FrontendWrite <$> w1), (BackendWrite <$> w2), [], [].
      rewrite !app_nil_r. by split_and!.
    - intros e Heq. right. destruct (He2 e Heq) as (key & v & Hkey).
      exists (BackendWrite (KUpdate key v)). split; [done|].
      apply Forall_app. split; (eapply phase_le; [|eassumption]); simpl; lia. }
  specialize (Hn2 eq_refl). clear He2.
  (* Frontend updates. *)
  unfold svcsUpdates. apply_cbn.
  match goal with
  | |- context [ApplyUpdatesOnly ?c ?k] =>
      destruct (ApplyUpdatesOnly_form c k eq_refl) as (w3 & e3 & -> & Hall3 & Hn3 & He3)
  end.
  apply_cbn. fold desF in Hall3, Hn3.
  pose proof (phase_frontend_updates _ _ Hall3) as Hp3.
  assert (safeTrace (km_data kf, km_data kb)
            (((FrontendWrite <$> w1) ++ (BackendWrite <$> w2)) ++ (FrontendWrite <$> w3)))
    as Hs3.
  { apply safeTrace_app; [done|]. rewrite Hr2. apply safeTrace_frontend_updates.
    eapply Forall_impl; [exact Hall3|]. intros w (key & v & -> & Hkey).
    exists key, v. split; [done|]. intros bk Href. cbn [snd]. rewrite Hn2.
    destruct (Hclosed key v Hkey bk Href) as [bv Hbv]. fold desB in Hbv. by rewrite Hbv. }
  assert (replay (((FrontendWrite <$> w1) ++ (BackendWrite <$> w2)) ++ (FrontendWrite <$> w3))
            (km_data kf, km_data kb)
          = (replayK w3 (replayK w1 (km_data kf)), replayK w2 (km_data kb))) as Hr3.
  { by rewrite replay_app, Hr2, replay_frontend. }
  destruct e3 as [e3|].
  { apply_cbn. split_and!; try done.
    - exists (FrontendWrite <$> w1), (BackendWrite <$> w2), (FrontendWrite <$> w3), [].
      rewrite !app_nil_r, <- app_assoc. by split_and!.
    - intros e Heq. right. destruct (He3 e Heq) as (key & v & Hkey).
      exists (FrontendWrite (KUpdate key v)). split; [done|].
      rewrite !Forall_app. split_and!; (eapply phase_le; [|eassumption]); simpl; lia. }
  specialize (Hn3 eq_refl). clear He3.
  assert (∀ fk, replayK w3 (replayK w1 (km_data kf)) !! fk = desF !! fk) as HF.
  { intros fk. rewrite Hn3, Hn1. destruct (desF !! fk) eqn:Hfk; [done|].
    case_decide as Hsome; [|done]. by destruct Hsome. }
  (* Backend deletions. *)
  unfold epsDeletions. apply_cbn.
  match goal with
  | |- context [ApplyDeletionsOnly ?c ?k] =>
      destruct (ApplyDeletionsOnly_form c k eq_refl) as (w4 & e4 & -> & Hall4 & Hn4 & He4)
  end.
  apply_cbn. fold desB in Hall4, Hn4.
  pose proof (phase_backend_deletes _ _ Hall4) as Hp4.
  assert (safeTrace (km_data kf, km_data kb)
            ((((FrontendWrite <$> w1) ++ (BackendWrite <$> w2)) ++ (FrontendWrite <$> w3))
             ++ (BackendWrite <$> w4))) as Hs4.
  { apply safeTrace_app; [done|]. rewrite Hr3. apply safeTrace_backend_deletes.
    eapply Forall_impl; [exact Hall4|]. intros w (bk & -> & Hbk).
    exists bk. split; [done|]. intros fk fv. cbn [fst]. rewrite HF. intros Hfk Href.
    destruct (Hclosed fk fv Hfk bk Href) as [bv Hbv]. fold desB in Hbv. congruence. }
  assert (replay ((((FrontendWrite <$> w1) ++ (BackendWrite <$> w2)) ++ (FrontendWrite <$> w3))
                  ++ (BackendWrite <$> w4)) (km_data kf, km_data kb)
          = (replayK w3 (replayK w1 (km_data kf)), replayK w4 (replayK w2 (km_data kb))))
    as Hr4.
  { by rewrite replay_app, Hr3, replay_backend. }
  assert (∃ v1 v2 v3 v4,
            (((FrontendWrite <$> w1) ++ (BackendWrite <$> w2)) ++ (FrontendWrite <$> w3))
              ++ (BackendWrite <$> w4) = v1 ++ v2 ++ v3 ++ v4
            ∧ Forall (λ e, phaseOf e = 1%nat) v1 ∧ Forall (λ e, phaseOf e = 2%nat) v2
            ∧ Forall (λ e, phaseOf e = 3%nat) v3 ∧ Forall (λ e, phaseOf e = 4%nat) v4)
    as Hphases.
  { exists (FrontendWrite <$> w1), (BackendWrite <$> w2), (FrontendWrite <$> w3),
      (BackendWrite <$> w4).
    rewrite <- !app_assoc. by split_and!. }
  destruct e4 as [e4|].
  { apply_cbn. split_and!; try done.
    intros e Heq. right. destruct (He4 e Heq) as (key & Hkey).
    exists (BackendWrite (KDelete key)). split; [done|].
    rewrite !Forall_app. split_and!; (eapply phase_le; [|eassumption]); simpl; lia. }
  specialize (Hn4 eq_refl). clear He4.
  apply_cbn.
  match goal with
  | |- context [runExpandNPFixup ?x ?m] =>
      destruct (runExpandNPFixup_maps x m) as [-> ->]
  end.
  apply_cbn. split_and!; try done.
  intros _. split; [done|]. f_equal.
  - apply map_eq. intros fk. apply HF.
  - apply map_eq. intros bk. rewrite Hn4, Hn2. fold desB.
    case_decide as Hsome; [by destruct Hsome as [bv ->]|].
    by apply eq_None_not_Some in Hsome.
Qed.

(** The theorem on the kernel of [Ex.kernelMissingSlot], once the caches
    are loaded from it. *)
Lemma apply_four_phases_witness :
  let s := (loadOrigs Ex.syncer4 Ex.kernelMissingSlot).1 in
  let a := apply Ex.anyZone s Ex.kernelMissingSlot Ex.stateA in
  (∃ w1 w2 w3 w4,
     ap_writes a = w1 ++ w2 ++ w3 ++ w4
     ∧ Forall (λ e, phaseOf e = 1%nat) w1
     ∧ Forall (λ e, phaseOf e = 2%nat) w2
     ∧ Forall (λ e, phaseOf e = 3%nat) w3
     ∧ Forall (λ e, phaseOf e = 4%nat) w4)
  ∧ safeTrace (kernelMaps Ex.kernelMissingSlot) (ap_writes a)
  ∧ kernelMaps (ap_k a) = replay (ap_writes a) (kernelMaps Ex.kernelMissingSlot)
  ∧ cm_dataplane (bpfSvcs (ap_s a)) = km_data (k_frontend (ap_k a))
  ∧ cm_dataplane (bpfEps (ap_s a)) = km_data (k_backend (ap_k a))
  ∧ (∀ e, ap_err a = Some e →
       (pl_err (syncPass Ex.anyZone s Ex.stateA) = Some e ∧ ap_writes a = [])
       ∨ (∃ w, refusedBy Ex.kernelMissingSlot w = Some e
               ∧ Forall (λ ev, (phaseOf ev ≤ phaseOf w)%nat) (ap_writes a)))
  ∧ (ap_err a = None →
       pl_err (syncPass Ex.anyZone s Ex.stateA) = None
       ∧ kernelMaps (ap_k a)
         = (cm_desired (bpfSvcs (ap_s a)), cm_desired (bpfEps (ap_s a)))).
Proof.
  intros s. apply (apply_four_phases Ex.anyZone s Ex.kernelMissingSlot Ex.stateA).
  - vm_compute. reflexivity.
  - vm_compute. reflexivity.
Defined.

(** ** Locals first *)

(** C2.  [updateService], given fewer than 2^32 endpoints, writes the
    ready local endpoints, in their order, to the slots [0 .. local), then
    the ready non-local endpoints to the slots [local .. count), and
    touches no other backend; it returns these two counts, with
    [local ≤ count], and the frontend it writes carries them (when the
    protocol is unknown it returns the error instead).  And in the desired
    frontends that a sync pass leaves, for a state in which every service
    has fewer than 2^32 endpoints, every value has [local-count ≤ count]. *)
Theorem updateService_locals_first (s : Syncer) (skey : svcKey) (sinfo : Service) (id : Z) (eps : list Endpoint) (topo : string → string → list string → bool) (state : DPSyncerState) (s0 : Syncer) :
  Z.of_nat (length eps) < 2 ^ 32 →
  epsBounded state →
  let r := updateService s skey sinfo id eps in
  let local := Z.of_nat (length (localReady eps)) in
  let count := local + Z.of_nat (length (remoteReady eps)) in
  let D := cm_desired (bpfEps s) in
  let D' := cm_desired (bpfEps r.1) in
  (∀ i, 0 ≤ i < local →
     D' !! NewNATBackendKey id i = backendValueOf <$> localReady eps !! Z.to_nat i)
  ∧ (∀ i, local ≤ i < count →
       D' !! NewNATBackendKey id i = backendValueOf <$> remoteReady eps !! Z.to_nat (i - local))
  ∧ (∀ k, ¬ (bk_ID k = id ∧ 0 ≤ bk_Ordinal k < count) → D' !! k = D !! k)
  ∧ 0 ≤ local ≤ count
  ∧ match ProtoV1ToInt (protocol sinfo) with
    | (pn, None) =>
        r.2 = (count, local, None)
        ∧ ∃ fv, cm_desired (bpfSvcs r.1) !! (getSvcNATKey s sinfo).1 = Some fv
            ∧ fv_ID fv = id ∧ fv_Count fv = count ∧ fv_LocalCount fv = local
            ∧ fv_LocalCount fv ≤ fv_Count fv
    | (_, Some err) => r.2 = (0, 0, Some err)
    end
  ∧ map_Forall (λ _ fv, 0 ≤ fv_LocalCount fv ≤ fv_Count fv)
      (cm_desired (bpfSvcs (pl_s (syncPass topo s0 state)))).
Proof.
  intros Hlen Hbound r local count D D'.
  destruct (updateService_effect s skey sinfo id eps) as (HD & Hres).
  fold r local count D D' in HD, Hres.
  pose proof (ready_lengths eps) as Hready. fold local count in Hready.
  assert (0 ≤ local) as Hl0 by (subst local; lia).
  assert (local ≤ count) as Hlc by (subst count; lia).
  assert (count < 2 ^ 32) as Hc32 by lia.
  split; [|split; [|split; [|split; [|split]]]].
  - intros i Hi. rewrite HD, insertSlots_lookup by (fold local count; lia).
    rewrite decide_False by lia. rewrite insertSlots_lookup by (fold local; lia).
    rewrite decide_True by (fold local; lia). by rewrite Z.sub_0_r.
  - intros i Hi. rewrite HD, insertSlots_lookup by (fold local count; lia).
    by rewrite decide_True by (fold local count; lia).
  - intros [kid kord] Hk. simpl in Hk. rewrite HD.
    destruct (decide (kid = id)) as [->|Hne].
    + change (mkBackendKey id kord) with (NewNATBackendKey id kord).
      rewrite insertSlots_lookup by (fold local count; lia).
      rewrite decide_False by (fold local count; lia).
      rewrite insertSlots_lookup by (fold local; lia).
      by rewrite decide_False by (fold local; lia).
    + by rewrite !insertSlots_other.
  - lia.
  - destruct (ProtoV1ToInt (protocol sinfo)) as [pn [err|]]; [by destruct Hres|].
    destruct Hres as (Hr & Hfv & _). split; [done|].
    eexists. split; [exact Hfv|]. simpl. rewrite !uint32_small by lia. done.
  - by apply syncPass_localCount_le_count.
Qed.

(** The theorem on the three endpoints of [Ex.stateA], of which the second
    is local. *)
Lemma updateService_locals_first_witness :
  let eps := [Ex.ep2; Ex.ep1; Ex.ep3] in
  let r := updateService Ex.syncer4 (getSvcKey Ex.nameA None) Ex.svcA 0 eps in
  let local := Z.of_nat (length (localReady eps)) in
  let count := local + Z.of_nat (length (remoteReady eps)) in
  let D := cm_desired (bpfEps Ex.syncer4) in
  let D' := cm_desired (bpfEps r.1) in
  (∀ i, 0 ≤ i < local →
     D' !! NewNATBackendKey 0 i = backendValueOf <$> localReady eps !! Z.to_nat i)
  ∧ (∀ i, local ≤ i < count →
       D' !! NewNATBackendKey 0 i = backendValueOf <$> remoteReady eps !! Z.to_nat (i - local))
  ∧ (∀ k, ¬ (bk_ID k = 0 ∧ 0 ≤ bk_Ordinal k < count) → D' !! k = D !! k)
  ∧ 0 ≤ local ≤ count
  ∧ match ProtoV1ToInt (protocol Ex.svcA) with
    | (pn, None) =>
        r.2 = (count, local, None)
        ∧ ∃ fv, cm_desired (bpfSvcs r.1) !! (getSvcNATKey Ex.syncer4 Ex.svcA).1 = Some fv
            ∧ fv_ID fv = 0 ∧ fv_Count fv = count ∧ fv_LocalCount fv = local
            ∧ fv_LocalCount fv ≤ fv_Count fv
    | (_, Some err) => r.2 = (0, 0, Some err)
    end
  ∧ map_Forall (λ _ fv, 0 ≤ fv_LocalCount fv ≤ fv_Count fv)
      (cm_desired (bpfSvcs (pl_s (syncPass Ex.anyZone Ex.syncer4 Ex.stateA)))).
Proof.
  intros eps.
  apply (updateService_locals_first Ex.syncer4 (getSvcKey Ex.nameA None) Ex.svcA 0 eps
           Ex.anyZone Ex.stateA Ex.syncer4).
  - vm_compute. reflexivity.
  - apply (bool_decide_unpack _). vm_compute. exact I.
Defined.

(** Scenario A: the local endpoint takes slot 0, the others follow. *)
Example updateService_scenario :
  let r := updateService Ex.syncer4 (getSvcKey Ex.nameA None) Ex.svcA 0 [Ex.ep2; Ex.ep1; Ex.ep3] in
  r.2 = (3, 1, None)
  ∧ map_to_list (cm_desired (bpfEps r.1))
    ≡ₚ [(mkBackendKey 0 0, backendValueOf Ex.ep1);
        (mkBackendKey 0 1, backendValueOf Ex.ep2);
        (mkBackendKey 0 2, backendValueOf Ex.ep3)].
Proof.
  split; [by vm_compute|]. apply (bool_decide_unpack _). by vm_compute.
Qed.

(** ** Service ids *)





(** ** The active endpoints *)

Lemma derived_key (sn : ServicePortName) (t : svcType) (ip : IP) :
  t ≠ svcTypeNodePortRemote → isSvcKeyDerived (getSvcKey sn (getSvcKeyExtra t ip)) = true.
Proof. by destruct t. Qed.

Lemma elem_of_localsFirst (ep : Endpoint) (eps : list Endpoint) :
  ep ∈ localsFirst eps ↔ ep ∈ eps.
Proof.
  unfold localsFirst. rewrite elem_of_app, !list_elem_of_filter.
  destruct (ep_IsLocal ep); naive_solver.
Qed.

Lemma elem_of_activeEpsOf (svc : Service) (eps : list Endpoint) (ipp : ipPort) :
  ipp ∈ activeEpsOf svc eps ↔ ∃ ep, ep ∈ eps ∧ ipPortOf ep = ipp ∧ reapedUDP svc ep = false.
Proof.
  unfold activeEpsOf. rewrite elem_of_list_to_set, list_elem_of_fmap.
  split.
  - intros (ep & -> & Hin). apply list_elem_of_filter in Hin as [Hreap Hin]. by exists ep.
  - intros (ep & Hin & <- & Hreap). exists ep. split; [done|].
    by apply list_elem_of_filter.
Qed.

Lemma reapedUDP_same (svc svc' : Service) (ep : Endpoint) :
  protocol svc' = protocol svc → reapTerminatingUDP svc' = reapTerminatingUDP svc →
  reapedUDP svc' ep = reapedUDP svc ep.
Proof. unfold reapedUDP. by intros -> ->. Qed.

Section active_eps.
Variable topo : string → string → list string → bool.
Variable state : DPSyncerState.

Lemma elem_of_passEps (sn : ServicePortName) (svc : Service) (ep : Endpoint) :
  ep ∈ passEps topo state sn svc ↔
  ep ∈ default [] (EpsMap state !! sn)
  ∧ ep_IsReady ep || ep_IsTerminating ep = true
  ∧ topo (NodeZone state) (hintsAnnotation svc) (ep_ZoneHints ep) = true.
Proof.
  unfold passEps, eligibleEps. rewrite list_elem_of_filter, andb_true_iff. naive_solver.
Qed.

(** An operation of the pass keeps the records right. *)
Lemma runOp_passRecords (s : Syncer) (op : passOp) :
  passRecords topo state s → passOpOk topo state s op → passRecords topo state (runOp s op).
Proof.
  intros [Heps Hsvcs] Hok. split.
  - destruct op as [sk sinfo eps|sn t sinfo]; simpl.
    + pose proof (applySvc_effect s sk sinfo eps) as Heff. cbv zeta in Heff.
      destruct Heff as (_ & _ & _ & Heff).
      destruct ((applySvc s sk sinfo eps).2) as [err|].
      { destruct Heff as (_ & _ & -> & _). exact Heps. }
      destruct Heff as (_ & -> & _).
      destruct Hok as (svc & Hin & [(Hextra & -> & ->)|(node & Hextra & _)]).
      * unfold hasSvcKeyExtra. rewrite Hextra. intros sn eps'.
        destruct (decide (sn = sname sk)) as [->|Hne].
        -- rewrite lookup_insert_eq. intros [= <-]. by exists svc.
        -- rewrite lookup_insert_ne by done. apply Heps.
      * unfold hasSvcKeyExtra. rewrite Hextra. simpl. exact Heps.
    + pose proof (applyDerived_effect s sn t sinfo) as Heff. cbv zeta in Heff.
      destruct Heff as (_ & _ & _ & -> & _). exact Heps.
  - intros skey info Hl Hnd.
    destruct (runOp_entry s op skey info Hl) as [[Hold _]|[_ Hnew]]; [by apply Hsvcs|].
    destruct op as [sk sinfo eps|sn t sinfo].
    + destruct Hnew as (-> & -> & _). simpl.
      destruct Hok as (svc & Hin & [(_ & -> & _)|(node & _ & -> & _)]); by exists svc.
    + destruct Hnew as (prim & _ & -> & _). destruct Hok as [Ht _].
      by rewrite derived_key in Hnd.
Qed.

Lemma syncPass_passRecords (s : Syncer) :
  passRecords topo state (pl_s (syncPass topo s state)).
Proof.
  apply (passReach_invariant topo state (passRecords topo state) (passStart s)).
  - split; intros ? ?; simpl; by rewrite lookup_empty.
  - intros s1 op _ Hinv Hok. by apply runOp_passRecords.
  - apply syncPass_reach.
Qed.

End active_eps.

Lemma SvcMap_unique (state : DPSyncerState) (sn : ServicePortName) (svc svc' : Service) :
  NoDup (SvcMap state).*1 → (sn, svc) ∈ SvcMap state → (sn, svc') ∈ SvcMap state → svc = svc'.
Proof.
  intros Hnd H1 H2.
  apply (elem_of_list_to_map (M := gmap ServicePortName)) in H1, H2; [|done..].
  congruence.
Qed.

(** C6, as the code has it.  The services of the state bear distinct
    names.  After the sync pass, whatever the order in which
    [ConntrackScanStart] ranges over [newSvcMap], it returns, and: for an
    entry that brings endpoints (its backend count is not zero, its key is
    not derived and endpoints are recorded for its name), and that is the
    only such entry with its id, the active endpoints of the id are the
    (address, port) pairs of the endpoints of its service in the state
    that are ready or terminating and pass the topology filter, except
    the terminating endpoints of a UDP service that reaps them; an id to
    which no entry brings endpoints has no active endpoints. *)
Theorem ConntrackScanStart_activeEps (topo : string → string → list string → bool) (state : DPSyncerState) (s0 : Syncer) (order : list (svcKey * svcInfo)) :
  NoDup (SvcMap state).*1 →
  order ≡ₚ map_to_list (newSvcMap (pl_s (syncPass topo s0 state))) →
  let s := pl_s (syncPass topo s0 state) in
  ∃ s', ConntrackScanStartIn order s = Some s'
    ∧ (∀ skey info,
         newSvcMap s !! skey = Some info → bringsEps s skey info →
         (∀ skey' info', newSvcMap s !! skey' = Some info' → (skey', info') ≠ (skey, info) →
            bringsEps s skey' info' → si_id info' ≠ si_id info) →
         ∃ svc active,
           (sname skey, svc) ∈ SvcMap state
           ∧ activeEpsMap s' !! si_id info = Some active
           ∧ ∀ ipp, ipp ∈ active ↔
               ∃ ep, ep ∈ default [] (EpsMap state !! sname skey)
                     ∧ ipPortOf ep = ipp ∧ trackedEp topo state svc ep)
    ∧ (∀ id,
         (∀ skey info, newSvcMap s !! skey = Some info → bringsEps s skey info →
            si_id info ≠ id) →
         activeEpsMap s' !! id = None).
Proof.
  intros Hnd Hperm s. unfold ConntrackScanStartIn.
  pose proof (λ skey info, elem_of_order s order skey info Hperm) as Hel.
  destruct (syncPass_passRecords topo state s0) as [Heps Hsvcs]. fold s in Heps, Hsvcs.
  pose proof (syncPass_protocolsKnown topo state s0) as Hknown. fold s in Hknown.
  set (s1 := set_activeEpsMap ∅ (set_activeSvcsMap ∅ s)).
  destruct (scan_total order s1) as [s' Hfold].
  { intros skey info Hin _. apply (Hknown skey). by apply Hel. }
  exists s'. split; [done|]. split.
  - intros skey info Hl Hb Halone.
    pose proof (scan_activeEps_own order s1 s' skey info Hfold) as Hown.
    rewrite Hown; [|by apply Hel|exact Hb|].
    2:{ intros skey' info' Hin' Hne Hb'. apply (Halone skey' info'); [by apply Hel|done|exact Hb']. }
    change (newEpsMap s1) with (newEpsMap s).
    destruct Hb as (Hc & Hd & Hne).
    destruct (newEpsMap s !! sname skey) as [eps|] eqn:Hrec; [|done].
    destruct (Heps _ _ Hrec) as (svc & Hin & ->).
    destruct (Hsvcs skey info Hl Hd) as (svc' & Hin' & Hproto & Hreap).
    assert (svc' = svc) as -> by (by eapply SvcMap_unique).
    exists svc. eexists. split; [done|]. split; [done|].
    intros ipp. simpl. rewrite elem_of_activeEpsOf. unfold trackedEp. split.
    + intros (ep & Hep & <- & Hr). exists ep.
      apply elem_of_localsFirst, elem_of_passEps in Hep as (? & ? & ?).
      rewrite (reapedUDP_same svc (si_svc info)) in Hr by done. done.
    + intros (ep & Hep & <- & Hready & Htopo & Hr). exists ep. split.
      * apply elem_of_localsFirst, elem_of_passEps. done.
      * split; [done|]. by rewrite (reapedUDP_same svc (si_svc info)).
  - intros id Hnone.
    rewrite (scan_activeEps_other order s1 s' id Hfold).
    + unfold s1. simpl. apply lookup_empty.
    + intros skey info Hin Hb. apply (Hnone skey info); [by apply Hel|exact Hb].
Qed.

(** The theorem on [Ex.stateTerminating], whose service has a ready and a
    terminating endpoint. *)
Lemma ConntrackScanStart_activeEps_witness :
  let s := pl_s (syncPass Ex.anyZone Ex.syncer4 Ex.stateTerminating) in
  ∃ s', ConntrackScanStartIn (map_to_list (newSvcMap s)) s = Some s'
    ∧ (∀ skey info,
         newSvcMap s !! skey = Some info → bringsEps s skey info →
         (∀ skey' info', newSvcMap s !! skey' = Some info' → (skey', info') ≠ (skey, info) →
            bringsEps s skey' info' → si_id info' ≠ si_id info) →
         ∃ svc active,
           (sname skey, svc) ∈ SvcMap Ex.stateTerminating
           ∧ activeEpsMap s' !! si_id info = Some active
           ∧ ∀ ipp, ipp ∈ active ↔
               ∃ ep, ep ∈ default [] (EpsMap Ex.stateTerminating !! sname skey)
                     ∧ ipPortOf ep = ipp ∧ trackedEp Ex.anyZone Ex.stateTerminating svc ep)
    ∧ (∀ id,
         (∀ skey info, newSvcMap s !! skey = Some info → bringsEps s skey info →
            si_id info ≠ id) →
         activeEpsMap s' !! id = None).
Proof.
  apply (ConntrackScanStart_activeEps Ex.anyZone Ex.stateTerminating Ex.syncer4
           (map_to_list (newSvcMap (pl_s (syncPass Ex.anyZone Ex.syncer4 Ex.stateTerminating))))).
  - apply (bool_decide_unpack _). vm_compute. exact I.
  - reflexivity.
Defined.

(** C6 as it stands does not hold.  The service of [Ex.stateTerminating]
    has the ready endpoint [Ex.ep1] and the endpoint [Ex.epTerminating],
    which is terminating and not ready; after [Apply] and
    [ConntrackScanStart] the active endpoints of its id 0 hold both. *)
Lemma ConntrackScanStart_keeps_terminating :
  ep_IsReady Ex.epTerminating = false
  ∧ (Apply Ex.anyZone Ex.syncer4 Ex.emptyKernel Ex.stateTerminating ≫= λ a,
     ConntrackScanStart (ap_s a) ≫= λ s',
     Some (ap_err a,
           newSvcMap (ap_s a) !! getSvcKey Ex.nameA None,
           bool_decide (ipPortOf Ex.epTerminating ∈ default ∅ (activeEpsMap s' !! 0)),
           bool_decide (ipPortOf Ex.ep1 ∈ default ∅ (activeEpsMap s' !! 0))))
    = Some (None, Some (mkSvcInfo 0 1 1 Ex.svcA), true, true).
Proof. split; by vm_compute. Qed.

(** * Further properties of the code

    ** [cidrEqual] and [ServicePortEqual] *)

Lemma cidrEqual_spec {T C : Type} `{EqDecision C} (toCIDR : T → C) (a b : list T) :
  cidrEqual toCIDR a b = true ↔
  length a = length b ∧ ∀ y, y ∈ b → toCIDR y ∈ toCIDR <$> a.
Proof.
  unfold cidrEqual. destruct (Nat.eqb (length a) (length b)) eqn:Hlen; simpl.
  - apply Nat.eqb_eq in Hlen.
    assert (forallb (λ s, bool_decide (toCIDR s ∈ toCIDR <$> a)) b = true
            ↔ ∀ y, y ∈ b → toCIDR y ∈ toCIDR <$> a) as Hall.
    { rewrite forallb_forall. split.
      - intros Hb y Hy. apply list_elem_of_In, Hb in Hy. by apply bool_decide_eq_true in Hy.
      - intros Hb y Hy. apply bool_decide_eq_true, Hb. by apply list_elem_of_In. }
    destruct a as [|x [|x' a]], b as [|y [|y' b]]; try done; try (rewrite Hall; tauto).
    rewrite bool_decide_eq_true. split.
    + intros Heq. split; [done|]. intros y0 ->%list_elem_of_singleton.
      rewrite <- Heq. simpl. apply list_elem_of_here.
    + intros [_ Hin]. specialize (Hin y (list_elem_of_here _ _)).
      simpl in Hin. apply list_elem_of_singleton in Hin. done.
  - apply Nat.eqb_neq in Hlen. split; [done|]. by intros [? _].
Qed.

(** X1.  [cidrEqual] accepts a list compared with itself.  When no CIDR
    occurs twice in the second list, it accepts exactly when the two lists
    hold the same CIDRs up to order.  Without that condition it only
    checks that the lists are equally long and that every CIDR of the
    second is among those of the first: a second list that repeats an
    element is accepted although the first holds an element that the
    second lacks. *)
Theorem cidrEqual_same_set {T C : Type} `{EqDecision C} (toCIDR : T → C) (a b : list T) :
  cidrEqual toCIDR a a = true
  ∧ (NoDup (toCIDR <$> b) →
     (cidrEqual toCIDR a b = true ↔ toCIDR <$> a ≡ₚ toCIDR <$> b))
  ∧ (∀ x y l, cidrEqual toCIDR (x :: y :: l) (x :: x :: l) = true).
Proof.
  split; [|split].
  - apply cidrEqual_spec. split; [done|]. intros y Hy. by apply list_elem_of_fmap_2.
  - intros Hnd. rewrite cidrEqual_spec. split.
    + intros [Hlen Hsub]. symmetry. apply submseteq_length_Permutation.
      * apply NoDup_submseteq; [done|]. intros c (y & -> & Hy)%list_elem_of_fmap.
        by apply Hsub.
      * by rewrite !length_fmap, Hlen.
    + intros Hperm. split.
      * apply Permutation_length in Hperm. by rewrite !length_fmap in Hperm.
      * intros y Hy. rewrite Hperm. by apply list_elem_of_fmap_2.
  - intros x y l. apply cidrEqual_spec. split; [done|]. intros z Hz.
    apply list_elem_of_fmap_2.
    apply elem_of_cons in Hz as [->|Hz]; [apply list_elem_of_here|].
    apply elem_of_cons in Hz as [->|Hz]; [apply list_elem_of_here|].
    by do 2 apply list_elem_of_further.
Qed.

(** The theorem on the external addresses [10.0.0.9; 10.0.0.8] against
    the same two in the other order. *)
Lemma cidrEqual_same_set_witness :
  cidrEqual CIDRFromNetIP [IPv4 167772169; IPv4 167772168] [IPv4 167772168; IPv4 167772169]
  = true.
Proof.
  destruct (cidrEqual_same_set CIDRFromNetIP [IPv4 167772169; IPv4 167772168]
              [IPv4 167772168; IPv4 167772169]) as (_ & Hiff & _).
  apply Hiff.
  - apply (bool_decide_unpack _). vm_compute. exact I.
  - apply Permutation_swap.
Defined.

(** X2.  [ServicePortEqual] holds of a service port and itself; when it
    holds, the two service ports have the same cluster address, port,
    protocol, node port, health-check node port, session affinity and
    its maximal age, traffic policies and hints annotation; and it does
    not look at the annotations [ExcludeService] and [ReapTerminatingUDP]
    that [Service] adds to the service port. *)
Theorem ServicePortEqual_refl_sound (a b : Service) (exclude reap : bool) :
  ServicePortEqual a a = true
  ∧ (ServicePortEqual a b = true →
     clusterIP a = clusterIP b ∧ port a = port b ∧ protocol a = protocol b
     ∧ nodePort a = nodePort b ∧ healthCheckNodePort a = healthCheckNodePort b
     ∧ sessionAffinityType a = sessionAffinityType b
     ∧ stickyMaxAgeSeconds a = stickyMaxAgeSeconds b
     ∧ nodeLocalExternal a = nodeLocalExternal b
     ∧ nodeLocalInternal a = nodeLocalInternal b
     ∧ hintsAnnotation a = hintsAnnotation b)
  ∧ ServicePortEqual (withAnnotations exclude reap a) b = ServicePortEqual a b
  ∧ ServicePortEqual a (withAnnotations exclude reap b) = ServicePortEqual a b.
Proof.
  split; [|split; [|split]].
  - unfold ServicePortEqual.
    rewrite !bool_decide_eq_true_2, !Z.eqb_refl, !eqb_reflx by done.
    by rewrite !(proj1 (cidrEqual_same_set _ _ [])).
  - unfold ServicePortEqual. rewrite !andb_true_iff, !bool_decide_eq_true, !Z.eqb_eq, !eqb_true_iff.
    tauto.
  - done.
  - done.
Qed.

(** ** [NewSyncer] and [uniqueIPs] *)

(** The first loop of [uniqueIPs]: the map holds every address seen so
    far under its own key, and the flag is still set exactly when no
    address was seen twice. *)
Lemma uniqueStep_fold (ips : list IP) (l : uniqueLoop) :
  let l' := foldl uniqueStep l ips in
  (∀ k v, ul_m l !! k = Some v → v = k) →
  (∀ k v, ul_m l' !! k = Some v → v = k)
  ∧ (∀ k, is_Some (ul_m l' !! k) ↔ is_Some (ul_m l !! k) ∨ k ∈ ips)
  ∧ (ul_unique l' = true ↔
       ul_unique l = true ∧ NoDup ips ∧ ∀ k, k ∈ ips → ul_m l !! k = None).
Proof.
  revert l. induction ips as [|ip ips IH]; intros l l' Hid.
  - split; [done|]. split.
    + intros k. split; [by left|]. intros [?|Hin]; [done|]. by apply elem_of_nil in Hin.
    + split; [|by intros (? & _)]. intros Hu. split; [done|]. split; [constructor|].
      intros k Hin. by apply elem_of_nil in Hin.
  - subst l'. cbn [foldl].
    assert (∀ k v, ul_m (uniqueStep l ip) !! k = Some v → v = k) as Hid'.
    { intros k v. unfold uniqueStep. destruct (ul_m l !! ip) eqn:Hip; simpl; [apply Hid|].
      destruct (decide (k = ip)) as [->|Hne].
      - rewrite lookup_insert_eq. by intros [= <-].
      - rewrite lookup_insert_ne by done. apply Hid. }
    destruct (IH (uniqueStep l ip) Hid') as (IH1 & IH2 & IH3). split; [done|]. split.
    + intros k. rewrite IH2, elem_of_cons. unfold uniqueStep.
      destruct (ul_m l !! ip) as [v|] eqn:Hip; simpl.
      * split; [intros [?|?]; auto|]. intros [?|[->|?]]; auto.
      * destruct (decide (k = ip)) as [->|Hne].
        -- rewrite lookup_insert_eq. split; [auto|]. intros _. by left.
        -- rewrite lookup_insert_ne by done. split; [intros [?|?]; auto|].
           intros [?|[?|?]]; auto. done.
    + rewrite IH3, NoDup_cons. unfold uniqueStep.
      destruct (ul_m l !! ip) as [v|] eqn:Hip; simpl.
      * split; [by intros (? & _)|]. intros (_ & _ & Hnone).
        rewrite (Hnone ip) in Hip; [done|]. by left.
      * split.
        -- intros (Hu & Hnd & Hnone). split; [done|]. split.
           ++ split; [|done]. intros Hin. specialize (Hnone ip Hin).
              by rewrite lookup_insert_eq in Hnone.
           ++ intros k [->|Hin]%elem_of_cons; [done|].
              specialize (Hnone k Hin). destruct (decide (k = ip)) as [->|Hne]; [done|].
              by rewrite lookup_insert_ne in Hnone.
        -- intros (Hu & (Hnin & Hnd) & Hnone). split; [done|]. split; [done|].
           intros k Hin. rewrite lookup_insert_ne; [apply Hnone; by right|].
           by intros ->.
Qed.

(** X3.  [uniqueIPs], through which [NewSyncer] takes the node-port
    addresses: the flag [unique] of its first loop is left set exactly
    when no address of the list repeats, and the list is then returned as
    it is; otherwise the result is read off the map of the loop.  Either
    way the result has no repetition, holds exactly the addresses given,
    and is a permutation of the list given with the repetitions removed
    (the order is that of the enumeration of the map).  So the node-port
    addresses of a syncer made by [NewSyncer] never repeat. *)
Theorem uniqueIPs_no_repetition (ips : list IP) :
  (ul_unique (foldl uniqueStep (mkUniqueLoop ∅ true) ips) = true ↔ NoDup ips)
  ∧ NoDup (uniqueIPs ips)
  ∧ (∀ x, x ∈ uniqueIPs ips ↔ x ∈ ips)
  ∧ (NoDup ips → uniqueIPs ips = ips)
  ∧ uniqueIPs ips ≡ₚ remove_dups ips
  ∧ (∀ family rt excluded s,
       NewSyncer family ips rt excluded = Some s →
       NoDup (nodePortIPs s) ∧ ∀ x, x ∈ nodePortIPs s ↔ x ∈ ips).
Proof.
  destruct (uniqueStep_fold ips (mkUniqueLoop ∅ true)) as (Hid & Hdom & Hu); [done|].
  cbn [ul_m ul_unique] in Hdom, Hu.
  assert (ul_unique (foldl uniqueStep (mkUniqueLoop ∅ true) ips) = true ↔ NoDup ips) as Hflag.
  { rewrite Hu. split; [by intros (_ & ? & _)|]. intros Hnd. split; [done|]. split; [done|].
    intros k _. apply lookup_empty. }
  assert (NoDup (uniqueIPs ips)) as Hnd.
  { unfold uniqueIPs. cbv zeta.
    destruct (ul_unique _) eqn:Hflg; [by apply Hflag|].
    set (m := ul_m (foldl uniqueStep (mkUniqueLoop ∅ true) ips)) in *.
    assert ((map_to_list m).*2 = (map_to_list m).*1) as ->.
    { apply Forall_fmap_ext_1, Forall_forall.
      intros [k v] Hin%elem_of_map_to_list. simpl. by apply Hid. }
    apply NoDup_fst_map_to_list. }
  assert (∀ x, x ∈ uniqueIPs ips ↔ x ∈ ips) as Hel.
  { intros x. unfold uniqueIPs. cbv zeta. destruct (ul_unique _); [done|].
    rewrite list_elem_of_fmap. split.
    - intros ([k v] & -> & Hin%elem_of_map_to_list). simpl.
      pose proof (Hid k v Hin) as ->. destruct (proj1 (Hdom k)) as [[? Hemp]|?]; [by eexists|..|done].
      by rewrite lookup_empty in Hemp.
    - intros Hin. destruct (proj2 (Hdom x)) as [v Hv]; [by right|].
      exists (x, v). split; [simpl; symmetry; by apply Hid|by apply elem_of_map_to_list]. }
  split; [done|]. split; [done|]. split; [done|]. split.
  { intros Hnd'. unfold uniqueIPs. cbv zeta. by rewrite (proj2 Hflag Hnd'). }
  split.
  { apply NoDup_Permutation; [done|apply NoDup_remove_dups|].
    intros x. by rewrite Hel, elem_of_remove_dups. }
  intros family rt excluded s. unfold NewSyncer.
  destruct ((family =? 4) || (family =? 6)); [|done]. by intros [= <-].
Qed.

(** ** [expandNodePorts] *)

Lemma expandStep_ipToEp sn sinfo nport lookup (l : expandLoop) (ep : Endpoint) (node : IP) :
  el_ipToEp (expandStep sn sinfo nport lookup l ep) !! node =
  if decide (remoteNode lookup ep = Some node)
  then Some (default [] (el_ipToEp l !! node) ++ [ep])
  else el_ipToEp l !! node.
Proof.
  unfold expandStep, remoteNode. destruct (lookup (ep_IP ep)) as [rt|]; simpl.
  - destruct (negb (Z.land (rv_Flags rt) FlagWorkload =? 0)
              && (Z.land (rv_Flags rt) FlagLocal =? 0)); simpl.
    + case_decide as Hn.
      * injection Hn as ->. by rewrite lookup_insert_eq.
      * rewrite lookup_insert_ne; [done|]. intros Heq. apply Hn. by rewrite Heq.
    + done.
  - done.
Qed.

Lemma nonEmpty_elem {A : Type} (l : list A) (x : A) : x ∈ l → nonEmpty l = Some l.
Proof. destruct l; [by intros ?%elem_of_nil|done]. Qed.

Lemma expandStep_fold_ipToEp sn sinfo nport lookup (eps : list Endpoint) (node : IP) :
  el_ipToEp (foldl (expandStep sn sinfo nport lookup) (mkExpandLoop ∅ None) eps) !! node =
  nonEmpty (filter (λ ep, remoteNode lookup ep = Some node) eps).
Proof.
  induction eps as [|ep eps IH] using rev_ind; [apply lookup_empty|].
  rewrite foldl_app. simpl. rewrite expandStep_ipToEp, IH, filter_app.
  set (l := filter (λ ep, remoteNode lookup ep = Some node) eps).
  case_decide as Hn.
  - rewrite filter_cons_True, filter_nil by done. destruct l; by simpl.
  - rewrite filter_cons_False, filter_nil, app_nil_r by done. done.
Qed.

(** X4.  [expandNodePorts] sorts the endpoints by their routes.  An
    endpoint without a route goes to the miss, which holds these
    endpoints in their order (and is nil when every endpoint has a
    route); an endpoint whose route is that of a workload that is not
    local goes to the list of the next hop of the route, which holds
    these endpoints in their order; any other endpoint is dropped.  No
    node has an empty list. *)
Theorem expandNodePorts_by_route (s : Syncer) (sn : ServicePortName) (sinfo : Service) (eps : list Endpoint) (nport : Z) (lookup : IP → option RouteValue) :
  let r := expandNodePorts s sn sinfo eps nport lookup in
  (∀ node, r.1 !! node = nonEmpty (filter (λ ep, remoteNode lookup ep = Some node) eps))
  ∧ r.2 = (λ un, mkExpandMiss sn sinfo un nport)
            <$> nonEmpty (filter (λ ep, lookup (ep_IP ep) = None) eps)
  ∧ (∀ ep, ep ∈ eps →
       (lookup (ep_IP ep) = None ∧ ∃ m, r.2 = Some m ∧ ep ∈ em_eps m)
       ∨ (∃ node neps, remoteNode lookup ep = Some node
                       ∧ r.1 !! node = Some neps ∧ ep ∈ neps)
       ∨ (is_Some (lookup (ep_IP ep)) ∧ remoteNode lookup ep = None)).
Proof.
  intros r. subst r.
  assert (∀ node, (expandNodePorts s sn sinfo eps nport lookup).1 !! node
                  = nonEmpty (filter (λ ep, remoteNode lookup ep = Some node) eps)) as Hmap.
  { intros node. unfold expandNodePorts. simpl. apply expandStep_fold_ipToEp. }
  assert ((expandNodePorts s sn sinfo eps nport lookup).2
          = (λ un, mkExpandMiss sn sinfo un nport)
              <$> nonEmpty (filter (λ ep, lookup (ep_IP ep) = None) eps)) as Hmiss.
  { rewrite expandNodePorts_miss. unfold stillMissing, unrouted. simpl.
    by destruct (filter _ eps). }
  split; [done|]. split; [done|]. intros ep Hin.
  destruct (lookup (ep_IP ep)) as [rt|] eqn:Hrt.
  - right. destruct (remoteNode lookup ep) as [node|] eqn:Hnode.
    + left. exists node.
      assert (ep ∈ filter (λ ep, remoteNode lookup ep = Some node) eps) as Hf
        by (by apply list_elem_of_filter).
      rewrite Hmap. eexists. split; [done|]. split; [by apply (nonEmpty_elem _ ep)|done].
    + by right.
  - left. split; [done|]. rewrite Hmiss.
    assert (ep ∈ filter (λ ep, lookup (ep_IP ep) = None) eps) as Hf
      by (by apply list_elem_of_filter).
    rewrite (nonEmpty_elem _ _ Hf). by eexists.
Qed.

(** ** The errors of the sync pass *)

Lemma applySvc_error (s : Syncer) (skey : svcKey) (sinfo : Service) (eps : list Endpoint) :
  (applySvc s skey sinfo eps).2 = (ProtoV1ToInt (protocol sinfo)).2.
Proof.
  pose proof (applySvc_effect s skey sinfo eps) as Heff. cbv zeta in Heff.
  destruct Heff as (_ & _ & _ & Heff).
  destruct ((applySvc s skey sinfo eps).2) as [err|].
  - destruct Heff as (-> & _). done.
  - destruct Heff as (_ & _ & pn & flags & -> & _). done.
Qed.

Lemma ProtoV1ToInt_error (p : Protocol) :
  (ProtoV1ToInt p).2 = if bool_decide (ProtoV1ToIntPanic p = None)
                       then Some (ErrUnknownProtocol p) else None.
Proof. by destruct p. Qed.

Section pass_error.
Variable topo : string → string → list string → bool.
Variable state : DPSyncerState.

Lemma applyService_error (p : passLoop) (entry : ServicePortName * Service) :
  pl_err (applyService topo state p entry) =
  match pl_err p with
  | Some e => Some e
  | None => if unknownProtocol entry then Some (ErrUnknownProtocol (protocol entry.2)) else None
  end.
Proof.
  destruct entry as [sn svc]. unfold applyService, unknownProtocol.
  destruct (pl_err p) as [e|] eqn:Hp; [done|]. cbn [snd].
  rewrite <- ProtoV1ToInt_error, <- (applySvc_error (pl_s p) (getSvcKey sn None) svc
    (eligibleEps topo (NodeZone state) svc (default [] (EpsMap state !! sn)))).
  destruct (applySvc _ _ _ _) as [s1 [err|]]; [done|]. cbn [snd].
  destruct (negb (nodePort svc =? 0)); [|done].
  destruct (nodeLocalInternal svc); [|done].
  by destruct (expandAndApplyNodePorts _ _ _ _ _ _) as [s2 [miss|]].
Qed.

Lemma applyService_fold_error (l : list (ServicePortName * Service)) (p : passLoop) :
  pl_err (foldl (applyService topo state) p l) =
  match pl_err p with
  | Some e => Some e
  | None => (λ e, ErrUnknownProtocol (protocol e.2)) <$> List.find unknownProtocol l
  end.
Proof.
  revert p. induction l as [|entry l IH]; intros p; simpl.
  - by destruct (pl_err p).
  - rewrite IH, applyService_error. destruct (pl_err p); [done|].
    by destruct (unknownProtocol entry).
Qed.

End pass_error.

(** X5.  The service loop of [apply] fails exactly when a service of the
    state has a protocol other than TCP, UDP and SCTP; the error is that
    of [ProtoV1ToInt] for the first such service in the order of the
    loop.  A failure to write a derived entry or a remote node port never
    fails the loop.  [apply] then returns that error without a write to
    the kernel. *)
Theorem syncPass_fails_on_unknown_protocol (topo : string → string → list string → bool) (s : Syncer) (k : Kernel) (state : DPSyncerState) :
  pl_err (syncPass topo s state)
  = (λ e, ErrUnknownProtocol (protocol e.2)) <$> List.find unknownProtocol (SvcMap state)
  ∧ (∀ e, pl_err (syncPass topo s state) = Some e →
       ap_err (apply topo s k state) = Some e
       ∧ ap_writes (apply topo s k state) = []
       ∧ ap_k (apply topo s k state) = k).
Proof.
  split.
  - unfold syncPass. by rewrite applyService_fold_error.
  - intros e He. unfold apply. by rewrite He.
Qed.

(** ** Cold start: the index and the classification *)

Lemma insertAll_lookup {K V : Type} `{Countable K} (keys : list K) (v : V) (m : gmap K V) (k : K) :
  foldl (λ m key, <[key := v]> m) m keys !! k = if decide (k ∈ keys) then Some v else m !! k.
Proof.
  revert m. induction keys as [|key keys IH]; intros m.
  - case_decide as Hin; [by apply elem_of_nil in Hin|done].
  - cbn [foldl]. rewrite IH. destruct (decide (k ∈ keys)) as [Hin|Hnin].
    + rewrite decide_True; [done|by right].
    + destruct (decide (k = key)) as [->|Hne].
      * rewrite lookup_insert_eq. rewrite decide_True; [done|by left].
      * rewrite lookup_insert_ne by done.
        rewrite decide_False; [done|]. by intros [?|?]%elem_of_cons.
Qed.

Lemma svcRefStep_spec (s : Syncer) (ref : gmap FrontendKey syncRef) (key : ServicePortName) (svc : Service) :
  svcRefStep s (Some ref) (key, svc) =
  pn ← ProtoV1ToIntPanic (protocol svc);
  Some (foldl (λ m k, <[k := mkSyncRef key svc]> m) ref (svcRefKeys s svc pn)).
Proof.
  unfold svcRefStep, svcRefKeys. simpl.
  destruct (ProtoV1ToIntPanic (protocol svc)) as [pn|]; simpl; [|done].
  f_equal. destruct (negb (nodePort svc =? 0)); simpl.
  - by rewrite foldl_app, !foldl_fmap.
  - by rewrite foldl_fmap.
Qed.

Lemma svcRefStep_None (s : Syncer) (l : list (ServicePortName * Service)) :
  foldl (svcRefStep s) None l = None.
Proof. by induction l. Qed.

(** The index after the services [l], from the index [ref]. *)
Lemma svcRef_fold (s : Syncer) (l : list (ServicePortName * Service)) (ref : gmap FrontendKey syncRef) :
  (foldl (svcRefStep s) (Some ref) l = None ↔ ∃ e, e ∈ l ∧ unknownProtocol e = true)
  ∧ ∀ ref', foldl (svcRefStep s) (Some ref) l = Some ref' →
      ∀ k,
        (is_Some (ref' !! k) ↔
           is_Some (ref !! k)
           ∨ ∃ sn svc pn, (sn, svc) ∈ l ∧ ProtoV1ToIntPanic (protocol svc) = Some pn
                          ∧ k ∈ svcRefKeys s svc pn)
        ∧ ∀ xref, ref' !! k = Some xref →
            ref !! k = Some xref
            ∨ ((sr_svc xref, sr_info xref) ∈ l
               ∧ ∃ pn, ProtoV1ToIntPanic (protocol (sr_info xref)) = Some pn
                       ∧ k ∈ svcRefKeys s (sr_info xref) pn).
Proof.
  revert ref. induction l as [|[sn svc] l IH]; intros ref.
  - split.
    + split; [done|]. by intros (e & ?%elem_of_nil & _).
    + simpl. intros ref' [= <-] k. split; [|by left].
      split; [by left|]. intros [?|(? & ? & ? & ?%elem_of_nil & _)]; done.
  - cbn [foldl]. rewrite svcRefStep_spec.
    destruct (ProtoV1ToIntPanic (protocol svc)) as [pn|] eqn:Hpn; simpl.
    + destruct (IH (foldl (λ m k, <[k := mkSyncRef sn svc]> m) ref (svcRefKeys s svc pn)))
        as [IHnone IHsome].
      split.
      * rewrite IHnone. split.
        -- intros (e & Hin & He). exists e. split; [by right|done].
        -- intros (e & Hin & He). apply elem_of_cons in Hin as [->|Hin].
           ++ unfold unknownProtocol in He. simpl in He.
              apply bool_decide_eq_true in He. congruence.
           ++ by exists e.
      * intros ref' Hfold k. destruct (IHsome ref' Hfold k) as [Hdom Hval]. split.
        -- rewrite Hdom, insertAll_lookup. split.
           ++ intros [Hk|(sn' & svc' & pn' & Hin & Hp & Hkeys)].
              ** case_decide as Hin; [|by left]. right. exists sn, svc, pn.
                 split; [by left|done].
              ** right. exists sn', svc', pn'. split; [by right|done].
           ++ intros [Hk|(sn' & svc' & pn' & Hin & Hp & Hkeys)].
              ** left. by case_decide.
              ** apply elem_of_cons in Hin as [[= -> ->]|Hin].
                 --- left. assert (pn' = pn) as -> by congruence.
                     by rewrite decide_True.
                 --- right. by exists sn', svc', pn'.
        -- intros xref Hx. destruct (Hval xref Hx) as [Hk|[Hin Hkeys]].
           ++ rewrite insertAll_lookup in Hk. case_decide as Hin; [|by left].
              injection Hk as <-. right. simpl. split; [by left|]. by exists pn.
           ++ right. split; [by right|done].
    + rewrite svcRefStep_None. split.
      * split; [|done]. intros _. exists (sn, svc). split; [by left|].
        unfold unknownProtocol. simpl. by apply bool_decide_eq_true.
      * done.
Qed.

(** X6.  [svcMapToIPPortProtoMap] panics exactly when a service has a
    protocol other than TCP, UDP and SCTP.  Otherwise the index holds a
    key exactly when a service files it: under its cluster address and
    port; if it has a node port, under its cluster address and every
    node-port address of the syncer with the node port; under each
    external address with its port; always with the zero source CIDR of
    the family.  Load-balancer addresses are not indexed.  The service
    that a key refers to is one that files it. *)
Theorem svcMapToIPPortProtoMap_index (s : Syncer) (svcs : list (ServicePortName * Service)) :
  (svcMapToIPPortProtoMap s svcs = None ↔ ∃ e, e ∈ svcs ∧ unknownProtocol e = true)
  ∧ ∀ ref, svcMapToIPPortProtoMap s svcs = Some ref →
      ∀ k,
        (is_Some (ref !! k) ↔
           ∃ sn svc pn, (sn, svc) ∈ svcs ∧ ProtoV1ToIntPanic (protocol svc) = Some pn
                        ∧ k ∈ svcRefKeys s svc pn)
        ∧ ∀ xref, ref !! k = Some xref →
            (sr_svc xref, sr_info xref) ∈ svcs
            ∧ ∃ pn, ProtoV1ToIntPanic (protocol (sr_info xref)) = Some pn
                    ∧ k ∈ svcRefKeys s (sr_info xref) pn.
Proof.
  unfold svcMapToIPPortProtoMap. destruct (svcRef_fold s svcs ∅) as [Hnone Hsome].
  split; [done|]. intros ref Href k. destruct (Hsome ref Href k) as [Hdom Hval]. split.
  - rewrite Hdom. split; [|by right].
    intros [Hk|?]; [|done]. rewrite lookup_empty in Hk. by destruct Hk.
  - intros xref Hx. destruct (Hval xref Hx) as [Hk|?]; [|done].
    by rewrite lookup_empty in Hk.
Qed.

(** ** [matchBpfSvc] *)

Lemma find_elem {A : Type} (f : A → bool) (l : list A) (x : A) :
  List.find f l = Some x → x ∈ l ∧ f x = true.
Proof. intros [Hin Hf]%find_some. split; [by apply list_elem_of_In|done]. Qed.

Lemma matchNP_sound (s : Syncer) (bpfSvc : FrontendKey) (k8sSvc : ServicePortName) (k8sInfo : Service) (skey : svcKey) :
  matchNP s bpfSvc k8sSvc k8sInfo = Some skey →
  sname skey = k8sSvc ∧ matchedAs s bpfSvc k8sInfo skey.
Proof.
  unfold matchNP, matchedAs.
  destruct (fk_Port bpfSvc =? uint16 (nodePort k8sInfo)) eqn:Hport; [|done].
  apply Z.eqb_eq in Hport.
  destruct (List.find _ (nodePortIPs s)) as [nip|] eqn:Hfind; [|done].
  apply find_elem in Hfind as [Hin Heq]. apply bool_decide_eq_true in Heq.
  intros [= <-]. simpl. split; [done|]. split; [done|]. by left.
Qed.

(** X7.  The key that [matchBpfSvc] returns for a frontend of the kernel
    and a candidate service bears the name of the candidate, and it is:
    the primary key, when the frontend has the cluster address and the
    port of the service and the IPv4 zero source CIDR; a node-port key of
    one of the node-port addresses of the syncer, which is the address of
    the frontend, when the port of the frontend is the node port; an
    external-address or load-balancer key of one of these addresses of
    the service, which is the address of the frontend, when the port is
    that of the service and the source-range test accepts the frontend.
    It is never a key of a remote node port. *)
Theorem matchBpfSvc_sound (s : Syncer) (bpfSvc : FrontendKey) (k8sSvc : ServicePortName) (k8sInfo : Service) (skey : svcKey) :
  matchBpfSvc s bpfSvc k8sSvc k8sInfo = Some skey →
  sname skey = k8sSvc
  ∧ matchedAs s bpfSvc k8sInfo skey
  ∧ hasSvcKeyExtra skey svcTypeNodePortRemote = false.
Proof.
  intros Hm.
  cut (sname skey = k8sSvc ∧ matchedAs s bpfSvc k8sInfo skey).
  { intros [Hn Has]. split; [done|]. split; [done|].
    unfold hasSvcKeyExtra. unfold matchedAs in Has.
    destruct (extra skey) as [[t ip]|]; [|done].
    destruct Has as (_ & [(-> & _)|[(-> & _)|(-> & _)]]); done. }
  revert Hm. unfold matchBpfSvc.
  destruct (fk_Port bpfSvc =? uint16 (port k8sInfo)) eqn:Hport; simpl;
    [|apply matchNP_sound].
  apply Z.eqb_eq in Hport.
  destruct (bool_decide (fk_Addr bpfSvc = clusterIP k8sInfo)
            && bool_decide (fk_SrcCIDR bpfSvc = ZeroCIDR)) eqn:Hprim.
  { apply andb_true_iff in Hprim as [Ha Hc].
    apply bool_decide_eq_true in Ha, Hc. intros [= <-]. by unfold matchedAs. }
  destruct (List.find _ (externalIPs k8sInfo)) as [eip|] eqn:Hext.
  { apply find_elem in Hext as [Hin Heq]. apply andb_true_iff in Heq as [Ha Hsrc].
    apply bool_decide_eq_true in Ha. intros [= <-]. unfold matchedAs. simpl.
    split; [done|]. split; [done|]. right. left. done. }
  destruct (List.find _ (loadBalancerVIPs k8sInfo)) as [lbip|] eqn:Hlb.
  { apply find_elem in Hlb as [Hin Heq]. apply andb_true_iff in Heq as [Heq Hsrc].
    apply andb_true_iff in Heq as [Hlen Ha].
    apply bool_decide_eq_true in Ha. intros [= <-]. unfold matchedAs. simpl.
    split; [done|]. split; [done|]. right. right. split_and!; try done.
    intros ->. done. }
  apply matchNP_sound.
Qed.

(** The theorem on the frontend of [Ex.svcA] in [Ex.kernelMissingSlot]. *)
Lemma matchBpfSvc_sound_witness :
  sname (getSvcKey Ex.nameA None) = Ex.nameA
  ∧ matchedAs Ex.syncer4 Ex.keyA Ex.svcA (getSvcKey Ex.nameA None)
  ∧ hasSvcKeyExtra (getSvcKey Ex.nameA None) svcTypeNodePortRemote = false.
Proof.
  apply (matchBpfSvc_sound Ex.syncer4 Ex.keyA Ex.nameA Ex.svcA (getSvcKey Ex.nameA None)).
  vm_compute. reflexivity.
Defined.

(** ** Cold start: what is recovered *)

Lemma lookupSvc_Some (svcs : list (ServicePortName * Service)) (sn : ServicePortName) (svc : Service) :
  lookupSvc svcs sn = Some svc → (sn, svc) ∈ svcs.
Proof.
  unfold lookupSvc. destruct (List.find _ svcs) as [[sn' svc']|] eqn:Hfind; [|done].
  apply find_elem in Hfind as [Hin Heq]. apply bool_decide_eq_true in Heq. simpl in Heq.
  intros [= <-]. by subst.
Qed.

Lemma lookupSvc_is_Some (svcs : list (ServicePortName * Service)) (sn : ServicePortName) (svc : Service) :
  (sn, svc) ∈ svcs → is_Some (lookupSvc svcs sn).
Proof.
  intros Hin. unfold lookupSvc.
  destruct (List.find (λ e, bool_decide (e.1 = sn)) svcs) as [e|] eqn:Hfind; [by eexists|].
  apply list_elem_of_In in Hin. eapply find_none in Hfind; [|exact Hin].
  simpl in Hfind. by rewrite bool_decide_eq_true_2 in Hfind.
Qed.

Lemma matchBpfSvc_sname (s : Syncer) (bpfSvc : FrontendKey) (k8sSvc : ServicePortName) (k8sInfo : Service) (skey : svcKey) :
  matchBpfSvc s bpfSvc k8sSvc k8sInfo = Some skey →
  sname skey = k8sSvc ∧ matchedAs s bpfSvc k8sInfo skey.
Proof.
  unfold matchBpfSvc.
  destruct (fk_Port bpfSvc =? uint16 (port k8sInfo)) eqn:Hport; simpl;
    [|apply matchNP_sound].
  apply Z.eqb_eq in Hport.
  destruct (bool_decide (fk_Addr bpfSvc = clusterIP k8sInfo)
            && bool_decide (fk_SrcCIDR bpfSvc = ZeroCIDR)) eqn:Hprim.
  { apply andb_true_iff in Hprim as [Ha Hc].
    apply bool_decide_eq_true in Ha, Hc. intros [= <-]. by unfold matchedAs. }
  destruct (List.find _ (externalIPs k8sInfo)) as [eip|] eqn:Hext.
  { apply find_elem in Hext as [Hin Heq]. apply andb_true_iff in Heq as [Ha Hsrc].
    apply bool_decide_eq_true in Ha. intros [= <-]. unfold matchedAs. simpl.
    split; [done|]. split; [done|]. right. left. done. }
  destruct (List.find _ (loadBalancerVIPs k8sInfo)) as [lbip|] eqn:Hlb.
  { apply find_elem in Hlb as [Hin Heq]. apply andb_true_iff in Heq as [Heq Hsrc].
    apply andb_true_iff in Heq as [Hlen Ha].
    apply bool_decide_eq_true in Ha. intros [= <-]. unfold matchedAs. simpl.
    split; [done|]. split; [done|]. right. right. split_and!; try done.
    intros ->. done. }
  apply matchNP_sound.
Qed.

Lemma matchedAs_not_remote (s : Syncer) (bpfSvc : FrontendKey) (k8sInfo : Service) (skey : svcKey) :
  matchedAs s bpfSvc k8sInfo skey → hasSvcKeyExtra skey svcTypeNodePortRemote = false.
Proof.
  unfold hasSvcKeyExtra, matchedAs. destruct (extra skey) as [[t ip]|]; [|done].
  intros (_ & [(-> & _)|[(-> & _)|(-> & _)]]); done.
Qed.

Lemma matchedAs_same (s s' : Syncer) (bpfSvc : FrontendKey) (k8sInfo : Service) (skey : svcKey) :
  nodePortIPs s' = nodePortIPs s → matchedAs s bpfSvc k8sInfo skey → matchedAs s' bpfSvc k8sInfo skey.
Proof. unfold matchedAs. by intros ->. Qed.

Lemma sameButPrevEps_refl (s : Syncer) : sameButPrevEps s s.
Proof. by unfold sameButPrevEps. Qed.

Lemma readBackends_same (n : nat) (i id : Z) (sn : ServicePortName) (s : Syncer) :
  sameButPrevEps s (readBackends n i id sn s).1.
Proof.
  revert i s. induction n as [|n IH]; intros i s; simpl; [apply sameButPrevEps_refl|].
  destruct (cm_dataplane (bpfEps s) !! _) as [ep|]; [|apply sameButPrevEps_refl].
  destruct (IH (i + 1) (set_prevEpsMap
    (<[sn := default [] (prevEpsMap s !! sn) ++ [NewEndpointInfo (bv_Addr ep) (bv_Port ep)]]>
       (prevEpsMap s)) s)) as (H1 & H2 & H3 & H4 & H5 & H6 & H7 & H8).
  unfold sameButPrevEps. by rewrite H1, H2, H3, H4, H5, H6, H7, H8.
Qed.

(** One turn of the callback of [startupBuildPrev]. *)
Lemma buildPrevStep_cases (state : DPSyncerState) (svcRef : gmap FrontendKey syncRef) (s0 s1 : Syncer) (inc0 inc1 : bool) (svck : FrontendKey) (svcv : FrontendValue) :
  buildPrevStep state svcRef (Some (s0, inc0)) (svck, svcv) = Some (s1, inc1) →
  (s1 = s0 ∧ inc1 = inc0)
  ∨ ∃ xref svckey svc,
      svcRef !! svck = Some xref
      ∧ matchBpfSvc s0 svck (sr_svc xref) (sr_info xref) = Some svckey
      ∧ lookupSvc (SvcMap state) (sname svckey) = Some svc
      ∧ prevSvcMap s1 =
          <[svckey := mkSvcInfo (fv_ID svcv) (fv_Count svcv) (fv_LocalCount svcv) svc]>
            (prevSvcMap s0)
      ∧ nextSvcID s1 =
          (if fv_ID svcv >=? nextSvcID s0 then uint32 (fv_ID svcv + 1) else nextSvcID s0)
      ∧ nodePortIPs s1 = nodePortIPs s0 ∧ ipFamily s1 = ipFamily s0
      ∧ bpfSvcs s1 = bpfSvcs s0 ∧ bpfEps s1 = bpfEps s0
      ∧ newSvcMap s1 = newSvcMap s0 ∧ synced s1 = synced s0.
Proof.
  unfold buildPrevStep. simpl.
  destruct (svcRef !! svck) as [xref|] eqn:Href; [|intros [= <- <-]; by left].
  destruct (matchBpfSvc s0 svck (sr_svc xref) (sr_info xref)) as [svckey|] eqn:Hmatch;
    [|intros [= <- <-]; by left].
  destruct (lookupSvc (SvcMap state) (sname svckey)) as [svc|] eqn:Hsvc; simpl; [|done].
  intros Hstep. right. exists xref, svckey, svc. split; [done|]. split; [done|].
  split; [done|].
  destruct (extra svckey).
  - injection Hstep as <- <-. by destruct (fv_ID svcv >=? nextSvcID _).
  - match type of Hstep with
    | context [readBackends ?n ?i ?id ?sn ?s2] =>
        pose proof (readBackends_same n i id sn s2) as Hrb;
        destruct (readBackends n i id sn s2) as [s3 missing]
    end.
    injection Hstep as <- <-. simpl in Hrb.
    destruct Hrb as (H1 & H2 & H3 & H4 & H5 & H6 & H7 & H8).
    rewrite H1, H2, H3, H4, H5, H6, H7, H8.
    by destruct (fv_Count svcv >? 0), (fv_ID svcv >=? nextSvcID _).
Qed.

(** The callback does not panic when every service that the index refers
    to is a service of the state. *)
Lemma buildPrevStep_total (state : DPSyncerState) (svcRef : gmap FrontendKey syncRef) (s0 : Syncer) (inc0 : bool) (kv : FrontendKey * FrontendValue) :
  (∀ k xref, svcRef !! k = Some xref → (sr_svc xref, sr_info xref) ∈ SvcMap state) →
  is_Some (buildPrevStep state svcRef (Some (s0, inc0)) kv).
Proof.
  intros Href. destruct kv as [svck svcv]. unfold buildPrevStep. simpl.
  destruct (svcRef !! svck) as [xref|] eqn:Hx; [|by eexists].
  destruct (matchBpfSvc s0 svck (sr_svc xref) (sr_info xref)) as [svckey|] eqn:Hmatch;
    [|by eexists].
  apply matchBpfSvc_sname in Hmatch as [Hname _].
  destruct (lookupSvc_is_Some (SvcMap state) (sname svckey) (sr_info xref)) as [svc ->].
  { rewrite Hname. by eapply Href. }
  simpl. destruct (extra svckey); [by eexists|].
  by destruct (readBackends _ _ _ _ _).
Qed.

Lemma buildPrev_fold_total (state : DPSyncerState) (svcRef : gmap FrontendKey syncRef) (l : list (FrontendKey * FrontendValue)) (s0 : Syncer) (inc0 : bool) :
  (∀ k xref, svcRef !! k = Some xref → (sr_svc xref, sr_info xref) ∈ SvcMap state) →
  is_Some (foldl (buildPrevStep state svcRef) (Some (s0, inc0)) l).
Proof.
  intros Href. revert s0 inc0. induction l as [|kv l IH]; intros s0 inc0; [by eexists|].
  cbn [foldl]. destruct (buildPrevStep_total state svcRef s0 inc0 kv Href) as [[s1 inc1] ->].
  apply IH.
Qed.

Lemma startupBuildPrev_panics (s : Syncer) (state : DPSyncerState) :
  startupBuildPrev s state = None ↔ ∃ e, e ∈ SvcMap state ∧ unknownProtocol e = true.
Proof.
  unfold startupBuildPrev.
  destruct (svcRef_fold s (SvcMap state) ∅) as [Hnone Hsome].
  fold (svcMapToIPPortProtoMap s (SvcMap state)) in Hnone, Hsome.
  destruct (svcMapToIPPortProtoMap s (SvcMap state)) as [svcRef|] eqn:Href; simpl.
  - destruct (buildPrev_fold_total state svcRef
                (map_to_list (cm_dataplane (bpfSvcs s))) s false) as [[s1 inc] ->].
    { intros k xref Hx. destruct (Hsome svcRef eq_refl k) as [_ Hval].
      destruct (Hval xref Hx) as [Hk|[Hin _]]; [by rewrite lookup_empty in Hk|done]. }
    simpl. split; [done|]. intros He. apply Hnone in He. done.
  - split; [|done]. intros _. by apply Hnone.
Qed.

(** X8.  [Apply] panics only on the cold start, and exactly when the two
    maps load from the kernel without error and a service of the state
    has a protocol other than TCP, UDP and SCTP (the panic of
    [ProtoV1ToIntPanic] in [svcMapToIPPortProtoMap]); once the syncer has
    synced, [Apply] returns for every state. *)
Theorem Apply_panics_on_unknown_protocol (topo : string → string → list string → bool) (s : Syncer) (k : Kernel) (state : DPSyncerState) :
  Apply topo s k state = None ↔
  synced s = false
  ∧ km_loadError (k_backend k) = None ∧ km_loadError (k_frontend k) = None
  ∧ ∃ e, e ∈ SvcMap state ∧ unknownProtocol e = true.
Proof.
  unfold Apply, enterApply. destruct (synced s); simpl.
  { split; [done|]. by intros [? _]. }
  unfold startupSync, loadOrigs, LoadCacheFromDataplane.
  destruct (km_loadError (k_backend k)) as [e1|]; simpl.
  { split; [done|]. by intros (_ & ? & _). }
  destruct (km_loadError (k_frontend k)) as [e2|]; simpl.
  { split; [done|]. by intros (_ & _ & ? & _). }
  match goal with
  | |- context [startupBuildPrev ?s1 state] =>
      pose proof (startupBuildPrev_panics s1 state) as Hp;
      destruct (startupBuildPrev s1 state) as [[s2 err]|]
  end; simpl.
  - split; [done|]. intros (_ & _ & _ & He). apply Hp in He. done.
  - split; [|done]. intros _. split_and!; try done. by apply Hp.
Qed.

(** The entries read so far come from the kernel, and the counter is
    ahead of their ids. *)
Lemma buildPrev_fold_recovers (s : Syncer) (k : Kernel) (state : DPSyncerState) (svcRef : gmap FrontendKey syncRef) (l : list (FrontendKey * FrontendValue)) (s0 s1 : Syncer) (inc0 inc1 : bool) :
  (∀ key xref, svcRef !! key = Some xref → (sr_svc xref, sr_info xref) ∈ SvcMap state) →
  (∀ fk fv, (fk, fv) ∈ l → km_data (k_frontend k) !! fk = Some fv) →
  nodePortIPs s0 = nodePortIPs s →
  (∀ skey info, prevSvcMap s0 !! skey = Some info → recoveredFrom s k state skey info) →
  foldl (buildPrevStep state svcRef) (Some (s0, inc0)) l = Some (s1, inc1) →
  nodePortIPs s1 = nodePortIPs s
  ∧ newSvcMap s1 = newSvcMap s0
  ∧ (∀ skey info, prevSvcMap s1 !! skey = Some info → recoveredFrom s k state skey info)
  ∧ ((∀ fk fv, (fk, fv) ∈ l → 0 ≤ fv_ID fv < 2 ^ 32 - 1) →
     0 ≤ nextSvcID s0 →
     map_Forall (λ _ info, si_id info < nextSvcID s0) (prevSvcMap s0) →
     0 ≤ nextSvcID s1 ∧ map_Forall (λ _ info, si_id info < nextSvcID s1) (prevSvcMap s1)).
Proof.
  intros Href. revert s0 inc0.
  induction l as [|[svck svcv] l IH]; intros s0 inc0 Hl Hnp Hrec Hfold.
  { simpl in Hfold. injection Hfold as <- <-. done. }
  cbn [foldl] in Hfold.
  destruct (buildPrevStep_total state svcRef s0 inc0 (svck, svcv) Href) as [[s2 inc2] Hstep].
  rewrite Hstep in Hfold.
  assert (∀ fk fv, (fk, fv) ∈ l → km_data (k_frontend k) !! fk = Some fv) as Hl'.
  { intros fk fv Hin. apply Hl. by right. }
  apply buildPrevStep_cases in Hstep
    as [[-> ->]|(xref & svckey & svc & Hx & Hmatch & Hsvc & Hprev & Hnext & Hnp2 & _ & _ & _ & Hnew & _)].
  { destruct (IH s0 inc0 Hl' Hnp Hrec Hfold) as (H1 & H2 & H3 & H4).
    split; [done|]. split; [done|]. split; [done|]. intros Hids. apply H4.
    intros fk fv Hin. apply (Hids fk). by right. }
  apply matchBpfSvc_sname in Hmatch as [Hname Has].
  destruct (IH s2 inc2 Hl') as (H1 & H2 & H3 & H4); [congruence| |done|].
  { intros skey info. rewrite Hprev. destruct (decide (skey = svckey)) as [->|Hne].
    - rewrite lookup_insert_eq. intros [= <-]. exists svck, svcv, (sr_info xref).
      split; [apply Hl; by left|]. split; [rewrite Hname; by eapply Href|].
      split; [eapply matchedAs_same; [|exact Has]; congruence|]. done.
    - rewrite lookup_insert_ne by done. apply Hrec. }
  split; [done|]. split; [congruence|]. split; [done|].
  intros Hids Hn0 Hbelow. apply H4.
  - intros fk fv Hin. apply (Hids fk). by right.
  - rewrite Hnext. destruct (fv_ID svcv >=? nextSvcID s0); [|done].
    unfold uint32. apply Z.mod_pos_bound. done.
  - assert (0 ≤ fv_ID svcv < 2 ^ 32 - 1) as Hid by (apply (Hids svck); by left).
    rewrite Hprev, Hnext. destruct (fv_ID svcv >=? nextSvcID s0) eqn:Hge.
    + rewrite uint32_small by lia. apply map_Forall_insert_2; [simpl; lia|].
      eapply map_Forall_impl; [exact Hbelow|]. intros ? ? ?. simpl in *. lia.
    + apply map_Forall_insert_2; [simpl; lia|done].
Qed.

(** X9.  A cold start that loads the kernel maps and finds every protocol
    known fills the previous service map, which was empty, only with
    entries read from the kernel: each has the id and the counts of a
    kernel frontend that [matchBpfSvc] classifies under its key, and the
    service that the state holds under its name; none is the entry of a
    remote node port.  If moreover every id in the kernel is below
    4294967295, the id counter ends ahead of every id recovered. *)
Theorem startupSync_recovers_from_kernel (s s' : Syncer) (k : Kernel) (state : DPSyncerState) :
  prevSvcMap s = ∅ → newSvcMap s = ∅ → 0 ≤ nextSvcID s →
  startupSync s k state = Some (s', None) →
  (∀ skey info, prevSvcMap s' !! skey = Some info →
     recoveredFrom s k state skey info
     ∧ hasSvcKeyExtra skey svcTypeNodePortRemote = false)
  ∧ ((∀ fk fv, km_data (k_frontend k) !! fk = Some fv → 0 ≤ fv_ID fv < 2 ^ 32 - 1) →
     idsBelow s').
Proof.
  intros Hprev Hnew Hn0. unfold startupSync.
  destruct (loadOrigs s k) as [s1 [err|]] eqn:Hload; [done|].
  destruct (loadOrigs_coherent s s1 k Hload) as [HF _].
  assert (nodePortIPs s1 = nodePortIPs s ∧ prevSvcMap s1 = prevSvcMap s
          ∧ newSvcMap s1 = newSvcMap s ∧ nextSvcID s1 = nextSvcID s) as (Hnp & Hp1 & Hn1 & Hc1).
  { revert Hload. unfold loadOrigs, LoadCacheFromDataplane.
    destruct (km_loadError (k_backend k)); [done|]. simpl.
    destruct (km_loadError (k_frontend k)); [done|]. by intros [= <-]. }
  unfold startupBuildPrev.
  destruct (svcRef_fold s1 (SvcMap state) ∅) as [_ Hsome].
  fold (svcMapToIPPortProtoMap s1 (SvcMap state)) in Hsome.
  destruct (svcMapToIPPortProtoMap s1 (SvcMap state)) as [svcRef|]; simpl; [|done].
  destruct (foldl _ _ _) as [[s2 inc]|] eqn:Hfold; simpl; [|done].
  intros [= <-].
  destruct (buildPrev_fold_recovers s k state svcRef
              (map_to_list (cm_dataplane (bpfSvcs s1))) s1 s2 false inc) as (H1 & H2 & H3 & H4);
    [| |done| |exact Hfold|].
  { intros key xref Hx. destruct (Hsome svcRef eq_refl key) as [_ Hval].
    destruct (Hval xref Hx) as [Hk|[Hin _]]; [by rewrite lookup_empty in Hk|done]. }
  { intros fk fv Hin%elem_of_map_to_list. by rewrite <- HF. }
  { intros skey info. by rewrite Hp1, Hprev, lookup_empty. }
  split.
  - intros skey info Hl. split; [by apply H3|].
    destruct (H3 skey info Hl) as (fk & fv & svc & _ & _ & Has & _).
    by eapply matchedAs_not_remote.
  - intros Hids. destruct H4 as [H5 H6].
    + intros fk fv Hin%elem_of_map_to_list. apply (Hids fk). by rewrite <- HF.
    + by rewrite Hc1.
    + rewrite Hp1, Hprev. apply map_Forall_empty.
    + split; [done|]. split; [done|]. rewrite H2, Hn1, Hnew. apply map_Forall_empty.
Qed.

(** The theorem on the cold start of [Ex.syncer4] on
    [Ex.kernelMissingSlot]. *)
Lemma startupSync_recovers_from_kernel_witness :
  ∃ s', startupSync Ex.syncer4 Ex.kernelMissingSlot Ex.stateA = Some (s', None)
    ∧ (∀ skey info, prevSvcMap s' !! skey = Some info →
         recoveredFrom Ex.syncer4 Ex.kernelMissingSlot Ex.stateA skey info
         ∧ hasSvcKeyExtra skey svcTypeNodePortRemote = false)
    ∧ idsBelow s'.
Proof.
  destruct (startupSync Ex.syncer4 Ex.kernelMissingSlot Ex.stateA) as [[s' [err|]]|] eqn:Hs;
    [exfalso; revert Hs; vm_compute; discriminate| |exfalso; revert Hs; vm_compute; discriminate].
  exists s'. split; [reflexivity|].
  destruct (startupSync_recovers_from_kernel Ex.syncer4 s' Ex.kernelMissingSlot Ex.stateA)
    as [Hrec Hids]; [reflexivity|reflexivity|vm_compute; discriminate|exact Hs|].
  split; [exact Hrec|]. apply Hids.
  intros fk fv Hl. apply elem_of_map_to_list in Hl.
  vm_compute in Hl. apply list_elem_of_singleton in Hl. injection Hl as _ Hfv.
  subst fv. simpl. lia.
Defined.

(** ** The sync pass as the list of its operations *)

Lemma foldl_runOp_sameConfig (ops : list passOp) (s : Syncer) :
  sameConfig s (foldl runOp s ops).
Proof.
  revert s. induction ops as [|op ops IH]; intros s; [apply sameConfig_refl|].
  cbn [foldl]. eapply sameConfig_trans; [apply runOp_sameConfig|apply IH].
Qed.

Lemma applyLBVIPs_ops (s : Syncer) (sn : ServicePortName) (svc : Service) :
  applyLBVIPs s sn svc = foldl runOp s (lbOps sn svc).
Proof.
  unfold applyLBVIPs, lbOps, serviceInfoFromK8sServicePort.
  generalize (loadBalancerVIPs svc) as ips. intros ips. revert s.
  induction ips as [|ip ips IH]; intros s; [done|]. cbn [foldl]. rewrite IH.
  destruct (decide (IP_len ip ≠ 0)) as [Hne|Heq].
  - rewrite filter_cons_True by done. apply Z.eqb_neq in Hne. by rewrite Hne.
  - rewrite filter_cons_False by done. apply dec_stable in Heq.
    apply Z.eqb_eq in Heq. by rewrite Heq.
Qed.

Lemma applyExternalIPs_ops (s : Syncer) (sn : ServicePortName) (svc : Service) :
  applyExternalIPs s sn svc = foldl runOp s (extOps sn svc).
Proof.
  unfold applyExternalIPs, extOps, serviceInfoFromK8sServicePort.
  generalize (externalIPs svc) as ips. intros ips. revert s.
  induction ips as [|ip ips IH]; intros s; [done|]. cbn [foldl]. by rewrite IH.
Qed.

Lemma isPodNPIP_same (s s' : Syncer) (ip : IP) :
  ipFamily s' = ipFamily s → isPodNPIP s' ip = isPodNPIP s ip.
Proof. unfold isPodNPIP. by intros ->. Qed.

Lemma applyNodePortIPs_ops (s0 s : Syncer) (sn : ServicePortName) (svc : Service) :
  ipFamily s = ipFamily s0 → nodePortIPs s = nodePortIPs s0 →
  applyNodePortIPs s sn svc (nodePort svc) = foldl runOp s (npOps s0 sn svc).
Proof.
  intros Hfam Hnp. unfold applyNodePortIPs, npOps, serviceInfoFromK8sServicePort.
  rewrite Hnp. generalize (nodePortIPs s0) as ips. intros ips. revert s Hfam Hnp.
  induction ips as [|ip ips IH]; intros s Hfam Hnp; [done|]. cbn [foldl].
  rewrite (isPodNPIP_same s0 s ip Hfam).
  destruct (nodeLocalInternal svc && isPodNPIP s0 ip) eqn:Hpod.
  - rewrite filter_cons_False by (by rewrite Hpod). by apply IH.
  - rewrite filter_cons_True by done. cbn [fmap list_fmap foldl].
    change (applyDerived s sn svcTypeNodePort
              (withPort (nodePort svc) (withClusterIP ip svc))).1
      with (runOp s (OpDerived sn svcTypeNodePort
                       (withPort (nodePort svc) (withClusterIP ip svc)))).
    destruct (runOp_sameConfig s
                (OpDerived sn svcTypeNodePort (withPort (nodePort svc) (withClusterIP ip svc))))
      as (Hf & Hn & _).
    apply IH; congruence.
Qed.

Lemma expandAndApplyNodePorts_ops (s0 s : Syncer) (sn : ServicePortName) (svc : Service) (eps : list Endpoint) :
  rt s = rt s0 →
  (expandAndApplyNodePorts s sn svc eps (nodePort svc) (rt s)).1
  = foldl runOp s (expandOps s0 sn svc eps)
  ∧ (expandAndApplyNodePorts s sn svc eps (nodePort svc) (rt s)).2
    = (expandNodePorts s0 sn svc eps (nodePort svc) (rt s0)).2.
Proof.
  intros Hrt. unfold expandAndApplyNodePorts, expandOps, expandNodePorts. rewrite Hrt.
  simpl. split; [|done].
  generalize (map_to_list (el_ipToEp (foldl
    (expandStep sn svc (nodePort svc) (rt s0)) (mkExpandLoop ∅ None) eps))) as l.
  intros l. clear Hrt. revert s. induction l as [|[node neps] l IH]; intros s; [done|].
  cbn [foldl fmap list_fmap fst snd]. rewrite applyExpandedNP_runOp. apply IH.
Qed.

Section pass_as_ops.
Variable topo : string → string → list string → bool.
Variable state : DPSyncerState.

(** One turn of the service loop. *)
Lemma applyService_ops (s0 : Syncer) (p : passLoop) (entry : ServicePortName * Service) :
  pl_err p = None → sameConfig s0 (pl_s p) →
  pl_s (applyService topo state p entry)
  = foldl runOp (pl_s p) (serviceOps topo s0 state entry).
Proof.
  intros Hp Hcfg. destruct entry as [sn svc]. unfold applyService, serviceOps.
  rewrite Hp. unfold unknownProtocol. cbn [fst snd foldl runOp].
  fold (passEps topo state sn svc).
  set (eps := passEps topo state sn svc).
  pose proof (applySvc_error (pl_s p) (getSvcKey sn None) svc eps) as Herr.
  rewrite ProtoV1ToInt_error in Herr.
  pose proof (runOp_sameConfig (pl_s p) (OpSvc (getSvcKey sn None) svc eps)) as Hc1.
  cbn [runOp] in Hc1.
  destruct (applySvc (pl_s p) (getSvcKey sn None) svc eps) as [s1 [err|]];
    cbn [fst snd] in *.
  { by destruct (bool_decide (ProtoV1ToIntPanic (protocol svc) = None)). }
  destruct (bool_decide (ProtoV1ToIntPanic (protocol svc) = None)); [done|].
  rewrite !foldl_app, <- applyLBVIPs_ops, <- applyExternalIPs_ops.
  set (s2 := applyExternalIPs (applyLBVIPs s1 sn svc) sn svc).
  assert (sameConfig s0 s2) as Hc2.
  { eapply sameConfig_trans; [exact Hcfg|]. eapply sameConfig_trans; [exact Hc1|].
    unfold s2. rewrite applyLBVIPs_ops, applyExternalIPs_ops, <- foldl_app.
    apply foldl_runOp_sameConfig. }
  assert (ipFamily s2 = ipFamily s0) as Hf2 by (by destruct Hc2 as (? & _)).
  assert (nodePortIPs s2 = nodePortIPs s0) as Hn2 by (by destruct Hc2 as (_ & ? & _)).
  destruct (negb (nodePort svc =? 0)); [|done].
  rewrite foldl_app.
  rewrite <- (applyNodePortIPs_ops s0 s2 sn svc Hf2 Hn2).
  set (s3 := applyNodePortIPs s2 sn svc (nodePort svc)).
  destruct (nodeLocalInternal svc); [|done].
  assert (rt s3 = rt s0) as Hrt.
  { unfold s3. rewrite (applyNodePortIPs_ops s0 s2 sn svc Hf2 Hn2).
    destruct (foldl_runOp_sameConfig (npOps s0 sn svc) s2) as (_ & _ & -> & _).
    by destruct Hc2 as (_ & _ & -> & _). }
  destruct (expandAndApplyNodePorts_ops s0 s3 sn svc eps Hrt) as [Hs _].
  rewrite <- Hs. by destruct (expandAndApplyNodePorts s3 sn svc eps (nodePort svc) (rt s3))
    as [s4 [miss|]].
Qed.

Lemma applyService_stuck (p : passLoop) (entry : ServicePortName * Service) (e : error) :
  pl_err p = Some e → applyService topo state p entry = p.
Proof. intros Hp. unfold applyService. by rewrite Hp. Qed.

Lemma applyService_fold_stuck (l : list (ServicePortName * Service)) (p : passLoop) (e : error) :
  pl_err p = Some e → foldl (applyService topo state) p l = p.
Proof.
  intros Hp. induction l as [|x l IH]; [done|].
  cbn [foldl]. by rewrite (applyService_stuck p x e Hp).
Qed.

Lemma applyService_fold_ops (s0 : Syncer) (l : list (ServicePortName * Service)) (p : passLoop) :
  pl_err p = None → sameConfig s0 (pl_s p) →
  pl_s (foldl (applyService topo state) p l) = foldl runOp (pl_s p) (passOps topo s0 state l).
Proof.
  revert p. induction l as [|entry l IH]; intros p Hp Hcfg; [done|].
  cbn [foldl passOps]. rewrite foldl_app, <- (applyService_ops s0 p entry Hp Hcfg).
  pose proof (applyService_error topo state p entry) as Herr. rewrite Hp in Herr.
  destruct (unknownProtocol entry).
  - by rewrite (applyService_fold_stuck l _ _ Herr).
  - apply IH; [done|]. rewrite (applyService_ops s0 p entry Hp Hcfg).
    eapply sameConfig_trans; [exact Hcfg|apply foldl_runOp_sameConfig].
Qed.

Lemma syncPass_ops (s : Syncer) :
  pl_s (syncPass topo s state) = foldl runOp (passStart s) (passOps topo s state (SvcMap state)).
Proof.
  unfold syncPass. rewrite (applyService_fold_ops s); [done|done|].
  by unfold sameConfig.
Qed.

End pass_as_ops.
